(** * Page-replacement simulators of the paging simulator GUI

    A shallow embedding of the four simulation functions of
    [secondapp.py] (FIFO, LRU, OPTIMAL, LFU), of the input gate
    [parse_input], of the winner selection of [compare_all], and of the
    two-algorithm comparison [run_both] of [app.py].

    Python integers are [Z]; Python lists of pages are [list Z]; the
    dictionaries [recent], [freq] and [time] are [gmap Z Z]; an uncaught
    Python exception is the [Raise] branch of [result]. *)

From stdpp Require Import base gmap sets list strings pretty.

Open Scope Z_scope.
#[local] Set Warnings "-clear-no-such-hyp".

(** ** Exceptions and the error monad *)

Inductive exn := IndexError | ValueError | KeyError | ZeroDivisionError.

Inductive result (A : Type) :=
| Ok (a : A)
| Raise (e : exn).
Arguments Ok {A} a.
Arguments Raise {A} e.

Definition bind {A B : Type} (r : result A) (k : A → result B) : result B :=
  match r with
  | Ok a => k a
  | Raise e => Raise e
  end.

Notation "x <- r ;; k" := (bind r (λ x, k))
  (at level 100, r at next level, right associativity).

(** ** Python list, integer and dictionary primitives *)

(** [len(l)] *)
Definition py_len (l : list Z) : Z := Z.of_nat (length l).

(** [l.index(x)]: position of the first occurrence, [ValueError] when absent. *)
Fixpoint py_index (l : list Z) (x : Z) : result Z :=
  match l with
  | [] => Raise ValueError
  | y :: l' => if decide (y = x) then Ok 0 else i <- py_index l' x ;; Ok (i + 1)
  end.

(** Index normalisation of [l[i]]: negative indices count from the end. *)
Definition py_norm_index (l : list Z) (i : Z) : result nat :=
  if decide (0 ≤ i < py_len l) then Ok (Z.to_nat i)
  else if decide (- py_len l ≤ i < 0) then Ok (Z.to_nat (i + py_len l))
  else Raise IndexError.

(** [l[i]] *)
Definition py_getitem (l : list Z) (i : Z) : result Z :=
  n <- py_norm_index l i ;;
  match l !! n with
  | Some x => Ok x
  | None => Raise IndexError
  end.

(** [l[i] = v] *)
Definition py_setitem (l : list Z) (i : Z) (v : Z) : result (list Z) :=
  n <- py_norm_index l i ;; Ok (<[n:=v]> l).

(** [a % b] *)
Definition py_mod (a b : Z) : result Z :=
  if decide (b = 0) then Raise ZeroDivisionError else Ok (a `mod` b).

(** [l[i:]] *)
Definition py_slice_from (l : list Z) (i : Z) : list Z :=
  if decide (0 ≤ i) then drop (Z.to_nat i) l
  else drop (Z.to_nat (Z.max 0 (py_len l + i))) l.

(** [enumerate(l, start)] *)
Fixpoint enumerate (start : Z) (l : list Z) : list (Z * Z) :=
  match l with
  | [] => []
  | x :: l' => (start, x) :: enumerate (start + 1) l'
  end.

(** [d[k]] *)
Definition dict_getitem (d : gmap Z Z) (k : Z) : result Z :=
  match d !! k with
  | Some v => Ok v
  | None => Raise KeyError
  end.

(** [d.get(k, dflt)] *)
Definition dict_get (d : gmap Z Z) (k : Z) (dflt : Z) : Z := default dflt (d !! k).

(** [del d[k]] *)
Definition dict_del (d : gmap Z Z) (k : Z) : result (gmap Z Z) :=
  match d !! k with
  | Some _ => Ok (delete k d)
  | None => Raise KeyError
  end.

(** [min(l, key=key)]: the first element whose key is strictly below all
    earlier ones wins, so the first minimal element is returned; keys are
    computed in list order and an empty list raises [ValueError]. *)
Fixpoint py_min_from {X K : Type} (ltb : K → K → bool) (key : X → result K)
    (best : X) (kbest : K) (l : list X) : result X :=
  match l with
  | [] => Ok best
  | x :: l' =>
      kx <- key x ;;
      if ltb kx kbest then py_min_from ltb key x kx l'
      else py_min_from ltb key best kbest l'
  end.

Definition py_min {X K : Type} (ltb : K → K → bool) (key : X → result K)
    (l : list X) : result X :=
  match l with
  | [] => Raise ValueError
  | x :: l' => kx <- key x ;; py_min_from ltb key x kx l'
  end.

(** [<] on pairs of integers (tuple comparison). *)
Definition pair_ltb (a b : Z * Z) : bool :=
  if decide (a.1 = b.1) then bool_decide (a.2 < b.2) else bool_decide (a.1 < b.1).

(** A [for] loop whose body may raise. *)
Fixpoint for_each {S X : Type} (body : S → X → result S) (xs : list X) (st : S)
    : result S :=
  match xs with
  | [] => Ok st
  | x :: xs' => st' <- body st x ;; for_each body xs' st'
  end.

(** ** The local variables shared by the four simulators

    [frames], [faults], [hits], [steps] and [log] occur in all four
    functions; [aux] holds what is particular to one of them
    ([queue_index], [recent], or [freq] and [time]). *)

Definition step_record : Type := Z * list Z * string.

Record sim (A : Type) := Sim {
  frames : list Z;
  faults : Z;
  hits : Z;
  steps : list step_record;
  log : list string;
  aux : A
}.
Arguments Sim {A}.
Arguments frames {A}.
Arguments faults {A}.
Arguments hits {A}.
Arguments steps {A}.
Arguments log {A}.
Arguments aux {A}.

Definition init {A : Type} (a : A) : sim A := Sim [] 0 0 [] [] a.

(** [hits += 1] *)
Definition count_hit {A : Type} (st : sim A) : sim A :=
  Sim (frames st) (faults st) (hits st + 1) (steps st) (log st) (aux st).

(** [faults += 1] *)
Definition count_fault {A : Type} (st : sim A) : sim A :=
  Sim (frames st) (faults st + 1) (hits st) (steps st) (log st) (aux st).

(** [frames.append(page)] and [frames[idx] = page] both end here. *)
Definition set_frames {A : Type} (fr : list Z) (st : sim A) : sim A :=
  Sim fr (faults st) (hits st) (steps st) (log st) (aux st).

Definition set_aux {A : Type} (a : A) (st : sim A) : sim A :=
  Sim (frames st) (faults st) (hits st) (steps st) (log st) a.

(** [log.append(line)] *)
Definition add_log {A : Type} (line : string) (st : sim A) : sim A :=
  Sim (frames st) (faults st) (hits st) (steps st) (log st ++ [line]) (aux st).

(** [steps.append((page, frames.copy(), status))] *)
Definition record_step {A : Type} (page : Z) (status : string) (st : sim A) : sim A :=
  Sim (frames st) (faults st) (hits st)
      (steps st ++ [(page, frames st, status)]) (log st) (aux st).

(** [return steps, faults, hits, log] *)
Definition outcome : Type := list step_record * Z * Z * list string.

Definition returned {A : Type} (st : sim A) : outcome :=
  (steps st, faults st, hits st, log st).

(** The f-strings of the execution log. *)
Definition log_hit (step page : Z) (why : string) : string :=
  "Step " +:+ pretty step +:+ ": Page " +:+ pretty page +:+ " -> HIT (" +:+ why +:+ ")".

Definition log_load (step page : Z) : string :=
  "Step " +:+ pretty step +:+ ": Page " +:+ pretty page
    +:+ " -> FAULT (loaded into empty frame)".

Definition log_replace (step page victim : Z) (algo : string) : string :=
  "Step " +:+ pretty step +:+ ": Page " +:+ pretty page
    +:+ " -> FAULT (replaced " +:+ pretty victim +:+ " using " +:+ algo +:+ ")".

(** ** FIFO *)

Definition fifo_body (frame_count : Z) (st : sim Z) (it : Z * Z) : result (sim Z) :=
  let '(step, page) := it in
  if decide (page ∈ frames st) then
    let st := count_hit st in
    let st := add_log (log_hit step page "already in memory") st in
    Ok (record_step page "HIT" st)
  else
    let st := count_fault st in
    st <- (if decide (py_len (frames st) < frame_count) then
             let st := set_frames (frames st ++ [page]) st in
             Ok (add_log (log_load step page) st)
           else
             let queue_index := aux st in
             replaced <- py_getitem (frames st) queue_index ;;
             fr <- py_setitem (frames st) queue_index page ;;
             let st := set_frames fr st in
             let st := add_log (log_replace step page replaced "FIFO") st in
             queue_index <- py_mod (queue_index + 1) frame_count ;;
             Ok (set_aux queue_index st)) ;;
    Ok (record_step page "FAULT" st).

Definition fifo_loop (frame_count : Z) (pages : list Z) : result (sim Z) :=
  for_each (fifo_body frame_count) (enumerate 1 pages) (init 0).

Definition fifo_page_replacement (pages : list Z) (frame_count : Z) : result outcome :=
  st <- fifo_loop frame_count pages ;; Ok (returned st).

(** ** LRU *)

Definition lru_body (frame_count : Z) (st : sim (gmap Z Z)) (it : Z * Z)
    : result (sim (gmap Z Z)) :=
  let '(i, page) := it in
  let step := i + 1 in
  let recent := aux st in
  st <- (if decide (page ∈ frames st) then
           let st := count_hit st in
           let st := add_log (log_hit step page "already in memory") st in
           Ok (st, "HIT")
         else
           let st := count_fault st in
           st <- (if decide (py_len (frames st) < frame_count) then
                    let st := set_frames (frames st ++ [page]) st in
                    Ok (add_log (log_load step page) st)
                  else
                    lru_page <- py_min Z.ltb (λ p, Ok (dict_get recent p (-1))) (frames st) ;;
                    idx <- py_index (frames st) lru_page ;;
                    fr <- py_setitem (frames st) idx page ;;
                    let st := set_frames fr st in
                    Ok (add_log (log_replace step page lru_page "LRU") st)) ;;
           Ok (st, "FAULT")) ;;
  let '(st, status) := st in
  let st := set_aux (<[page:=i]> recent) st in
  Ok (record_step page status st).

Definition lru_loop (frame_count : Z) (pages : list Z) : result (sim (gmap Z Z)) :=
  for_each (lru_body frame_count) (enumerate 0 pages) (init ∅).

Definition lru_page_replacement (pages : list Z) (frame_count : Z) : result outcome :=
  st <- lru_loop frame_count pages ;; Ok (returned st).

(** ** OPTIMAL *)

(** The values of [next_use] and [farthest_index]: an integer or
    [float('inf')]. *)
Inductive num := Int (z : Z) | Inf.

(** [a > b] *)
Definition num_gtb (a b : num) : bool :=
  match a, b with
  | Int x, Int y => bool_decide (y < x)
  | Inf, Int _ => true
  | _, Inf => false
  end.

(** [future.index(f) if f in future else float('inf')] *)
Definition next_use (future : list Z) (f : Z) : result num :=
  if decide (f ∈ future) then i <- py_index future f ;; Ok (Int i)
  else Ok Inf.

(** Body of the inner loop [for f in frames], on the pair
    [(farthest_index, replace_page)]. *)
Definition optimal_scan (future : list Z) (acc : num * option Z) (f : Z)
    : result (num * option Z) :=
  let '(farthest_index, replace_page) := acc in
  nu <- next_use future f ;;
  if num_gtb nu farthest_index then Ok (nu, Some f)
  else Ok (farthest_index, replace_page).

(** [frames.index(replace_page)], where [replace_page] may still be [None]. *)
Definition index_of_choice (fr : list Z) (replace_page : option Z) : result (Z * Z) :=
  match replace_page with
  | None => Raise ValueError
  | Some p => idx <- py_index fr p ;; Ok (idx, p)
  end.

Definition optimal_body (pages : list Z) (frame_count : Z) (st : sim ()) (it : Z * Z)
    : result (sim ()) :=
  let '(i, page) := it in
  let step := i + 1 in
  if decide (page ∈ frames st) then
    let st := count_hit st in
    let st := add_log (log_hit step page "already in memory") st in
    Ok (record_step page "HIT" st)
  else
    let st := count_fault st in
    st <- (if decide (py_len (frames st) < frame_count) then
             let st := set_frames (frames st ++ [page]) st in
             Ok (add_log (log_load step page) st)
           else
             let future := py_slice_from pages (i + 1) in
             acc <- for_each (optimal_scan future) (frames st) (Int (-1), None) ;;
             let '(farthest_index, replace_page) := acc in
             ip <- index_of_choice (frames st) replace_page ;;
             let '(idx, replace_page) := ip in
             fr <- py_setitem (frames st) idx page ;;
             let st := set_frames fr st in
             Ok (add_log (log_replace step page replace_page "OPTIMAL") st)) ;;
    Ok (record_step page "FAULT" st).

Definition optimal_loop (frame_count : Z) (pages : list Z) : result (sim ()) :=
  for_each (optimal_body pages frame_count) (enumerate 0 pages) (init ()).

Definition optimal_page_replacement (pages : list Z) (frame_count : Z) : result outcome :=
  st <- optimal_loop frame_count pages ;; Ok (returned st).

(** ** LFU *)

(** [key=lambda p: (freq[p], time[p])] *)
Definition lfu_key (freq time : gmap Z Z) (p : Z) : result (Z * Z) :=
  f <- dict_getitem freq p ;; t <- dict_getitem time p ;; Ok (f, t).

Definition lfu_body (frame_count : Z) (st : sim (gmap Z Z * gmap Z Z)) (it : Z * Z)
    : result (sim (gmap Z Z * gmap Z Z)) :=
  let '(i, page) := it in
  let step := i + 1 in
  let '(freq, time) := aux st in
  if decide (page ∈ frames st) then
    let st := count_hit st in
    f <- dict_getitem freq page ;;
    let freq := <[page:=f + 1]> freq in
    let time := <[page:=i]> time in
    let st := set_aux (freq, time) st in
    let st := add_log (log_hit step page "frequency increased") st in
    Ok (record_step page "HIT" st)
  else
    let st := count_fault st in
    st <- (if decide (py_len (frames st) < frame_count) then
             let st := set_frames (frames st ++ [page]) st in
             let freq := <[page:=1]> freq in
             let time := <[page:=i]> time in
             let st := set_aux (freq, time) st in
             Ok (add_log (log_load step page) st)
           else
             victim <- py_min pair_ltb (lfu_key freq time) (frames st) ;;
             idx <- py_index (frames st) victim ;;
             let st := add_log (log_replace step page victim "LFU") st in
             freq <- dict_del freq victim ;;
             time <- dict_del time victim ;;
             fr <- py_setitem (frames st) idx page ;;
             let st := set_frames fr st in
             let freq := <[page:=1]> freq in
             let time := <[page:=i]> time in
             Ok (set_aux (freq, time) st)) ;;
    Ok (record_step page "FAULT" st).

Definition lfu_loop (frame_count : Z) (pages : list Z)
    : result (sim (gmap Z Z * gmap Z Z)) :=
  for_each (lfu_body frame_count) (enumerate 0 pages) (init (∅, ∅)).

Definition lfu_page_replacement (pages : list Z) (frame_count : Z) : result outcome :=
  st <- lfu_loop frame_count pages ;; Ok (returned st).

(** ** The input gate and the comparison

    [parse_input] reads two text fields.  Its arguments here are the
    outcomes of the two conversions [int(frame_entry.get().strip())] and
    [list(map(int, ref_string.split()))], where [None] stands for a
    conversion that raised.  Every exception, including the two
    [raise ValueError] of the checks, is caught by the bare [except] and
    turned into [(None, None)], here [None]. *)
Definition parse_input (frame_int : option Z) (page_ints : option (list Z))
    : option (list Z * Z) :=
  match frame_int with
  | None => None
  | Some frame_count =>
      if decide (frame_count ≤ 0) then None
      else match page_ints with
           | None => None
           | Some pages =>
               if decide (py_len pages = 0) then None
               else Some (pages, frame_count)
           end
  end.

(** [compare_all], after [parse_input] has let the input through: the
    four runs and the choice of [best]; the result is the text put into
    [result_label].  The hit ratios of the table are floating-point
    numbers and are left out. *)
Definition compare_all (pages : list Z) (frame_count : Z) : result string :=
  fifo <- fifo_page_replacement pages frame_count ;;
  let '(fifo_steps, fifo_faults, fifo_hits, fifo_log) := fifo in
  lru <- lru_page_replacement pages frame_count ;;
  let '(lru_steps, lru_faults, lru_hits, lru_log) := lru in
  opt <- optimal_page_replacement pages frame_count ;;
  let '(opt_steps, opt_faults, opt_hits, opt_log) := opt in
  lfu <- lfu_page_replacement pages frame_count ;;
  let '(lfu_steps, lfu_faults, lfu_hits, lfu_log) := lfu in
  best <- py_min Z.ltb (λ x : string * Z, Ok (x.2))
            [("FIFO", fifo_faults); ("LRU", lru_faults);
             ("OPTIMAL", opt_faults); ("LFU", lfu_faults)] ;;
  Ok ("Best Algorithm (Minimum Faults): " +:+ best.1).

(** ** The earlier two-algorithm program, [app.py] *)
Module App.

Definition fifo_body (frame_count : Z) (st : sim Z) (page : Z) : result (sim Z) :=
  if decide (page ∈ frames st) then
    let st := count_hit st in
    Ok (record_step page "HIT" st)
  else
    let st := count_fault st in
    st <- (if decide (py_len (frames st) < frame_count) then
             Ok (set_frames (frames st ++ [page]) st)
           else
             let queue_index := aux st in
             fr <- py_setitem (frames st) queue_index page ;;
             let st := set_frames fr st in
             queue_index <- py_mod (queue_index + 1) frame_count ;;
             Ok (set_aux queue_index st)) ;;
    Ok (record_step page "FAULT" st).

Definition fifo_page_replacement (pages : list Z) (frame_count : Z)
    : result (list step_record * Z * Z) :=
  st <- for_each (fifo_body frame_count) pages (init 0) ;;
  Ok (steps st, faults st, hits st).

Definition lru_body (frame_count : Z) (st : sim (gmap Z Z)) (it : Z * Z)
    : result (sim (gmap Z Z)) :=
  let '(i, page) := it in
  let recent := aux st in
  st <- (if decide (page ∈ frames st) then
           Ok (count_hit st, "HIT")
         else
           let st := count_fault st in
           st <- (if decide (py_len (frames st) < frame_count) then
                    Ok (set_frames (frames st ++ [page]) st)
                  else
                    lru_page <- py_min Z.ltb (λ p, Ok (dict_get recent p (-1))) (frames st) ;;
                    lru_index <- py_index (frames st) lru_page ;;
                    fr <- py_setitem (frames st) lru_index page ;;
                    Ok (set_frames fr st)) ;;
           Ok (st, "FAULT")) ;;
  let '(st, status) := st in
  let st := set_aux (<[page:=i]> recent) st in
  Ok (record_step page status st).

Definition lru_page_replacement (pages : list Z) (frame_count : Z)
    : result (list step_record * Z * Z) :=
  st <- for_each (lru_body frame_count) (enumerate 0 pages) (init ∅) ;;
  Ok (steps st, faults st, hits st).

(** [run_both], after [parse_input]: the value of [better]. *)
Definition run_both (pages : list Z) (frame_count : Z) : result string :=
  fifo <- fifo_page_replacement pages frame_count ;;
  let '(fifo_steps, fifo_faults, fifo_hits) := fifo in
  lru <- lru_page_replacement pages frame_count ;;
  let '(lru_steps, lru_faults, lru_hits) := lru in
  Ok (if decide (fifo_faults < lru_faults) then "FIFO"
      else if decide (lru_faults < fifo_faults) then "LRU"
      else "Both Equal").

End App.

(** ** The result table, [display_steps]

    The Treeview is a widget; what is modelled is what goes into it: the
    list of column names and, per Step Record, the list of cell values
    of its row.  A cell is an integer or a string. *)

Inductive cell := CInt (z : Z) | CStr (s : string).

(** [range(n)] *)
Definition py_range (n : Z) : list Z := Z.of_nat <$> seq 0 (Z.to_nat n).

(** [[x] * n]: no element when [n] is zero or negative. *)
Definition py_repeat {X : Type} (x : X) (n : Z) : list X := replicate (Z.to_nat n) x.

(** The rows, for [enumerate(steps, start=i)]. *)
Fixpoint display_rows (i : Z) (steps : list step_record) (frame_count : Z)
    : list (list cell) :=
  match steps with
  | [] => []
  | (page, frames, status) :: steps' =>
      let row := [CInt i; CInt page] in
      let frames_display :=
        (CInt <$> frames) ++ py_repeat (CStr "-") (frame_count - py_len frames) in
      let row := row ++ frames_display in
      let row := row ++ [CStr status] in
      row :: display_rows (i + 1) steps' frame_count
  end.

Definition display_steps (steps : list step_record) (frame_count : Z)
    : list string * list (list cell) :=
  let columns :=
    ["Step"; "Page"]
      ++ ((λ i, "Frame " +:+ pretty (i + 1)) <$> py_range frame_count)
      ++ ["Status"] in
  (columns, display_rows 1 steps frame_count).


(** * Specification vocabulary *)

(** Valid inputs: what [parse_input] lets through. *)
Definition valid_input (pages : list Z) (frame_count : Z) : Prop :=
  pages ≠ [] ∧ 0 < frame_count.

(** The four simulators, as the comparison calls them. *)
Definition simulators : list (list Z → Z → result outcome) :=
  [fifo_page_replacement; lru_page_replacement;
   optimal_page_replacement; lfu_page_replacement].

Definition fault_count (o : outcome) : Z := o.1.1.2.
Definition hit_count (o : outcome) : Z := o.1.2.
Definition trace (o : outcome) : list step_record := o.1.1.1.

(** ** Demand paging: what one access may do to the shared variables

    A hit leaves the frames alone; a fault with room appends the page; a
    fault without room overwrites one slot.  Each case appends one Step
    Record holding the frames as they are after the access. *)

Definition frames_ok (frame_count : Z) (fr : list Z) : Prop :=
  NoDup fr ∧ py_len fr ≤ frame_count.

Inductive demand_step {A : Type} (frame_count : Z) (st : sim A) (page : Z)
    (st' : sim A) : Prop :=
| demand_hit :
    page ∈ frames st →
    frames st' = frames st →
    faults st' = faults st → hits st' = hits st + 1 →
    steps st' = steps st ++ [(page, frames st', "HIT")] →
    demand_step frame_count st page st'
| demand_load :
    page ∉ frames st →
    py_len (frames st) < frame_count →
    frames st' = frames st ++ [page] →
    faults st' = faults st + 1 → hits st' = hits st →
    steps st' = steps st ++ [(page, frames st', "FAULT")] →
    demand_step frame_count st page st'
| demand_replace (idx : nat) (victim : Z) :
    page ∉ frames st →
    frame_count ≤ py_len (frames st) →
    frames st !! idx = Some victim →
    frames st' = <[idx:=page]> (frames st) →
    faults st' = faults st + 1 → hits st' = hits st →
    steps st' = steps st ++ [(page, frames st', "FAULT")] →
    demand_step frame_count st page st'.

Inductive demand_run {A : Type} (frame_count : Z) : sim A → list Z → sim A → Prop :=
| demand_done st : demand_run frame_count st [] st
| demand_next st page st1 pages st2 :
    demand_step frame_count st page st1 →
    demand_run frame_count st1 pages st2 →
    demand_run frame_count st (page :: pages) st2.

(** ** Orders used by the victim choices *)

(** The composite key order of LFU: frequency first, then timestamp. *)
Definition key_le (a b : Z * Z) : Prop := a.1 < b.1 ∨ (a.1 = b.1 ∧ a.2 ≤ b.2).

(** OPTIMAL: the distance of a page's next use, as the scan computes it. *)
Fixpoint distance (future : list Z) (f : Z) : num :=
  match future with
  | [] => Inf
  | y :: l =>
      if decide (y = f) then Int 0
      else match distance l f with
           | Int n => Int (n + 1)
           | Inf => Inf
           end
  end.

(** [first_use rest f n]: the first access to [f] in [rest] is at
    position [n]. *)
Definition first_use (rest : list Z) (f : Z) (n : nat) : Prop :=
  rest !! n = Some f ∧ f ∉ take n rest.

(** [measures rest f d]: [d] is how far away the next use of [f] in [rest]
    is: the position of its first access, or [Inf] when [rest] never
    accesses it. *)
Definition measures (rest : list Z) (f : Z) (d : num) : Prop :=
  match d with
  | Int n => 0 ≤ n ∧ first_use rest f (Z.to_nat n)
  | Inf => f ∉ rest
  end.

(** [not_nearer rest v f]: the next use of [v] in [rest] is not nearer
    than the next use of [f]; a page that [rest] never accesses is
    farther than every page it accesses. *)
Definition not_nearer (rest : list Z) (v f : Z) : Prop :=
  v ∉ rest ∨
  ∃ nv nf, first_use rest v nv ∧ first_use rest f nf ∧ (nf ≤ nv)%nat.

(** [nearer rest f v]: the next use of [f] in [rest] is strictly nearer
    than the next use of [v]. *)
Definition nearer (rest : list Z) (f v : Z) : Prop :=
  ∃ nf, first_use rest f nf ∧
        (v ∉ rest ∨ ∃ nv, first_use rest v nv ∧ (nf < nv)%nat).

(** ** Invariants of the dictionaries *)

(** LRU: every resident page has a recency. *)
Definition lru_inv (st : sim (gmap Z Z)) : Prop :=
  ∀ p, p ∈ frames st → is_Some (aux st !! p).

(** LFU: every resident page has a frequency and a timestamp. *)
Definition lfu_inv (st : sim (gmap Z Z * gmap Z Z)) : Prop :=
  ∀ p, p ∈ frames st → is_Some ((aux st).1 !! p) ∧ is_Some ((aux st).2 !! p).

(** ** Demand paging on resident sets

    [schedule k C w n]: starting with the resident set [C], some
    demand-paging policy with [k] frames serves the accesses [w] with
    [n] faults.  The victim of an eviction is any resident page. *)

Inductive schedule (k : nat) : gset Z → list Z → nat → Prop :=
| schedule_nil C : schedule k C [] 0
| schedule_hit C a w n :
    a ∈ C → schedule k C w n → schedule k C (a :: w) n
| schedule_load C a w n :
    a ∉ C → (size C < k)%nat → schedule k ({[a]} ∪ C) w n →
    schedule k C (a :: w) (S n)
| schedule_evict C a w z n :
    a ∉ C → (k ≤ size C)%nat → z ∈ C → schedule k ({[a]} ∪ C ∖ {[z]}) w n →
    schedule k C (a :: w) (S n).

(** [sooner x y w]: in [w], page [x] is used no later than page [y]
    (or neither is used at all). *)
Fixpoint sooner (x y : Z) (w : list Z) : Prop :=
  match w with
  | [] => True
  | a :: w' =>
      if decide (a = x) then True
      else if decide (a = y) then False
      else sooner x y w'
  end.

(** ** One access, with everything it writes

    The three things an access can be, and the variables it leaves: the
    frames, the two counters, the new Step Record and the new log line.
    [algo] is the name the log gives the policy, [why] the remark of its
    HIT lines, [a] the new value of the variables of the policy. *)

Inductive access_kind := Hit | Load | Replace (idx : nat) (victim : Z).

Definition access_ok {A : Type} (frame_count : Z) (st : sim A) (page : Z)
    (k : access_kind) : Prop :=
  match k with
  | Hit => page ∈ frames st
  | Load => (page ∉ frames st) ∧ py_len (frames st) < frame_count
  | Replace idx victim =>
      (page ∉ frames st) ∧ frame_count ≤ py_len (frames st) ∧
      frames st !! idx = Some victim
  end.

Definition apply_access {A : Type} (algo why : string) (st : sim A) (step page : Z)
    (k : access_kind) (a : A) : sim A :=
  match k with
  | Hit =>
      Sim (frames st) (faults st) (hits st + 1)
          (steps st ++ [(page, frames st, "HIT")])
          (log st ++ [log_hit step page why]) a
  | Load =>
      Sim (frames st ++ [page]) (faults st + 1) (hits st)
          (steps st ++ [(page, frames st ++ [page], "FAULT")])
          (log st ++ [log_load step page]) a
  | Replace idx victim =>
      Sim (<[idx:=page]> (frames st)) (faults st + 1) (hits st)
          (steps st ++ [(page, <[idx:=page]> (frames st), "FAULT")])
          (log st ++ [log_replace step page victim algo]) a
  end.

(** A trace that starts from the frames [prev]: a record is a HIT
    exactly when its page is in the snapshot before it, and then the
    snapshot stays; a FAULT appends the page while there is room and
    otherwise overwrites one slot. *)
Fixpoint trace_from (frame_count : Z) (prev : list Z) (tr : list step_record) : Prop :=
  match tr with
  | [] => True
  | (page, fr, status) :: tr' =>
      ((status = "HIT" ∧ page ∈ prev ∧ fr = prev) ∨
       (status = "FAULT" ∧ (page ∉ prev) ∧ py_len prev < frame_count ∧
        fr = prev ++ [page]) ∨
       (status = "FAULT" ∧ (page ∉ prev) ∧ frame_count ≤ py_len prev ∧
        ∃ (idx : nat) victim, prev !! idx = Some victim ∧ fr = <[idx:=page]> prev)) ∧
      trace_from frame_count fr tr'
  end.

(** A log that tells what the trace did: line by line the step number
    and the page of the record, HIT for a page that was resident, the
    load for an appended page, and as replaced page one that was
    resident before the access and is not after it. *)
Fixpoint log_agrees (algo why : string) (step : Z) (prev : list Z)
    (tr : list step_record) (lg : list string) : Prop :=
  match tr, lg with
  | [], [] => True
  | (page, fr, status) :: tr', line :: lg' =>
      ((page ∈ prev ∧ line = log_hit step page why) ∨
       ((page ∉ prev) ∧ fr = prev ++ [page] ∧ line = log_load step page) ∨
       ((page ∉ prev) ∧
        ∃ victim, victim ∈ prev ∧ (victim ∉ fr) ∧
                  line = log_replace step page victim algo)) ∧
      log_agrees algo why (step + 1) fr tr' lg'
  | _, _ => False
  end.

(** The number of records of a given status. *)
Definition count_status (status : string) (tr : list step_record) : Z :=
  Z.of_nat (length (filter (λ r : step_record, r.2 = status) tr)).

(** The simulators with the names their logs use. *)
Definition named_simulators : list (string * string * (list Z → Z → result outcome)) :=
  [("FIFO", "already in memory", fifo_page_replacement);
   ("LRU", "already in memory", lru_page_replacement);
   ("OPTIMAL", "already in memory", optimal_page_replacement);
   ("LFU", "frequency increased", lfu_page_replacement)].

(** The number of distinct pages of a reference string. *)
Definition distinct_pages (pages : list Z) : Z :=
  Z.of_nat (size (list_to_set pages : gset Z)).


(** The trace of a run in which no page is ever replaced: a page is a
    HIT when resident and is appended otherwise. *)
Fixpoint fill_trace (prev : list Z) (pages : list Z) : list step_record :=
  match pages with
  | [] => []
  | page :: pages' =>
      if decide (page ∈ prev) then (page, prev, "HIT") :: fill_trace prev pages'
      else (page, prev ++ [page], "FAULT") :: fill_trace (prev ++ [page]) pages'
  end.


(** ** FIFO as a queue *)

(** The frames of FIFO read cyclically, starting at the cursor. *)
Definition fifo_queue (st : sim Z) : list Z :=
  drop (Z.to_nat (aux st)) (frames st) ++ take (Z.to_nat (aux st)) (frames st).

(** The pages of the FAULT records of a trace, in the order of the trace. *)
Definition fault_pages (tr : list step_record) : list Z :=
  (λ r : step_record, r.1.1) <$> filter (λ r : step_record, r.2 = "FAULT") tr.

(** The last [n] elements of a list (all of it when it is shorter). *)
Definition last_n {X : Type} (n : nat) (l : list X) : list X := drop (length l - n) l.

(** What the loop of FIFO keeps: the cursor is inside the frames and at
    0 while they fill, and the queue holds the most recent
    [frame_count] faulting pages, oldest first. *)
Definition fifo_inv (frame_count : Z) (st : sim Z) : Prop :=
  frames_ok frame_count (frames st) ∧
  0 ≤ aux st < frame_count ∧
  (py_len (frames st) < frame_count → aux st = 0) ∧
  fifo_queue st = last_n (Z.to_nat frame_count) (fault_pages (steps st)).


(** ** What the dictionaries of LRU and LFU mean *)

(** The index of the last access to [p] among the accesses [done],
    which are numbered from [start]. *)
Fixpoint last_access (start : Z) (done : list Z) (p : Z) : option Z :=
  match done with
  | [] => None
  | q :: rest =>
      match last_access (start + 1) rest p with
      | Some i => Some i
      | None => if decide (q = p) then Some start else None
      end
  end.

(** The number of accesses to [p] since its last FAULT, that one
    included, in a trace read from the left; [acc] is the number so far. *)
Fixpoint since_load_from (acc : Z) (tr : list step_record) (p : Z) : Z :=
  match tr with
  | [] => acc
  | (q, _, status) :: tr' =>
      since_load_from
        (if decide (q = p) then (if decide (status = "FAULT") then 1 else acc + 1)
         else acc)
        tr' p
  end.

Definition since_load (tr : list step_record) (p : Z) : Z := since_load_from 0 tr p.

(** After the accesses [done]: LRU's [recent] holds the last access of
    every page. *)
Definition lru_sem (frame_count : Z) (done : list Z) (st : sim (gmap Z Z)) : Prop :=
  frames_ok frame_count (frames st) ∧
  ∀ p, aux st !! p = last_access 0 done p.

(** After the accesses [done]: LFU's [freq] and [time] have entries for
    the resident pages and no others; [freq] counts the accesses since
    the page was loaded and [time] holds its last access. *)
Definition lfu_sem (frame_count : Z) (done : list Z)
    (st : sim (gmap Z Z * gmap Z Z)) : Prop :=
  frames_ok frame_count (frames st) ∧
  dom (aux st).1 = list_to_set (frames st) ∧
  dom (aux st).2 = list_to_set (frames st) ∧
  ∀ p, p ∈ frames st →
       (aux st).1 !! p = Some (since_load (steps st) p) ∧
       (aux st).2 !! p = last_access 0 done p.


(** ** The two programs side by side *)

(** Two sets of variables that differ at most in the log, which the
    earlier program does not keep. *)
Definition same_but_log {A : Type} (st1 st2 : sim A) : Prop :=
  frames st1 = frames st2 ∧ faults st1 = faults st2 ∧ hits st1 = hits st2 ∧
  steps st1 = steps st2 ∧ aux st1 = aux st2.

(** Two results that raise the same exception or return such variables. *)
Definition agree {A : Type} (r1 r2 : result (sim A)) : Prop :=
  match r1, r2 with
  | Ok st1, Ok st2 => same_but_log st1 st2
  | Raise e1, Raise e2 => e1 = e2
  | _, _ => False
  end.


(** ** Variables of example runs *)

(** The variables of OPTIMAL on [1 2 3 4 2 1 3] with three frames, after
    the first three accesses. *)
Definition optimal_example_state : sim () :=
  Sim [1; 2; 3] 3 0
    [(1, [1], "FAULT"); (2, [1; 2], "FAULT"); (3, [1; 2; 3], "FAULT")]
    ["Step 1: Page 1 -> FAULT (loaded into empty frame)";
     "Step 2: Page 2 -> FAULT (loaded into empty frame)";
     "Step 3: Page 3 -> FAULT (loaded into empty frame)"] ().

(** The variables of LFU on [1 2 2 3 1 4] with two frames, after the
    first three accesses. *)
Definition lfu_example_state : sim (gmap Z Z * gmap Z Z) :=
  Sim [1; 2] 2 1
    [(1, [1], "FAULT"); (2, [1; 2], "FAULT"); (2, [1; 2], "HIT")]
    ["Step 1: Page 1 -> FAULT (loaded into empty frame)";
     "Step 2: Page 2 -> FAULT (loaded into empty frame)";
     "Step 3: Page 2 -> HIT (frequency increased)"]
    (<[2:=2]> (<[1:=1]> ∅), <[2:=2]> (<[1:=0]> ∅)).

(** The variables of LRU on [1 2] with one frame, after the first access. *)
Definition lru_example_state : sim (gmap Z Z) :=
  Sim [1] 1 0 [(1, [1], "FAULT")]
    ["Step 1: Page 1 -> FAULT (loaded into empty frame)"] (<[1:=0]> ∅).

(** The variables of LRU on [1 2 1 3] with two frames, after the first
    three accesses. *)
Definition lru_two_frames_state : sim (gmap Z Z) :=
  Sim [1; 2] 2 1
    [(1, [1], "FAULT"); (2, [1; 2], "FAULT"); (1, [1; 2], "HIT")]
    ["Step 1: Page 1 -> FAULT (loaded into empty frame)";
     "Step 2: Page 2 -> FAULT (loaded into empty frame)";
     "Step 3: Page 1 -> HIT (already in memory)"]
    (<[1:=2]> (<[2:=1]> (<[1:=0]> ∅))).


(** The variables of FIFO on [7 0 1 2 0 3 0 4] with three frames, after
    the first three accesses. *)
Definition fifo_example_state : sim Z :=
  Sim [7; 0; 1] 3 0
    [(7, [7], "FAULT"); (0, [7; 0], "FAULT"); (1, [7; 0; 1], "FAULT")]
    ["Step 1: Page 7 -> FAULT (loaded into empty frame)";
     "Step 2: Page 0 -> FAULT (loaded into empty frame)";
     "Step 3: Page 1 -> FAULT (loaded into empty frame)"] 0.

(** * Properties *)

(** ** The input gate *)

Lemma parse_input_valid fi pi pages frame_count :
  parse_input fi pi = Some (pages, frame_count) ↔
  fi = Some frame_count ∧ pi = Some pages ∧ valid_input pages frame_count.
Proof.
  unfold parse_input, valid_input, py_len.
  destruct fi as [fc|]; [|naive_solver].
  destruct (decide (fc ≤ 0)); [naive_solver lia|].
  destruct pi as [ps|]; [|naive_solver].
  destruct (decide (Z.of_nat (length ps) = 0)) as [E|E].
  - split; [done|]. intros (? & ? & Hne & _). simplify_eq.
    destruct pages; [done|simpl in E; lia].
  - split.
    + intros ?; simplify_eq. split_and!; [done|done| |lia].
      intros ->. simpl in E. lia.
    + intros (? & ? & _); by simplify_eq.
Qed.

(** ** The primitives *)

Lemma bind_ok {A B : Type} (r : result A) (k : A → result B) (b : B) :
  bind r k = Ok b ↔ ∃ a, r = Ok a ∧ k a = Ok b.
Proof. destruct r; simpl; naive_solver. Qed.

Lemma py_len_nonneg l : 0 ≤ py_len l.
Proof. unfold py_len. lia. Qed.

Lemma py_len_app l x : py_len (l ++ [x]) = py_len l + 1.
Proof. unfold py_len. rewrite length_app. simpl. lia. Qed.

Lemma py_index_elem (l : list Z) (x : Z) :
  x ∈ l →
  ∃ n : nat, py_index l x = Ok (Z.of_nat n) ∧ l !! n = Some x ∧
             ∀ j y, (j < n)%nat → l !! j = Some y → y ≠ x.
Proof.
  induction l as [|y l IH]; intros Hin; [by apply elem_of_nil in Hin|].
  simpl. destruct (decide (y = x)) as [->|Hne].
  - exists 0%nat. split_and!; [done|done|]. intros; lia.
  - apply elem_of_cons in Hin as [->|Hin]; [done|].
    destruct (IH Hin) as (n & -> & Hn & Hfirst). exists (S n). simpl.
    split; [f_equal; lia|]. split; [done|].
    intros [|j] z Hj Hz; simpl in Hz; [naive_solver|].
    apply (Hfirst j); [lia|done].
Qed.

Lemma py_index_first (l1 l2 : list Z) (x : Z) :
  x ∉ l1 → py_index (l1 ++ x :: l2) x = Ok (Z.of_nat (length l1)).
Proof.
  induction l1 as [|y l1 IH]; intros Hnin; simpl.
  - by rewrite decide_True.
  - apply not_elem_of_cons in Hnin as [Hne Hnin].
    rewrite decide_False by done. rewrite IH by done. simpl. f_equal. lia.
Qed.

Lemma py_norm_index_nat (l : list Z) (n : nat) :
  (n < length l)%nat → py_norm_index l (Z.of_nat n) = Ok n.
Proof.
  intros Hn. unfold py_norm_index, py_len.
  rewrite decide_True by lia. by rewrite Nat2Z.id.
Qed.

Lemma py_setitem_nat (l : list Z) (n : nat) (v : Z) :
  (n < length l)%nat → py_setitem l (Z.of_nat n) v = Ok (<[n:=v]> l).
Proof. intros Hn. unfold py_setitem. by rewrite py_norm_index_nat. Qed.

Lemma py_getitem_nat (l : list Z) (n : nat) (x : Z) :
  l !! n = Some x → py_getitem l (Z.of_nat n) = Ok x.
Proof.
  intros Hx. unfold py_getitem.
  rewrite py_norm_index_nat by by eapply lookup_lt_Some. simpl. by rewrite Hx.
Qed.

Lemma enumerate_pages start l : (enumerate start l).*2 = l.
Proof. revert start. induction l; intros; simpl; [done|]. by rewrite IHl. Qed.

Lemma for_each_app {S X : Type} (body : S → X → result S) xs ys st :
  for_each body (xs ++ ys) st = (st' <- for_each body xs st ;; for_each body ys st').
Proof.
  revert st. induction xs as [|x xs IH]; intros st; simpl; [done|].
  destruct (body st x); simpl; [apply IH|done].
Qed.

(** A loop over [enumerate(pages)] reaches the access at position
    [len(done)] with the variables left by the accesses before it. *)
Lemma enumerate_app (start : Z) (l1 l2 : list Z) :
  enumerate start (l1 ++ l2) = enumerate start l1 ++ enumerate (start + py_len l1) l2.
Proof.
  revert start. induction l1 as [|x l1 IH]; intros start; simpl.
  - unfold py_len. simpl. by rewrite Z.add_0_r.
  - rewrite IH. unfold py_len. simpl length. do 3 f_equal. lia.
Qed.

Lemma for_each_enumerate_split {S : Type} (body : S → Z * Z → result S)
    (done rest : list Z) (page : Z) (st0 : S) :
  for_each body (enumerate 0 (done ++ page :: rest)) st0 =
  (st <- for_each body (enumerate 0 done) st0 ;;
   st' <- body st (py_len done, page) ;;
   for_each body (enumerate (py_len done + 1) rest) st').
Proof. by rewrite enumerate_app, for_each_app. Qed.

(** Replacing one slot of a duplicate-free list by a fresh page. *)
Lemma insert_split (l : list Z) (n : nat) (x v : Z) :
  l !! n = Some x →
  ∃ l1 l2, l = l1 ++ x :: l2 ∧ <[n:=v]> l = l1 ++ v :: l2 ∧ n = length l1.
Proof.
  intros Hx. destruct (list_elem_of_split_length l n x Hx) as (l1 & l2 & -> & ->).
  exists l1, l2. split_and!; [done| |done].
  rewrite insert_app_r_alt by lia. by rewrite Nat.sub_diag.
Qed.

Lemma NoDup_replace (l : list Z) (n : nat) (x v : Z) :
  NoDup l → l !! n = Some x → v ∉ l → NoDup (<[n:=v]> l).
Proof.
  intros Hnd Hx Hv. destruct (insert_split l n x v Hx) as (l1 & l2 & -> & -> & _).
  revert Hnd Hv. rewrite !NoDup_app, !NoDup_cons. set_solver.
Qed.

Lemma list_to_set_replace (l : list Z) (n : nat) (x v : Z) :
  NoDup l → l !! n = Some x →
  list_to_set (<[n:=v]> l) =@{gset Z} {[v]} ∪ list_to_set l ∖ {[x]}.
Proof.
  intros Hnd Hx. destruct (insert_split l n x v Hx) as (l1 & l2 & -> & -> & _).
  revert Hnd.
  rewrite NoDup_app, NoDup_cons, !list_to_set_app_L, !list_to_set_cons.
  intros (_ & H1 & H2 & _). apply set_eq. intros y.
  specialize (H1 x).
  destruct (decide (y = x)) as [->|]; set_solver.
Qed.

(** ** Demand-paging steps keep the frames in shape *)

Section demand.
Context {A : Type} (frame_count : Z).
Implicit Types (st : sim A) (page victim : Z) (idx : nat).

Lemma demand_step_frames_ok st page st' :
  demand_step frame_count st page st' → frames_ok frame_count (frames st) →
  frames_ok frame_count (frames st').
Proof.
  intros Hstep [Hnd Hlen]. destruct Hstep as [? E|? ? E|idx victim ? ? Hv E].
  - by rewrite E.
  - rewrite E. split; [|rewrite py_len_app; lia].
    apply NoDup_app. split_and!; [done|set_solver|apply NoDup_singleton].
  - rewrite E. split; [by eapply NoDup_replace|].
    unfold py_len in *. by rewrite length_insert.
Qed.

Lemma demand_run_frames_ok st pages st' :
  demand_run frame_count st pages st' → frames_ok frame_count (frames st) →
  frames_ok frame_count (frames st').
Proof. induction 1; eauto using demand_step_frames_ok. Qed.

(** Hits and faults together count the accesses. *)
Lemma demand_run_count st pages st' :
  demand_run frame_count st pages st' →
  hits st' + faults st' = hits st + faults st + py_len pages.
Proof.
  induction 1 as [|st page st1 pages st2 Hstep _ IH]; [unfold py_len; simpl; lia|].
  rewrite IH. unfold py_len. simpl length.
  destruct Hstep; lia.
Qed.

Lemma demand_run_faults_mono st pages st' :
  demand_run frame_count st pages st' → faults st ≤ faults st'.
Proof.
  induction 1 as [|st page st1 pages st2 Hstep _ IH]; [done|].
  destruct Hstep; lia.
Qed.

(** One Step Record per access, in input order, each with a snapshot
    that fits the frames. *)
Lemma demand_run_steps st pages st' :
  demand_run frame_count st pages st' → frames_ok frame_count (frames st) →
  ∃ new, steps st' = steps st ++ new ∧ new.*1.*1 = pages ∧
         Forall (λ r : step_record, frames_ok frame_count r.1.2) new.
Proof.
  induction 1 as [|st page st1 pages st2 Hstep _ IH]; intros Hok.
  - exists []. by rewrite app_nil_r.
  - pose proof (demand_step_frames_ok _ _ _ Hstep Hok) as Hok1.
    destruct (IH Hok1) as (new & -> & <- & Hall).
    assert (∃ status, steps st1 = steps st ++ [(page, frames st1, status)])
      as [status ->] by (destruct Hstep; eauto).
    exists ((page, frames st1, status) :: new).
    rewrite <- app_assoc. split_and!; [done|done|]. by constructor.
Qed.
End demand.

(** A loop whose body always makes a demand-paging step (possibly under
    an invariant of its own variables) runs to the end without raising. *)
Section demand_loop.
Context {A : Type} (frame_count : Z).
Context (body : sim A → Z * Z → result (sim A)) (inv : sim A → Prop).
Hypothesis body_step : ∀ st it,
  frames_ok frame_count (frames st) → inv st →
  ∃ st', body st it = Ok st' ∧ demand_step frame_count st it.2 st' ∧ inv st'.

Lemma demand_loop_run (its : list (Z * Z)) (st : sim A) :
  frames_ok frame_count (frames st) → inv st →
  ∃ st', for_each body its st = Ok st' ∧
         demand_run frame_count st its.*2 st' ∧ inv st'.
Proof.
  revert st. induction its as [|it its IH]; intros st Hok Hinv.
  - exists st. split_and!; [done|constructor|done].
  - destruct (body_step st it Hok Hinv) as (st1 & E1 & Hstep & Hinv1).
    destruct (IH st1) as (st2 & E2 & Hrun & Hinv2);
      [by eapply demand_step_frames_ok|done|].
    exists st2. simpl. rewrite E1. simpl.
    split_and!; [done|by econstructor|done].
Qed.
End demand_loop.

Lemma frames_ok_init (frame_count : Z) : 0 < frame_count → frames_ok frame_count [].
Proof. intros. split; [constructor|unfold py_len; simpl; lia]. Qed.

(** ** [min] with a key *)

Section py_min_spec.
Context {X K : Type} (ltb : K → K → bool) (key : X → result K) (k : X → K).
Hypothesis ltb_irrefl : ∀ a, ltb a a = false.
Hypothesis ltb_trans : ∀ a b c, ltb a b = true → ltb b c = true → ltb a c = true.
Hypothesis ltb_negtrans :
  ∀ a b c, ltb a b = false → ltb b c = false → ltb a c = false.

Lemma py_min_from_spec (l : list X) (best : X) :
  (∀ x, x ∈ best :: l → key x = Ok (k x)) →
  ∃ v, py_min_from ltb key best (k best) l = Ok v ∧ v ∈ best :: l ∧
       ∀ x, x ∈ best :: l → ltb (k x) (k v) = false.
Proof.
  revert best. induction l as [|y l IH]; intros best Hkey.
  - exists best. simpl. split_and!; [done|by left|].
    intros x ->%list_elem_of_singleton. apply ltb_irrefl.
  - simpl. rewrite (Hkey y) by (right; by left). simpl.
    destruct (ltb (k y) (k best)) eqn:Hlt.
    + destruct (IH y) as (v & -> & Hv & Hmin).
      { intros x Hx. apply Hkey. right. done. }
      exists v. split_and!; [done|by right|].
      intros x [->|Hx]%elem_of_cons; [|by apply Hmin].
      destruct (ltb (k best) (k v)) eqn:Hxv; [|done].
      rewrite <- (Hmin y) by by left. symmetry. eauto.
    + destruct (IH best) as (v & -> & Hv & Hmin).
      { intros x Hx. apply Hkey. apply elem_of_cons in Hx as [->|Hx];
          [by left|right; by right]. }
      exists v. split_and!; [done| |].
      { apply elem_of_cons in Hv as [->|Hv]; [by left|right; by right]. }
      intros x [->|[->|Hx]%elem_of_cons]%elem_of_cons.
      * apply Hmin. by left.
      * apply ltb_negtrans with (k best); [done|]. apply Hmin. by left.
      * apply Hmin. by right.
Qed.

Lemma py_min_spec (l : list X) :
  l ≠ [] → (∀ x, x ∈ l → key x = Ok (k x)) →
  ∃ v, py_min ltb key l = Ok v ∧ v ∈ l ∧ ∀ x, x ∈ l → ltb (k x) (k v) = false.
Proof.
  destruct l as [|y l]; [done|]. intros _ Hkey. simpl.
  rewrite (Hkey y) by by left. simpl. by apply py_min_from_spec.
Qed.
End py_min_spec.

Lemma Z_ltb_irrefl (a : Z) : (a <? a) = false.
Proof. lia. Qed.
Lemma Z_ltb_trans (a b c : Z) : (a <? b) = true → (b <? c) = true → (a <? c) = true.
Proof. lia. Qed.
Lemma Z_ltb_negtrans (a b c : Z) : (a <? b) = false → (b <? c) = false → (a <? c) = false.
Proof. lia. Qed.

Lemma pair_ltb_lt (a b : Z * Z) :
  pair_ltb a b = true ↔ a.1 < b.1 ∨ (a.1 = b.1 ∧ a.2 < b.2).
Proof.
  unfold pair_ltb. destruct (decide (a.1 = b.1)).
  - rewrite bool_decide_eq_true. lia.
  - rewrite bool_decide_eq_true. lia.
Qed.

Lemma pair_ltb_false (a b : Z * Z) : pair_ltb a b = false ↔ key_le b a.
Proof.
  unfold key_le. rewrite <- not_true_iff_false, pair_ltb_lt. lia.
Qed.

Lemma pair_ltb_irrefl (a : Z * Z) : pair_ltb a a = false.
Proof. apply pair_ltb_false. unfold key_le. lia. Qed.
Lemma pair_ltb_trans (a b c : Z * Z) :
  pair_ltb a b = true → pair_ltb b c = true → pair_ltb a c = true.
Proof. rewrite !pair_ltb_lt. lia. Qed.
Lemma pair_ltb_negtrans (a b c : Z * Z) :
  pair_ltb a b = false → pair_ltb b c = false → pair_ltb a c = false.
Proof. rewrite !pair_ltb_false. unfold key_le. lia. Qed.

(** ** The four loop bodies make demand-paging steps *)

Lemma full_frames frame_count (fr : list Z) :
  0 < frame_count → frames_ok frame_count fr → ¬ py_len fr < frame_count →
  py_len fr = frame_count ∧ fr ≠ [].
Proof.
  intros Hpos [_ Hle] Hfull. split; [lia|]. intros ->. unfold py_len in *. simpl in *. lia.
Qed.

(** FIFO: the cursor stays inside the frames. *)
Lemma fifo_body_step (frame_count : Z) (st : sim Z) (it : Z * Z) :
  0 < frame_count →
  frames_ok frame_count (frames st) → 0 ≤ aux st < frame_count →
  ∃ st', fifo_body frame_count st it = Ok st' ∧
         demand_step frame_count st it.2 st' ∧ 0 ≤ aux st' < frame_count.
Proof.
  intros Hpos Hok Hqi. destruct it as [step page]. unfold fifo_body.
  destruct (decide (page ∈ frames st)) as [Hin|Hnin].
  { eexists. split; [done|]. split; [by apply demand_hit|done]. }
  simpl. destruct (decide (py_len (frames st) < frame_count)) as [Hroom|Hfull].
  { eexists. split; [done|]. split; [by apply demand_load|done]. }
  destruct (full_frames _ _ Hpos Hok Hfull) as [Hlen _].
  destruct (lookup_lt_is_Some_2 (frames st) (Z.to_nat (aux st))) as [victim Hv].
  { unfold py_len in Hlen. lia. }
  assert (aux st = Z.of_nat (Z.to_nat (aux st))) as -> by lia.
  rewrite (py_getitem_nat _ _ _ Hv). simpl.
  rewrite py_setitem_nat by by eapply lookup_lt_Some. simpl.
  unfold py_mod. rewrite decide_False by lia. simpl.
  eexists. split; [done|]. split; [|simpl; by apply Z.mod_pos_bound].
  eapply demand_replace; simpl; [done|lia|exact Hv|done..].
Qed.

(** LRU: [min] over non-empty frames with [recent.get] never raises. *)
Lemma lru_victim (recent : gmap Z Z) (fr : list Z) :
  fr ≠ [] →
  ∃ lru_page, py_min Z.ltb (λ p, Ok (dict_get recent p (-1))) fr = Ok lru_page ∧
              lru_page ∈ fr ∧
              ∀ p, p ∈ fr → dict_get recent lru_page (-1) ≤ dict_get recent p (-1).
Proof.
  intros Hne.
  destruct (py_min_spec Z.ltb (λ p, Ok (dict_get recent p (-1)))
              (λ p, dict_get recent p (-1)) Z_ltb_irrefl Z_ltb_trans Z_ltb_negtrans
              fr Hne) as (v & E & Hv & Hmin); [done|].
  exists v. split_and!; [done|done|]. intros p Hp. specialize (Hmin p Hp). lia.
Qed.

Lemma lru_body_evict (frame_count : Z) (st : sim (gmap Z Z)) (i page : Z) :
  page ∉ frames st → ¬ py_len (frames st) < frame_count → frames st ≠ [] →
  ∃ (idx : nat) lru_page,
    frames st !! idx = Some lru_page ∧
    (∀ p, p ∈ frames st →
          dict_get (aux st) lru_page (-1) ≤ dict_get (aux st) p (-1)) ∧
    lru_body frame_count st (i, page) =
      Ok (record_step page "FAULT"
            (set_aux (<[page:=i]> (aux st))
               (add_log (log_replace (i + 1) page lru_page "LRU")
                  (set_frames (<[idx:=page]> (frames st)) (count_fault st))))).
Proof.
  intros Hnin Hfull Hne. unfold lru_body.
  rewrite decide_False by done. simpl. rewrite decide_False by done.
  destruct (lru_victim (aux st) (frames st) Hne) as (v & -> & Hv & Hmin). simpl.
  destruct (py_index_elem _ _ Hv) as (idx & -> & Hidx & _). simpl.
  rewrite py_setitem_nat by by eapply lookup_lt_Some. simpl.
  by exists idx, v.
Qed.

Lemma lru_body_step (frame_count : Z) (st : sim (gmap Z Z)) (it : Z * Z) :
  0 < frame_count → frames_ok frame_count (frames st) → True →
  ∃ st', lru_body frame_count st it = Ok st' ∧
         demand_step frame_count st it.2 st' ∧ True.
Proof.
  intros Hpos Hok _. destruct it as [i page].
  destruct (decide (page ∈ frames st)) as [Hin|Hnin].
  { unfold lru_body. rewrite decide_True by done.
    eexists. split; [done|]. split; [by apply demand_hit|done]. }
  destruct (decide (py_len (frames st) < frame_count)) as [Hroom|Hfull].
  { unfold lru_body. rewrite decide_False by done. simpl. rewrite decide_True by done.
    eexists. split; [done|]. split; [by apply demand_load|done]. }
  destruct (full_frames _ _ Hpos Hok Hfull) as [Hlen Hne].
  destruct (lru_body_evict frame_count st i page Hnin Hfull Hne)
    as (idx & v & Hidx & _ & ->).
  eexists. split; [done|]. split; [|done].
  eapply demand_replace; simpl; [done|lia|exact Hidx|done..].
Qed.

Lemma distance_Inf (future : list Z) (f : Z) : distance future f = Inf ↔ f ∉ future.
Proof.
  induction future as [|y l IH]; simpl.
  - split; [intros _; apply not_elem_of_nil|done].
  - rewrite not_elem_of_cons. destruct (decide (y = f)) as [->|Hne].
    + naive_solver.
    + destruct (distance l f); naive_solver.
Qed.

Lemma distance_Int (future : list Z) (f n : Z) :
  distance future f = Int n →
  0 ≤ n ∧ future !! Z.to_nat n = Some f ∧ f ∉ take (Z.to_nat n) future.
Proof.
  revert n. induction future as [|y l IH]; intros n; simpl; [done|].
  destruct (decide (y = f)) as [->|Hne].
  - intros [= <-]. simpl. split_and!; [done|done|apply not_elem_of_nil].
  - destruct (distance l f) as [m|]; [|done]. intros [= <-].
    destruct (IH m eq_refl) as (Hm & Hat & Hbefore).
    replace (Z.to_nat (m + 1)) with (S (Z.to_nat m)) by lia. simpl.
    split_and!; [lia|done|]. rewrite not_elem_of_cons. naive_solver.
Qed.

Lemma next_use_distance (future : list Z) (f : Z) :
  next_use future f = Ok (distance future f).
Proof.
  unfold next_use. destruct (decide (f ∈ future)) as [Hin|Hnin].
  - assert (∀ l, f ∈ l → ∃ n, py_index l f = Ok n ∧ distance l f = Int n) as Hidx.
    { clear. induction l as [|y l IH]; intros Hin; [by apply elem_of_nil in Hin|].
      simpl. destruct (decide (y = f)) as [->|Hne]; [by exists 0|].
      apply elem_of_cons in Hin as [->|Hin]; [done|].
      destruct (IH Hin) as (n & -> & ->). by exists (n + 1). }
    destruct (Hidx future Hin) as (n & -> & ->). done.
  - apply distance_Inf in Hnin. by rewrite Hnin.
Qed.

Lemma distance_measures (rest : list Z) (f : Z) : measures rest f (distance rest f).
Proof.
  unfold measures, first_use. destruct (distance rest f) as [n|] eqn:E.
  - by apply distance_Int in E.
  - by apply distance_Inf in E.
Qed.

Lemma not_nearer_of_distance (rest : list Z) (v f : Z) :
  num_gtb (distance rest f) (distance rest v) = false → not_nearer rest v f.
Proof.
  intros Hle. pose proof (distance_measures rest v) as Hv.
  pose proof (distance_measures rest f) as Hf. unfold not_nearer.
  destruct (distance rest v) as [nv|]; [|by left].
  destruct (distance rest f) as [nf|]; [|done].
  simpl in Hle, Hv, Hf. apply bool_decide_eq_false in Hle.
  destruct Hv as [Hnv Hv], Hf as [Hnf Hf].
  right. exists (Z.to_nat nv), (Z.to_nat nf). split_and!; [done|done|lia].
Qed.

Lemma nearer_of_distance (rest : list Z) (f v : Z) :
  num_gtb (distance rest v) (distance rest f) = true → nearer rest f v.
Proof.
  intros Hlt. pose proof (distance_measures rest v) as Hv.
  pose proof (distance_measures rest f) as Hf. unfold nearer.
  destruct (distance rest f) as [nf|]; [|by destruct (distance rest v)].
  simpl in Hf. destruct Hf as [Hnf Hf]. exists (Z.to_nat nf). split; [done|].
  destruct (distance rest v) as [nv|]; [|by left].
  simpl in Hlt, Hv. apply bool_decide_eq_true in Hlt. destruct Hv as [Hnv Hv].
  right. exists (Z.to_nat nv). split; [done|lia].
Qed.

Lemma num_gtb_irrefl (a : num) : num_gtb a a = false.
Proof. destruct a; simpl; [|done]. apply bool_decide_eq_false. lia. Qed.

Lemma num_gtb_trans (a b c : num) :
  num_gtb a b = true → num_gtb b c = true → num_gtb a c = true.
Proof.
  destruct a, b, c; simpl; try done.
  rewrite !bool_decide_eq_true. lia.
Qed.

Lemma num_gtb_above (a b n : num) :
  num_gtb a n = true → num_gtb b n = false → num_gtb a b = true.
Proof.
  destruct a, b, n; simpl; try done.
  rewrite !bool_decide_eq_true, bool_decide_eq_false. lia.
Qed.

Lemma distance_above_start (future : list Z) (f : Z) :
  num_gtb (distance future f) (Int (-1)) = true.
Proof.
  destruct (distance future f) as [n|] eqn:E; simpl; [|done].
  apply distance_Int in E as [? _]. apply bool_decide_eq_true. lia.
Qed.

(** The inner loop keeps the first page of greatest distance. *)
Lemma optimal_scan_spec (future l : list Z) (nu : num) (rp : option Z) :
  ∃ nu' rp',
    for_each (optimal_scan future) l (nu, rp) = Ok (nu', rp') ∧
    ((nu' = nu ∧ rp' = rp ∧ ∀ f, f ∈ l → num_gtb (distance future f) nu = false) ∨
     (∃ l1 v l2,
        l = l1 ++ v :: l2 ∧ rp' = Some v ∧ nu' = distance future v ∧
        num_gtb (distance future v) nu = true ∧
        (∀ f, f ∈ l1 → num_gtb (distance future v) (distance future f) = true) ∧
        (∀ f, f ∈ l2 → num_gtb (distance future f) (distance future v) = false))).
Proof.
  revert nu rp. induction l as [|f l IH]; intros nu rp.
  - exists nu, rp. split; [done|]. left. split_and!; [done|done|].
    intros f Hf. by apply elem_of_nil in Hf.
  - simpl. rewrite next_use_distance. simpl.
    destruct (num_gtb (distance future f) nu) eqn:Hgt; simpl.
    + destruct (IH (distance future f) (Some f)) as (nu' & rp' & -> & Hcase).
      exists nu', rp'. split; [done|]. right.
      destruct Hcase as [(-> & -> & Hrest)|(l1 & v & l2 & -> & -> & -> & Hv & H1 & H2)].
      * exists [], f, l. split_and!; [done|done|done|done| |done].
        intros x Hx. by apply elem_of_nil in Hx.
      * exists (f :: l1), v, l2. split_and!; [done|done|done| | |done].
        { by eapply num_gtb_trans. }
        intros x [->|Hx]%elem_of_cons; [done|by apply H1].
    + destruct (IH nu rp) as (nu' & rp' & -> & Hcase).
      exists nu', rp'. split; [done|].
      destruct Hcase as [(-> & -> & Hrest)|(l1 & v & l2 & -> & -> & -> & Hv & H1 & H2)].
      * left. split_and!; [done|done|].
        intros x [->|Hx]%elem_of_cons; [done|by apply Hrest].
      * right. exists (f :: l1), v, l2. split_and!; [done|done|done|done| |done].
        intros x [->|Hx]%elem_of_cons; [by eapply num_gtb_above|by apply H1].
Qed.

(** The choice of OPTIMAL among non-empty frames: position and page. *)
Lemma optimal_choice (future fr : list Z) :
  fr ≠ [] →
  ∃ (idx : nat) victim farthest_index,
    for_each (optimal_scan future) fr (Int (-1), None) = Ok (farthest_index, Some victim) ∧
    index_of_choice fr (Some victim) = Ok (Z.of_nat idx, victim) ∧
    fr !! idx = Some victim ∧
    ∀ (j : nat) f, fr !! j = Some f →
      num_gtb (distance future f) (distance future victim) = false ∧
      ((j < idx)%nat → num_gtb (distance future victim) (distance future f) = true).
Proof.
  intros Hne.
  destruct (optimal_scan_spec future fr (Int (-1)) None) as (nu' & rp' & E & Hcase).
  destruct Hcase as [(_ & _ & Hnone)|(l1 & v & l2 & -> & -> & -> & _ & H1 & H2)].
  { destruct fr as [|f fr]; [done|].
    specialize (Hnone f (list_elem_of_here _ _)).
    by rewrite distance_above_start in Hnone. }
  assert (v ∉ l1) as Hfresh.
  { intros Hin. specialize (H1 v Hin). by rewrite num_gtb_irrefl in H1. }
  exists (length l1), v, (distance future v). split_and!; [done| | |].
  - simpl. by rewrite py_index_first.
  - by rewrite list_lookup_middle.
  - intros j f Hj. split.
    + apply lookup_app_Some in Hj as [Hj|[_ Hj]].
      * apply list_elem_of_lookup_2 in Hj. specialize (H1 f Hj).
        destruct (distance future f), (distance future v); simpl in *; try done.
        apply bool_decide_eq_true in H1. apply bool_decide_eq_false. lia.
      * destruct (j - length l1)%nat eqn:Ej; simpl in Hj.
        { injection Hj as <-. apply num_gtb_irrefl. }
        apply list_elem_of_lookup_2 in Hj. by apply H2.
    + intros Hlt. rewrite lookup_app_l in Hj by done.
      apply list_elem_of_lookup_2 in Hj. by apply H1.
Qed.

Lemma py_slice_from_rest (done rest : list Z) (page : Z) :
  py_slice_from (done ++ page :: rest) (py_len done + 1) = rest.
Proof.
  unfold py_slice_from, py_len. rewrite decide_True by lia.
  replace (Z.to_nat (Z.of_nat (length done) + 1)) with (length done + 1)%nat by lia.
  rewrite drop_app_add'; done.
Qed.

Lemma optimal_body_evict (pages : list Z) (frame_count : Z) (st : sim ()) (i page : Z) :
  page ∉ frames st → ¬ py_len (frames st) < frame_count → frames st ≠ [] →
  ∃ (idx : nat) victim,
    frames st !! idx = Some victim ∧
    (∀ (j : nat) f, frames st !! j = Some f →
       num_gtb (distance (py_slice_from pages (i + 1)) f)
               (distance (py_slice_from pages (i + 1)) victim) = false ∧
       ((j < idx)%nat →
        num_gtb (distance (py_slice_from pages (i + 1)) victim)
                (distance (py_slice_from pages (i + 1)) f) = true)) ∧
    optimal_body pages frame_count st (i, page) =
      Ok (record_step page "FAULT"
            (add_log (log_replace (i + 1) page victim "OPTIMAL")
               (set_frames (<[idx:=page]> (frames st)) (count_fault st)))).
Proof.
  intros Hnin Hfull Hne. unfold optimal_body.
  rewrite decide_False by done. simpl. rewrite decide_False by done.
  destruct (optimal_choice (py_slice_from pages (i + 1)) (frames st) Hne)
    as (idx & victim & far & -> & Hchoice & Hidx & Hfar).
  cbn [bind]. rewrite Hchoice. cbn [bind].
  rewrite py_setitem_nat by by eapply lookup_lt_Some. simpl.
  by exists idx, victim.
Qed.

Lemma optimal_body_step (pages : list Z) (frame_count : Z) (st : sim ()) (it : Z * Z) :
  0 < frame_count → frames_ok frame_count (frames st) → True →
  ∃ st', optimal_body pages frame_count st it = Ok st' ∧
         demand_step frame_count st it.2 st' ∧ True.
Proof.
  intros Hpos Hok _. destruct it as [i page].
  destruct (decide (page ∈ frames st)) as [Hin|Hnin].
  { unfold optimal_body. rewrite decide_True by done.
    eexists. split; [done|]. split; [by apply demand_hit|done]. }
  destruct (decide (py_len (frames st) < frame_count)) as [Hroom|Hfull].
  { unfold optimal_body. rewrite decide_False by done. simpl.
    rewrite decide_True by done.
    eexists. split; [done|]. split; [by apply demand_load|done]. }
  destruct (full_frames _ _ Hpos Hok Hfull) as [Hlen Hne].
  destruct (optimal_body_evict pages frame_count st i page Hnin Hfull Hne)
    as (idx & v & Hidx & _ & ->).
  eexists. split; [done|]. split; [|done].
  eapply demand_replace; simpl; [done|lia|exact Hidx|done..].
Qed.

Lemma elem_of_replace (l : list Z) (n : nat) (x v p : Z) :
  NoDup l → l !! n = Some x →
  p ∈ <[n:=v]> l ↔ p = v ∨ (p ∈ l ∧ p ≠ x).
Proof.
  intros Hnd Hx.
  rewrite <- (elem_of_list_to_set (C:=gset Z)), (list_to_set_replace l n x v Hnd Hx).
  rewrite elem_of_union, elem_of_difference, elem_of_singleton,
    elem_of_list_to_set, not_elem_of_singleton. done.
Qed.

Lemma lfu_key_resident (freq time : gmap Z Z) (p : Z) :
  is_Some (freq !! p) → is_Some (time !! p) →
  lfu_key freq time p = Ok (default 0 (freq !! p), default 0 (time !! p)).
Proof.
  intros [f Hf] [t Ht]. unfold lfu_key, dict_getitem. by rewrite Hf, Ht.
Qed.

Lemma lfu_body_evict (frame_count : Z) (st : sim (gmap Z Z * gmap Z Z)) (i page : Z) :
  page ∉ frames st → ¬ py_len (frames st) < frame_count → frames st ≠ [] →
  lfu_inv st →
  ∃ (idx : nat) victim fv tv,
    frames st !! idx = Some victim ∧
    (aux st).1 !! victim = Some fv ∧ (aux st).2 !! victim = Some tv ∧
    (∀ p fp tp, p ∈ frames st →
       (aux st).1 !! p = Some fp → (aux st).2 !! p = Some tp →
       key_le (fv, tv) (fp, tp)) ∧
    lfu_body frame_count st (i, page) =
      Ok (record_step page "FAULT"
            (set_aux (<[page:=1]> (delete victim (aux st).1),
                      <[page:=i]> (delete victim (aux st).2))
               (set_frames (<[idx:=page]> (frames st))
                  (add_log (log_replace (i + 1) page victim "LFU")
                     (count_fault st))))).
Proof.
  intros Hnin Hfull Hne Hinv.
  destruct st as [fr fa hi sts lg [freq time]]. unfold lfu_inv in Hinv. simpl in *.
  unfold lfu_body. simpl.
  rewrite decide_False by done. simpl. rewrite decide_False by done.
  destruct (py_min_spec pair_ltb (lfu_key freq time)
              (λ p, (default 0 (freq !! p), default 0 (time !! p)))
              pair_ltb_irrefl pair_ltb_trans pair_ltb_negtrans fr Hne)
    as (victim & -> & Hv & Hmin).
  { intros p Hp. apply lfu_key_resident; by apply Hinv. }
  destruct (Hinv victim Hv) as [[fv Hfv] [tv Htv]].
  destruct (py_index_elem _ _ Hv) as (idx & Eidx & Hidx & _).
  cbn [bind]. rewrite Eidx. cbn [bind]. unfold dict_del. rewrite Hfv, Htv. cbn [bind].
  rewrite py_setitem_nat by by eapply lookup_lt_Some.
  exists idx, victim, fv, tv. split_and!; [done|done|done| |done].
  intros p fp tp Hp Hfp Htp. specialize (Hmin p Hp).
  apply pair_ltb_false in Hmin. by rewrite Hfv, Htv, Hfp, Htp in Hmin.
Qed.

Lemma lfu_body_step (frame_count : Z) (st : sim (gmap Z Z * gmap Z Z)) (it : Z * Z) :
  0 < frame_count → frames_ok frame_count (frames st) → lfu_inv st →
  ∃ st', lfu_body frame_count st it = Ok st' ∧
         demand_step frame_count st it.2 st' ∧ lfu_inv st'.
Proof.
  intros Hpos Hok Hinv. destruct it as [i page].
  destruct (decide (page ∈ frames st)) as [Hin|Hnin].
  { destruct (Hinv page Hin) as [[f Hf] _].
    destruct st as [fr fa hi sts lg [freq time]]. unfold lfu_inv in *. simpl in *.
    unfold lfu_body. simpl. rewrite decide_True by done.
    unfold dict_getitem. rewrite Hf. simpl.
    eexists. split; [done|]. split; [by apply demand_hit|].
    simpl. intros p Hp. rewrite !lookup_insert_is_Some.
    destruct (decide (page = p)); naive_solver. }
  destruct (decide (py_len (frames st) < frame_count)) as [Hroom|Hfull].
  { destruct st as [fr fa hi sts lg [freq time]]. unfold lfu_inv in *. simpl in *.
    unfold lfu_body. simpl. rewrite decide_False by done. simpl.
    rewrite decide_True by done.
    eexists. split; [done|]. split; [by apply demand_load|].
    simpl. intros p Hp. rewrite !lookup_insert_is_Some.
    apply elem_of_app in Hp as [Hp|Hp%list_elem_of_singleton];
      destruct (decide (page = p)); naive_solver. }
  destruct (full_frames _ _ Hpos Hok Hfull) as [Hlen Hne].
  destruct (lfu_body_evict frame_count st i page Hnin Hfull Hne Hinv)
    as (idx & v & fv & tv & Hidx & _ & _ & _ & ->).
  eexists. split; [done|]. split.
  { eapply demand_replace; simpl; [done|lia|exact Hidx|done..]. }
  unfold lfu_inv. simpl. intros p Hp.
  apply (elem_of_replace _ _ v) in Hp; [|apply Hok|done].
  rewrite !lookup_insert_is_Some. destruct (decide (page = p)) as [|Hne']; [naive_solver|].
  destruct Hp as [->|[Hp Hpv]]; [done|].
  rewrite !lookup_delete_ne by done. destruct (Hinv p Hp). naive_solver.
Qed.

(** ** The four loops *)

(** LRU's recency map covers the frames after every access. *)
Lemma lru_body_inv (frame_count : Z) (st st' : sim (gmap Z Z)) (it : Z * Z) :
  0 < frame_count → frames_ok frame_count (frames st) →
  lru_body frame_count st it = Ok st' → lru_inv st → lru_inv st'.
Proof.
  intros Hpos Hok E Hinv. destruct it as [i page]. unfold lru_inv in *.
  assert (aux st' = <[page:=i]> (aux st) ∧
          ∀ p, p ∈ frames st' → p = page ∨ p ∈ frames st) as [-> Hfr].
  { destruct (decide (page ∈ frames st)) as [Hin|Hnin].
    { unfold lru_body in E. rewrite decide_True in E by done.
      simpl in E. injection E as <-. simpl. naive_solver. }
    destruct (decide (py_len (frames st) < frame_count)) as [Hroom|Hfull].
    { unfold lru_body in E. rewrite decide_False in E by done. simpl in E.
      rewrite decide_True in E by done. simpl in E. injection E as <-. simpl.
      split; [done|]. intros p [?|Hp%list_elem_of_singleton]%elem_of_app; eauto. }
    destruct (full_frames _ _ Hpos Hok Hfull) as [_ Hne].
    destruct (lru_body_evict frame_count st i page Hnin Hfull Hne)
      as (idx & v & Hidx & _ & E').
    rewrite E' in E. injection E as <-. simpl. split; [done|].
    intros p Hp. apply (elem_of_replace _ _ v) in Hp; [|apply Hok|done]. naive_solver. }
  intros p Hp. rewrite lookup_insert_is_Some.
  destruct (decide (page = p)); [by left|right]. destruct (Hfr p Hp); naive_solver.
Qed.

Lemma lru_body_step_inv (frame_count : Z) (st : sim (gmap Z Z)) (it : Z * Z) :
  0 < frame_count → frames_ok frame_count (frames st) → lru_inv st →
  ∃ st', lru_body frame_count st it = Ok st' ∧
         demand_step frame_count st it.2 st' ∧ lru_inv st'.
Proof.
  intros Hpos Hok Hinv.
  destruct (lru_body_step frame_count st it Hpos Hok I) as (st' & E & Hstep & _).
  exists st'. split; [done|]. split; [done|]. by eapply lru_body_inv.
Qed.

Section loops.
Context (frame_count : Z) (Hpos : 0 < frame_count).

Lemma fifo_run (its : list (Z * Z)) :
  ∃ st, for_each (fifo_body frame_count) its (init 0) = Ok st ∧
        demand_run frame_count (init 0) its.*2 st.
Proof.
  destruct (demand_loop_run frame_count (fifo_body frame_count)
              (λ st, 0 ≤ aux st < frame_count)
              (λ st it, fifo_body_step frame_count st it Hpos) its (init 0))
    as (st & E & Hrun & _); [by apply frames_ok_init|simpl; lia|eauto].
Qed.

Lemma lru_run (its : list (Z * Z)) :
  ∃ st, for_each (lru_body frame_count) its (init ∅) = Ok st ∧
        demand_run frame_count (init ∅) its.*2 st ∧ lru_inv st.
Proof.
  apply (demand_loop_run frame_count (lru_body frame_count) lru_inv
           (λ st it, lru_body_step_inv frame_count st it Hpos)).
  - by apply frames_ok_init.
  - intros p Hp. by apply elem_of_nil in Hp.
Qed.

Lemma optimal_run (pages : list Z) (its : list (Z * Z)) :
  ∃ st, for_each (optimal_body pages frame_count) its (init ()) = Ok st ∧
        demand_run frame_count (init ()) its.*2 st.
Proof.
  destruct (demand_loop_run frame_count (optimal_body pages frame_count)
              (λ _, True)
              (λ st it, optimal_body_step pages frame_count st it Hpos)
              its (init ()))
    as (st & E & Hrun & _); [by apply frames_ok_init|done|eauto].
Qed.

Lemma lfu_run (its : list (Z * Z)) :
  ∃ st, for_each (lfu_body frame_count) its (init (∅, ∅)) = Ok st ∧
        demand_run frame_count (init (∅, ∅)) its.*2 st ∧ lfu_inv st.
Proof.
  apply (demand_loop_run frame_count (lfu_body frame_count) lfu_inv
           (λ st it, lfu_body_step frame_count st it Hpos)).
  - by apply frames_ok_init.
  - intros p Hp. by apply elem_of_nil in Hp.
Qed.
End loops.


Lemma lru_body_no_frames frame_count it :
  frame_count ≤ 0 → lru_body frame_count (init ∅) it = Raise ValueError.
Proof.
  intros Hle. destruct it as [step page]. unfold lru_body. simpl.
  rewrite decide_False by (unfold py_len; simpl; lia). done.
Qed.


Lemma lfu_body_no_frames frame_count it :
  frame_count ≤ 0 → lfu_body frame_count (init (∅, ∅)) it = Raise ValueError.
Proof.
  intros Hle. destruct it as [step page]. unfold lfu_body. simpl.
  rewrite decide_False by (unfold py_len; simpl; lia). done.
Qed.

(** What a run of any of the four returns on a positive frame count. *)
Lemma simulators_return (simulate : list Z → Z → result outcome) pages frame_count :
  simulate ∈ simulators → 0 < frame_count →
  ∃ o, simulate pages frame_count = Ok o ∧
       hit_count o + fault_count o = py_len pages ∧
       (trace o).*1.*1 = pages ∧
       Forall (λ r : step_record, frames_ok frame_count r.1.2) (trace o).
Proof.
  intros Hsim Hpos.
  assert (∀ A (a : A) (st : sim A),
            demand_run frame_count (init a) pages st →
            hit_count (returned st) + fault_count (returned st) = py_len pages ∧
            (trace (returned st)).*1.*1 = pages ∧
            Forall (λ r : step_record, frames_ok frame_count r.1.2)
                   (trace (returned st))) as Hgen.
  { intros A a st Hrun. unfold hit_count, fault_count, trace, returned. simpl.
    pose proof (demand_run_count _ _ _ _ Hrun) as Hcount. simpl in Hcount.
    destruct (demand_run_steps _ _ _ _ Hrun (frames_ok_init _ Hpos))
      as (new & E & Hpages & Hall). simpl in E. subst new.
    split_and!; [lia|done|done]. }
  unfold simulators in Hsim.
  repeat (apply elem_of_cons in Hsim as [->|Hsim]); [| | | |by apply elem_of_nil in Hsim].
  - destruct (fifo_run frame_count Hpos (enumerate 1 pages)) as (st & E & Hrun).
    rewrite enumerate_pages in Hrun. exists (returned st).
    unfold fifo_page_replacement, fifo_loop. rewrite E. split; [done|]. by eapply Hgen.
  - destruct (lru_run frame_count Hpos (enumerate 0 pages)) as (st & E & Hrun & _).
    rewrite enumerate_pages in Hrun. exists (returned st).
    unfold lru_page_replacement, lru_loop. rewrite E. split; [done|]. by eapply Hgen.
  - destruct (optimal_run frame_count Hpos pages (enumerate 0 pages)) as (st & E & Hrun).
    rewrite enumerate_pages in Hrun. exists (returned st).
    unfold optimal_page_replacement, optimal_loop. rewrite E. split; [done|].
    by eapply Hgen.
  - destruct (lfu_run frame_count Hpos (enumerate 0 pages)) as (st & E & Hrun & _).
    rewrite enumerate_pages in Hrun. exists (returned st).
    unfold lfu_page_replacement, lfu_loop. rewrite E. split; [done|]. by eapply Hgen.
Qed.

(** ** The exchange argument on schedules *)

Section schedules.
Context (k : nat).
Implicit Types (C D : gset Z) (w : list Z) (n m : nat) (a x y z : Z).

Lemma size_swap C a z : a ∉ C → z ∈ C → size ({[a]} ∪ C ∖ {[z]}) = size C.
Proof.
  intros Ha Hz. rewrite size_union by set_solver.
  rewrite size_singleton, size_difference by set_solver.
  rewrite size_singleton. assert (size C ≠ 0%nat); [|lia].
  intros E%size_empty_iff. set_solver.
Qed.

Ltac set_cases u v w :=
  let e := fresh "e" in
  apply set_eq; intros e;
  destruct (decide (e = u)), (decide (e = v)), (decide (e = w)); set_solver.

(** Two resident sets that differ in one page are at most one fault apart. *)
Lemma schedule_swap C w n x y :
  schedule k C w n → (k ≤ size C)%nat → y ∈ C → x ∉ C →
  ∃ m, (m ≤ S n)%nat ∧ schedule k ({[x]} ∪ C ∖ {[y]}) w m.
Proof.
  intros Hs. revert x y.
  induction Hs as [C|C a w n Ha Hs IH|C a w n Ha Hsz Hs IH|C a w z n Ha Hsz Hz Hs IH];
    intros x y Hk Hy Hx.
  - exists 0%nat. split; [lia|constructor].
  - destruct (decide (a = y)) as [->|Hay].
    + exists (S n). split; [lia|].
      apply schedule_evict with x; [set_solver|by rewrite size_swap|set_solver|].
      replace ({[y]} ∪ ({[x]} ∪ C ∖ {[y]}) ∖ {[x]}) with C; [done|]. set_cases x y y.
    + destruct (IH x y Hk Hy Hx) as (m & Hm & Hs').
      exists m. split; [lia|]. apply schedule_hit; [set_solver|done].
  - lia.
  - assert (size ({[a]} ∪ C ∖ {[z]}) = size C) as Hsz' by by apply size_swap.
    destruct (decide (a = x)) as [->|Hax].
    + destruct (decide (z = y)) as [->|Hzy].
      * exists n. split; [lia|]. apply schedule_hit; [set_solver|done].
      * destruct (IH z y) as (m & Hm & Hs'); [lia|set_solver|set_solver|].
        exists m. split; [lia|]. apply schedule_hit; [set_solver|].
        replace ({[x]} ∪ C ∖ {[y]}) with ({[z]} ∪ ({[x]} ∪ C ∖ {[z]}) ∖ {[y]}); [done|].
        set_cases x y z.
    + destruct (decide (z = y)) as [->|Hzy].
      * exists (S n). split; [lia|].
        apply schedule_evict with x; [set_solver|by rewrite size_swap|set_solver|].
        replace ({[a]} ∪ ({[x]} ∪ C ∖ {[y]}) ∖ {[x]}) with ({[a]} ∪ C ∖ {[y]}); [done|].
        set_cases a x y.
      * destruct (IH x y) as (m & Hm & Hs'); [lia|set_solver|set_solver|].
        exists (S m). split; [lia|].
        apply schedule_evict with z; [set_solver|by rewrite size_swap|set_solver|].
        replace ({[a]} ∪ ({[x]} ∪ C ∖ {[y]}) ∖ {[z]})
          with ({[x]} ∪ ({[a]} ∪ C ∖ {[z]}) ∖ {[y]}); [done|].
        set_cases x y z.
Qed.

(** Exchange: keeping the page that is needed sooner never costs more. *)
Lemma schedule_exchange C w n x y :
  schedule k C w n → (k ≤ size C)%nat → y ∈ C → x ∉ C → sooner x y w →
  ∃ m, (m ≤ n)%nat ∧ schedule k ({[x]} ∪ C ∖ {[y]}) w m.
Proof.
  intros Hs. revert x y.
  induction Hs as [C|C a w n Ha Hs IH|C a w n Ha Hsz Hs IH|C a w z n Ha Hsz Hz Hs IH];
    intros x y Hk Hy Hx Hsoon.
  - exists 0%nat. split; [lia|constructor].
  - simpl in Hsoon. rewrite decide_False in Hsoon by set_solver.
    destruct (decide (a = y)) as [->|Hay]; [done|].
    destruct (IH x y Hk Hy Hx Hsoon) as (m & Hm & Hs').
    exists m. split; [lia|]. apply schedule_hit; [set_solver|done].
  - lia.
  - assert (size ({[a]} ∪ C ∖ {[z]}) = size C) as Hsz' by by apply size_swap.
    simpl in Hsoon. destruct (decide (a = x)) as [->|Hax].
    + destruct (decide (z = y)) as [->|Hzy].
      * exists n. split; [lia|]. apply schedule_hit; [set_solver|done].
      * destruct (schedule_swap _ _ _ z y Hs) as (m & Hm & Hs');
          [lia|set_solver|set_solver|].
        exists m. split; [lia|]. apply schedule_hit; [set_solver|].
        replace ({[x]} ∪ C ∖ {[y]}) with ({[z]} ∪ ({[x]} ∪ C ∖ {[z]}) ∖ {[y]}); [done|].
        set_cases x y z.
    + rewrite decide_False in Hsoon by set_solver.
      destruct (decide (z = y)) as [->|Hzy].
      * exists (S n). split; [lia|].
        apply schedule_evict with x; [set_solver|by rewrite size_swap|set_solver|].
        replace ({[a]} ∪ ({[x]} ∪ C ∖ {[y]}) ∖ {[x]}) with ({[a]} ∪ C ∖ {[y]}); [done|].
        set_cases a x y.
      * destruct (IH x y) as (m & Hm & Hs'); [lia|set_solver|set_solver|done|].
        exists (S m). split; [lia|].
        apply schedule_evict with z; [set_solver|by rewrite size_swap|set_solver|].
        replace ({[a]} ∪ ({[x]} ∪ C ∖ {[y]}) ∖ {[z]})
          with ({[x]} ∪ ({[a]} ∪ C ∖ {[z]}) ∖ {[y]}); [done|].
        set_cases x y z.
Qed.
End schedules.

(** Every demand-paging run of a loop is a schedule on the set of its frames. *)
Lemma demand_run_schedule {A : Type} (frame_count : Z) (st st' : sim A) (pages : list Z) :
  demand_run frame_count st pages st' → frames_ok frame_count (frames st) →
  schedule (Z.to_nat frame_count) (list_to_set (frames st)) pages
           (Z.to_nat (faults st' - faults st)).
Proof.
  induction 1 as [st|st page st1 pages st2 Hstep Hrun IH]; intros Hok.
  - rewrite Z.sub_diag. constructor.
  - pose proof (demand_step_frames_ok _ _ _ _ Hstep Hok) as Hok1.
    pose proof (demand_run_faults_mono _ _ _ _ Hrun) as Hmono.
    specialize (IH Hok1). destruct Hok as [Hnd Hlen].
    assert (size (list_to_set (frames st) : gset Z) = length (frames st)) as Hsize
      by by apply size_list_to_set.
    destruct Hstep as [Hin Efr Efa _ _|Hnin Hroom Efr Efa _ _|idx victim Hnin Hfull Hv Efr Efa _ _].
    + rewrite Efr, Efa in IH. apply schedule_hit; [|done].
      by apply elem_of_list_to_set.
    + replace (Z.to_nat (faults st2 - faults st))
        with (S (Z.to_nat (faults st2 - faults st1))) by lia.
      apply schedule_load.
      * by rewrite elem_of_list_to_set.
      * rewrite Hsize. unfold py_len in Hroom. lia.
      * rewrite Efr, list_to_set_app_L in IH. simpl in IH.
        replace ({[page]} ∪ list_to_set (frames st))
          with (list_to_set (frames st) ∪ ({[page]} ∪ ∅) : gset Z) by set_solver.
        done.
    + replace (Z.to_nat (faults st2 - faults st))
        with (S (Z.to_nat (faults st2 - faults st1))) by lia.
      apply schedule_evict with victim.
      * by rewrite elem_of_list_to_set.
      * rewrite Hsize. unfold py_len in Hfull. lia.
      * rewrite elem_of_list_to_set. by eapply list_elem_of_lookup_2.
      * rewrite Efr, (list_to_set_replace _ _ victim) in IH by done. done.
Qed.

Lemma sooner_of_distance (w : list Z) (x y : Z) :
  num_gtb (distance w x) (distance w y) = false → sooner x y w.
Proof.
  induction w as [|a w IH]; simpl; [done|].
  destruct (decide (a = x)) as [->|Hax]; [done|].
  destruct (decide (a = y)) as [->|Hay].
  - destruct (distance w x) as [n|] eqn:E; simpl; [|done].
    apply distance_Int in E as [Hn _]. rewrite bool_decide_eq_false. lia.
  - intros Hgt. apply IH.
    destruct (distance w x), (distance w y); simpl in *; try done.
    apply bool_decide_eq_false in Hgt. apply bool_decide_eq_false. lia.
Qed.

(** OPTIMAL serves the rest of the reference string with no more faults
    than any schedule that starts from the same resident pages. *)
Lemma optimal_le_schedule (frame_count : Z) (rest : list Z) :
  0 < frame_count →
  ∀ (done : list Z) (st : sim ()) (n : nat),
    frames_ok frame_count (frames st) →
    schedule (Z.to_nat frame_count) (list_to_set (frames st)) rest n →
    ∃ st', for_each (optimal_body (done ++ rest) frame_count)
                    (enumerate (py_len done) rest) st = Ok st' ∧
           faults st' - faults st ≤ Z.of_nat n.
Proof.
  intros Hpos. induction rest as [|page rest IH]; intros done st n Hok Hs.
  { exists st. simpl. split; [done|lia]. }
  assert (size (list_to_set (frames st) : gset Z) = length (frames st)) as Hsize
    by (apply size_list_to_set, Hok).
  assert (∀ st1 m,
            frames_ok frame_count (frames st1) →
            schedule (Z.to_nat frame_count) (list_to_set (frames st1)) rest m →
            ∃ st', for_each (optimal_body (done ++ page :: rest) frame_count)
                            (enumerate (py_len done + 1) rest) st1 = Ok st' ∧
                   faults st' - faults st1 ≤ Z.of_nat m) as IH'.
  { intros st1 m Hok1 Hs1.
    replace (done ++ page :: rest) with ((done ++ [page]) ++ rest)
      by by rewrite <- app_assoc.
    rewrite <- (py_len_app done page). by apply IH. }
  cbn [for_each enumerate].
  destruct (decide (page ∈ frames st)) as [Hin|Hnin].
  { unfold optimal_body at 1. rewrite decide_True by done. cbn [bind].
    inversion Hs as [|? ? ? ? _ Hs'|? ? ? ? Hn|? ? ? ? ? Hn]; subst;
      [|by rewrite elem_of_list_to_set in Hn..].
    destruct (IH' (record_step page "HIT"
                (add_log (log_hit (py_len done + 1) page "already in memory")
                   (count_hit st))) n) as (st' & E & Hle); [done|done|].
    exists st'. split; [done|]. simpl in Hle. done. }
  destruct (decide (py_len (frames st) < frame_count)) as [Hroom|Hfull].
  { unfold optimal_body at 1. rewrite decide_False by done. cbn [frames count_fault].
    rewrite decide_True by done. cbn [bind].
    inversion Hs as [|? ? ? ? Hy|? ? ? m _ _ Hs'|? ? ? ? m _ Hsz]; subst.
    - by rewrite elem_of_list_to_set in Hy.
    - destruct (IH' (record_step page "FAULT"
                  (add_log (log_load (py_len done + 1) page)
                     (set_frames (frames st ++ [page]) (count_fault st)))) m)
        as (st' & E & Hle).
      + simpl. destruct Hok as [Hnd Hlen]. split; [|rewrite py_len_app; lia].
        apply NoDup_app. split_and!; [done|set_solver|apply NoDup_singleton].
      + simpl. rewrite list_to_set_app_L. simpl.
        replace (list_to_set (frames st) ∪ ({[page]} ∪ ∅) : gset Z)
          with ({[page]} ∪ list_to_set (frames st) : gset Z) by set_solver.
        done.
      + exists st'. split; [done|]. simpl in Hle. lia.
    - rewrite Hsize in Hsz. unfold py_len in Hroom. lia. }
  destruct (full_frames _ _ Hpos Hok Hfull) as [_ Hne].
  destruct (optimal_body_evict (done ++ page :: rest) frame_count st (py_len done)
              page Hnin Hfull Hne) as (idx & q & Hidx & Hfar & ->).
  rewrite py_slice_from_rest in Hfar. cbn [bind].
  assert (q ∈ frames st) as Hq by by eapply list_elem_of_lookup_2.
  inversion Hs as [|? ? ? ? Hy|? ? ? m _ Hsz|? ? ? z m _ Hsz Hz Hs']; subst.
  - by rewrite elem_of_list_to_set in Hy.
  - rewrite Hsize in Hsz. unfold py_len in Hfull. lia.
  - rewrite elem_of_list_to_set in Hz.
    assert (∃ m', (m' ≤ m)%nat ∧
              schedule (Z.to_nat frame_count)
                ({[page]} ∪ list_to_set (frames st) ∖ {[q]}) rest m')
      as (m' & Hm' & Hs'').
    { destruct (decide (z = q)) as [->|Hzq]; [by exists m|].
      destruct (schedule_exchange _ _ _ _ z q Hs') as (m' & Hm' & Hs'').
      - rewrite size_swap; [done| |]; by rewrite elem_of_list_to_set.
      - set_solver.
      - set_solver.
      - apply sooner_of_distance.
        apply list_elem_of_lookup_1 in Hz as [j Hj]. by apply (Hfar j z).
      - exists m'. split; [done|].
        replace ({[page]} ∪ list_to_set (frames st) ∖ {[q]} : gset Z)
          with ({[z]} ∪ ({[page]} ∪ list_to_set (frames st) ∖ {[z]}) ∖ {[q]} : gset Z);
          [done|].
        apply set_eq; intros e.
        destruct (decide (e = z)), (decide (e = q)), (decide (e = page)); set_solver. }
    destruct (IH' (record_step page "FAULT"
                (add_log (log_replace (py_len done + 1) page q "OPTIMAL")
                   (set_frames (<[idx:=page]> (frames st)) (count_fault st)))) m')
      as (st' & E & Hle).
    + simpl. destruct Hok as [Hnd Hle]. split; [by eapply NoDup_replace|].
      unfold py_len in *. by rewrite length_insert.
    + simpl. rewrite (list_to_set_replace _ _ q); [done|apply Hok|done].
    + exists st'. split; [done|]. simpl in Hle. lia.
Qed.

(** No demand-paging run from empty frames beats OPTIMAL. *)
Lemma optimal_le_demand_run {A : Type} (frame_count : Z) (pages : list Z)
    (a : A) (st : sim A) :
  0 < frame_count → demand_run frame_count (init a) pages st →
  ∃ st', optimal_loop frame_count pages = Ok st' ∧ faults st' ≤ faults st.
Proof.
  intros Hpos Hrun.
  pose proof (demand_run_schedule _ _ _ _ Hrun (frames_ok_init _ Hpos)) as Hs.
  pose proof (demand_run_faults_mono _ _ _ _ Hrun) as Hmono. simpl in Hs, Hmono.
  destruct (optimal_le_schedule frame_count pages Hpos [] (init ()) _
              (frames_ok_init _ Hpos) Hs) as (st' & E & Hle).
  exists st'. split; [exact E|]. simpl in Hle. lia.
Qed.

(** * The claims *)

(** C1. For every valid input (non-empty reference string, positive
    frame count) the OPTIMAL simulator returns, and so do FIFO, LRU and
    LFU, and the fault count of OPTIMAL is at most the fault count of
    each of the three on that same input. *)
Theorem optimal_fault_lower_bound (pages : list Z) (frame_count : Z) :
  valid_input pages frame_count →
  ∃ opt, optimal_page_replacement pages frame_count = Ok opt ∧
         Forall (λ simulate : list Z → Z → result outcome,
                   ∃ o, simulate pages frame_count = Ok o ∧
                        fault_count opt ≤ fault_count o)
                [fifo_page_replacement; lru_page_replacement; lfu_page_replacement].
Proof.
  intros [_ Hpos].
  destruct (optimal_run frame_count Hpos pages (enumerate 0 pages)) as (sto & Eo & _).
  exists (returned sto). unfold optimal_page_replacement, optimal_loop at 1.
  rewrite Eo. split; [done|].
  assert (∀ A (a : A) (st : sim A),
            demand_run frame_count (init a) pages st →
            fault_count (returned sto) ≤ fault_count (returned st)) as Hle.
  { intros A a st Hrun.
    destruct (optimal_le_demand_run frame_count pages a st Hpos Hrun) as (st' & E & Hle).
    unfold optimal_loop in E. rewrite Eo in E. by injection E as <-. }
  repeat apply Forall_cons_2; [| | |apply Forall_nil_2].
  - destruct (fifo_run frame_count Hpos (enumerate 1 pages)) as (st & E & Hrun).
    rewrite enumerate_pages in Hrun. exists (returned st).
    unfold fifo_page_replacement, fifo_loop. rewrite E. split; [done|]. by eapply Hle.
  - destruct (lru_run frame_count Hpos (enumerate 0 pages)) as (st & E & Hrun & _).
    rewrite enumerate_pages in Hrun. exists (returned st).
    unfold lru_page_replacement, lru_loop. rewrite E. split; [done|]. by eapply Hle.
  - destruct (lfu_run frame_count Hpos (enumerate 0 pages)) as (st & E & Hrun & _).
    rewrite enumerate_pages in Hrun. exists (returned st).
    unfold lfu_page_replacement, lfu_loop. rewrite E. split; [done|]. by eapply Hle.
Qed.

Lemma optimal_fault_lower_bound_witness :
  valid_input [7; 0; 1; 2; 0; 3; 0; 4] 3 ∧
  ∃ opt, optimal_page_replacement [7; 0; 1; 2; 0; 3; 0; 4] 3 = Ok opt ∧
         Forall (λ simulate : list Z → Z → result outcome,
                   ∃ o, simulate [7; 0; 1; 2; 0; 3; 0; 4] 3 = Ok o ∧
                        fault_count opt ≤ fault_count o)
                [fifo_page_replacement; lru_page_replacement; lfu_page_replacement].
Proof.
  assert (valid_input [7; 0; 1; 2; 0; 3; 0; 4] 3) as Hvalid.
  { split; [discriminate|reflexivity]. }
  split; [exact Hvalid|].
  exact (optimal_fault_lower_bound [7; 0; 1; 2; 0; 3; 0; 4] 3 Hvalid).
Defined.

(** C8. For every valid input each of the four simulators returns; the
    returned hit count plus fault count is the length of the reference
    string, and the trace holds one Step Record per access, in input
    order. *)
Theorem hits_plus_faults_is_length (pages : list Z) (frame_count : Z) :
  valid_input pages frame_count →
  Forall (λ simulate : list Z → Z → result outcome,
            ∃ o, simulate pages frame_count = Ok o ∧
                 hit_count o + fault_count o = py_len pages ∧
                 (trace o).*1.*1 = pages)
         simulators.
Proof.
  intros [_ Hpos]. apply Forall_forall. intros simulate Hsim.
  destruct (simulators_return simulate pages frame_count Hsim Hpos)
    as (o & E & Hcount & Htrace & _).
  by exists o.
Qed.

Lemma hits_plus_faults_is_length_witness :
  valid_input [1; 2; 2; 3; 1; 4] 2 ∧
  Forall (λ simulate : list Z → Z → result outcome,
            ∃ o, simulate [1; 2; 2; 3; 1; 4] 2 = Ok o ∧
                 hit_count o + fault_count o = py_len [1; 2; 2; 3; 1; 4] ∧
                 (trace o).*1.*1 = [1; 2; 2; 3; 1; 4])
         simulators.
Proof.
  assert (valid_input [1; 2; 2; 3; 1; 4] 2) as Hvalid.
  { split; [discriminate|reflexivity]. }
  split; [exact Hvalid|].
  exact (hits_plus_faults_is_length [1; 2; 2; 3; 1; 4] 2 Hvalid).
Defined.

(** C9. For every valid input and each of the four simulators, the
    frame snapshot of every Step Record of the returned trace has at
    most [frame_count] entries and no page twice. *)
Theorem snapshots_bounded_and_duplicate_free (pages : list Z) (frame_count : Z) :
  valid_input pages frame_count →
  Forall (λ simulate : list Z → Z → result outcome,
            ∃ o, simulate pages frame_count = Ok o ∧
                 Forall (λ r : step_record,
                           py_len r.1.2 ≤ frame_count ∧ NoDup r.1.2)
                        (trace o))
         simulators.
Proof.
  intros [_ Hpos]. apply Forall_forall. intros simulate Hsim.
  destruct (simulators_return simulate pages frame_count Hsim Hpos)
    as (o & E & _ & _ & Hall).
  exists o. split; [done|]. eapply Forall_impl; [exact Hall|].
  intros r [Hnd Hlen]. done.
Qed.

Lemma snapshots_bounded_and_duplicate_free_witness :
  valid_input [1; 2; 3; 4; 1; 2; 5; 1; 2; 3; 4; 5] 4 ∧
  Forall (λ simulate : list Z → Z → result outcome,
            ∃ o, simulate [1; 2; 3; 4; 1; 2; 5; 1; 2; 3; 4; 5] 4 = Ok o ∧
                 Forall (λ r : step_record, py_len r.1.2 ≤ 4 ∧ NoDup r.1.2)
                        (trace o))
         simulators.
Proof.
  assert (valid_input [1; 2; 3; 4; 1; 2; 5; 1; 2; 3; 4; 5] 4) as Hvalid.
  { split; [discriminate|reflexivity]. }
  split; [exact Hvalid|].
  exact (snapshots_bounded_and_duplicate_free
           [1; 2; 3; 4; 1; 2; 5; 1; 2; 3; 4; 5] 4 Hvalid).
Defined.

(** C2, as the code has it.  On [7 0 1 2 0 3 0 4] with three frames FIFO
    makes 7 faults and 1 hit: only the second access to page 0 (step 5)
    is a hit; page 0 is replaced at step 6, so its third access (step 7)
    is a fault.  The snapshots follow the rotating cursor. *)
Theorem fifo_scenario :
  fifo_page_replacement [7; 0; 1; 2; 0; 3; 0; 4] 3 =
  Ok ([(7, [7], "FAULT"); (0, [7; 0], "FAULT"); (1, [7; 0; 1], "FAULT");
       (2, [2; 0; 1], "FAULT"); (0, [2; 0; 1], "HIT"); (3, [2; 3; 1], "FAULT");
       (0, [2; 3; 0], "FAULT"); (4, [4; 3; 0], "FAULT")],
      7, 1,
      ["Step 1: Page 7 -> FAULT (loaded into empty frame)";
       "Step 2: Page 0 -> FAULT (loaded into empty frame)";
       "Step 3: Page 1 -> FAULT (loaded into empty frame)";
       "Step 4: Page 2 -> FAULT (replaced 7 using FIFO)";
       "Step 5: Page 0 -> HIT (already in memory)";
       "Step 6: Page 3 -> FAULT (replaced 0 using FIFO)";
       "Step 7: Page 0 -> FAULT (replaced 1 using FIFO)";
       "Step 8: Page 4 -> FAULT (replaced 2 using FIFO)"]).
Proof. vm_compute. reflexivity. Qed.

(** C2, as the specification words it (6 faults and 2 hits), fails. *)
Lemma fifo_scenario_not_six_faults :
  ¬ ∃ steps log,
      fifo_page_replacement [7; 0; 1; 2; 0; 3; 0; 4] 3 = Ok (steps, 6, 2, log).
Proof. intros (steps & log & E). vm_compute in E. discriminate E. Qed.




(** C4. In a run of OPTIMAL over [done ++ page :: rest], when the access
    to [page] faults with all frames taken, the loop body replaces one
    resident page, the victim, and the scan looks at [rest], the accesses
    after the current one.  Distances are positions in [rest]: the
    distance the code computes for a page is the position of the first
    access to it in [rest], or [Inf] when [rest] never accesses it.  No
    resident page has its next use farther away than the victim; every
    resident page in front of the victim has its next use strictly
    nearer; a page without a future use counts as infinitely far ([Inf]
    is above every [Int]), so once some resident page is never used
    again the victim is never used again either. *)
Theorem optimal_victim_is_first_farthest
    (pages done rest : list Z) (page frame_count : Z) (st : sim ()) :
  0 < frame_count →
  pages = done ++ page :: rest →
  for_each (optimal_body pages frame_count) (enumerate 0 done) (init ()) = Ok st →
  page ∉ frames st →
  ¬ py_len (frames st) < frame_count →
  ∃ (idx : nat) (victim : Z) (far : num),
    frames st !! idx = Some victim ∧
    optimal_body pages frame_count st (py_len done, page) =
      Ok (record_step page "FAULT"
            (add_log (log_replace (py_len done + 1) page victim "OPTIMAL")
               (set_frames (<[idx:=page]> (frames st)) (count_fault st)))) ∧
    py_slice_from pages (py_len done + 1) = rest ∧
    next_use rest victim = Ok far ∧
    measures rest victim far ∧
    Forall (λ jf : nat * Z,
              not_nearer rest victim jf.2 ∧
              ((jf.1 < idx)%nat → nearer rest jf.2 victim) ∧
              ∃ d, next_use rest jf.2 = Ok d ∧
                   measures rest jf.2 d ∧
                   num_gtb d far = false ∧
                   ((jf.1 < idx)%nat → num_gtb far d = true))
           (imap pair (frames st)) ∧
    ((∃ f, f ∈ frames st ∧ f ∉ rest) → far = Inf ∧ victim ∉ rest).
Proof.
  intros Hpos -> Hst Hnin Hfull.
  destruct (optimal_run frame_count Hpos (done ++ page :: rest) (enumerate 0 done))
    as (st0 & E & Hrun). rewrite Hst in E. injection E as <-.
  pose proof (demand_run_frames_ok _ _ _ _ Hrun (frames_ok_init _ Hpos)) as Hok.
  destruct (full_frames _ _ Hpos Hok Hfull) as [_ Hne].
  destruct (optimal_body_evict (done ++ page :: rest) frame_count st (py_len done)
              page Hnin Hfull Hne) as (idx & victim & Hidx & Hfar & E).
  rewrite py_slice_from_rest in Hfar.
  exists idx, victim, (distance rest victim).
  split_and!; [done|done|apply py_slice_from_rest|apply next_use_distance
              |apply distance_measures| |].
  - apply Forall_forall. intros [j f] Hjf.
    apply elem_of_lookup_imap in Hjf as (j' & f' & Heq & Hj).
    injection Heq as -> ->. cbn [fst snd].
    destruct (Hfar j' f' Hj) as [Hle Hlt]. split_and!.
    + by apply not_nearer_of_distance.
    + intros Hj'. apply nearer_of_distance. by apply Hlt.
    + exists (distance rest f').
      split_and!; [apply next_use_distance|apply distance_measures|done|done].
  - intros (f & Hf & Hnever). apply list_elem_of_lookup_1 in Hf as [j Hj].
    apply distance_Inf in Hnever.
    destruct (Hfar j f Hj) as [Hle _]. rewrite Hnever in Hle.
    destruct (distance rest victim) eqn:Ev; [done|].
    split; [done|by apply distance_Inf].
Qed.

Lemma optimal_victim_is_first_farthest_witness :
  ∃ (idx : nat) (victim : Z) (far : num),
    frames optimal_example_state !! idx = Some victim ∧
    optimal_body [1; 2; 3; 4; 2; 1; 3] 3 optimal_example_state
      (py_len [1; 2; 3], 4) =
      Ok (record_step 4 "FAULT"
            (add_log (log_replace (py_len [1; 2; 3] + 1) 4 victim "OPTIMAL")
               (set_frames (<[idx:=4]> (frames optimal_example_state))
                  (count_fault optimal_example_state)))) ∧
    py_slice_from [1; 2; 3; 4; 2; 1; 3] (py_len [1; 2; 3] + 1) = [2; 1; 3] ∧
    next_use [2; 1; 3] victim = Ok far ∧
    measures [2; 1; 3] victim far ∧
    Forall (λ jf : nat * Z,
              not_nearer [2; 1; 3] victim jf.2 ∧
              ((jf.1 < idx)%nat → nearer [2; 1; 3] jf.2 victim) ∧
              ∃ d, next_use [2; 1; 3] jf.2 = Ok d ∧
                   measures [2; 1; 3] jf.2 d ∧
                   num_gtb d far = false ∧
                   ((jf.1 < idx)%nat → num_gtb far d = true))
           (imap pair (frames optimal_example_state)) ∧
    ((∃ f, f ∈ frames optimal_example_state ∧ f ∉ [2; 1; 3]) →
     far = Inf ∧ victim ∉ [2; 1; 3]).
Proof.
  apply (optimal_victim_is_first_farthest
           [1; 2; 3; 4; 2; 1; 3] [1; 2; 3] [2; 1; 3] 4 3 optimal_example_state).
  - reflexivity.
  - reflexivity.
  - vm_compute. reflexivity.
  - compute_done.
  - vm_compute. intros H. discriminate H.
Defined.

(** C5. In a run of LFU, when the access after the prefix [done] faults
    with all frames taken, the victim has a frequency and a timestamp,
    and its pair (frequency, timestamp) is least among the resident
    pages: lower frequency first, older timestamp among equal
    frequencies.  On [1 2 2 3 1 4] with two frames the victims are 1, 3
    and 1: page 2, of frequency 2, is never replaced and stays in every
    snapshot after its load. *)
Theorem lfu_victim_is_least_frequent
    (done : list Z) (page frame_count : Z) (st : sim (gmap Z Z * gmap Z Z)) :
  0 < frame_count →
  for_each (lfu_body frame_count) (enumerate 0 done) (init (∅, ∅)) = Ok st →
  page ∉ frames st →
  ¬ py_len (frames st) < frame_count →
  (∃ (idx : nat) (victim fv tv : Z),
     frames st !! idx = Some victim ∧
     (aux st).1 !! victim = Some fv ∧ (aux st).2 !! victim = Some tv ∧
     lfu_body frame_count st (py_len done, page) =
       Ok (record_step page "FAULT"
             (set_aux (<[page:=1]> (delete victim (aux st).1),
                       <[page:=py_len done]> (delete victim (aux st).2))
                (set_frames (<[idx:=page]> (frames st))
                   (add_log (log_replace (py_len done + 1) page victim "LFU")
                      (count_fault st))))) ∧
     Forall (λ p, ∃ fp tp, (aux st).1 !! p = Some fp ∧ (aux st).2 !! p = Some tp ∧
                           key_le (fv, tv) (fp, tp))
            (frames st)) ∧
  lfu_page_replacement [1; 2; 2; 3; 1; 4] 2 =
    Ok ([(1, [1], "FAULT"); (2, [1; 2], "FAULT"); (2, [1; 2], "HIT");
         (3, [3; 2], "FAULT"); (1, [1; 2], "FAULT"); (4, [4; 2], "FAULT")],
        5, 1,
        ["Step 1: Page 1 -> FAULT (loaded into empty frame)";
         "Step 2: Page 2 -> FAULT (loaded into empty frame)";
         "Step 3: Page 2 -> HIT (frequency increased)";
         "Step 4: Page 3 -> FAULT (replaced 1 using LFU)";
         "Step 5: Page 1 -> FAULT (replaced 3 using LFU)";
         "Step 6: Page 4 -> FAULT (replaced 1 using LFU)"]).
Proof.
  intros Hpos Hst Hnin Hfull. split; [|by vm_compute].
  destruct (lfu_run frame_count Hpos (enumerate 0 done)) as (st0 & E & Hrun & Hinv).
  rewrite Hst in E. injection E as <-.
  pose proof (demand_run_frames_ok _ _ _ _ Hrun (frames_ok_init _ Hpos)) as Hok.
  destruct (full_frames _ _ Hpos Hok Hfull) as [_ Hne].
  destruct (lfu_body_evict frame_count st (py_len done) page Hnin Hfull Hne Hinv)
    as (idx & victim & fv & tv & Hidx & Hfv & Htv & Hmin & E).
  exists idx, victim, fv, tv. split_and!; [done|done|done|done|].
  apply Forall_forall. intros p Hp.
  destruct (Hinv p Hp) as [[fp Hfp] [tp Htp]].
  exists fp, tp. split_and!; [done|done|]. by apply (Hmin p).
Qed.

Lemma lfu_victim_is_least_frequent_witness :
  (∃ (idx : nat) (victim fv tv : Z),
     frames lfu_example_state !! idx = Some victim ∧
     (aux lfu_example_state).1 !! victim = Some fv ∧
     (aux lfu_example_state).2 !! victim = Some tv ∧
     lfu_body 2 lfu_example_state (py_len [1; 2; 2], 3) =
       Ok (record_step 3 "FAULT"
             (set_aux (<[3:=1]> (delete victim (aux lfu_example_state).1),
                       <[3:=py_len [1; 2; 2]]> (delete victim (aux lfu_example_state).2))
                (set_frames (<[idx:=3]> (frames lfu_example_state))
                   (add_log (log_replace (py_len [1; 2; 2] + 1) 3 victim "LFU")
                      (count_fault lfu_example_state))))) ∧
     Forall (λ p, ∃ fp tp, (aux lfu_example_state).1 !! p = Some fp ∧
                           (aux lfu_example_state).2 !! p = Some tp ∧
                           key_le (fv, tv) (fp, tp))
            (frames lfu_example_state)) ∧
  lfu_page_replacement [1; 2; 2; 3; 1; 4] 2 =
    Ok ([(1, [1], "FAULT"); (2, [1; 2], "FAULT"); (2, [1; 2], "HIT");
         (3, [3; 2], "FAULT"); (1, [1; 2], "FAULT"); (4, [4; 2], "FAULT")],
        5, 1,
        ["Step 1: Page 1 -> FAULT (loaded into empty frame)";
         "Step 2: Page 2 -> FAULT (loaded into empty frame)";
         "Step 3: Page 2 -> HIT (frequency increased)";
         "Step 4: Page 3 -> FAULT (replaced 1 using LFU)";
         "Step 5: Page 1 -> FAULT (replaced 3 using LFU)";
         "Step 6: Page 4 -> FAULT (replaced 1 using LFU)"]).
Proof.
  apply (lfu_victim_is_least_frequent [1; 2; 2] 3 2 lfu_example_state).
  - reflexivity.
  - vm_compute. reflexivity.
  - compute_done.
  - vm_compute. intros H. discriminate H.
Defined.

(** C6, as the code has it.  In a run of LRU, when the access after the
    prefix [done] faults with all frames taken, the new page takes the
    victim's slot and its recency becomes the current index; nothing
    else in the recency map changes, so the entry of the evicted page
    stays in the map although the page is no longer resident. *)
Theorem lru_eviction_keeps_old_entry
    (done : list Z) (page frame_count : Z) (st : sim (gmap Z Z)) :
  0 < frame_count →
  for_each (lru_body frame_count) (enumerate 0 done) (init ∅) = Ok st →
  page ∉ frames st →
  ¬ py_len (frames st) < frame_count →
  ∃ (idx : nat) (lru_page : Z) (st' : sim (gmap Z Z)),
    lru_body frame_count st (py_len done, page) = Ok st' ∧
    frames st !! idx = Some lru_page ∧
    frames st' = <[idx:=page]> (frames st) ∧
    (lru_page ∉ frames st') ∧
    aux st' = <[page:=py_len done]> (aux st) ∧
    aux st' !! page = Some (py_len done) ∧
    aux st' !! lru_page = aux st !! lru_page ∧
    is_Some (aux st' !! lru_page).
Proof.
  intros Hpos Hst Hnin Hfull.
  destruct (lru_run frame_count Hpos (enumerate 0 done)) as (st0 & E & Hrun & Hinv).
  rewrite Hst in E. injection E as <-.
  pose proof (demand_run_frames_ok _ _ _ _ Hrun (frames_ok_init _ Hpos)) as Hok.
  destruct (full_frames _ _ Hpos Hok Hfull) as [_ Hne].
  destruct (lru_body_evict frame_count st (py_len done) page Hnin Hfull Hne)
    as (idx & v & Hidx & _ & E).
  assert (v ∈ frames st) as Hv by by eapply list_elem_of_lookup_2.
  assert (page ≠ v) as Hpv by (intros ->; done).
  eexists idx, v, _. split; [exact E|]. simpl.
  split_and!; [done|done| |done|by rewrite lookup_insert_eq| |].
  - rewrite (elem_of_replace _ _ v); [|apply Hok|done]. naive_solver.
  - by rewrite lookup_insert_ne.
  - rewrite lookup_insert_ne by done. by apply Hinv.
Qed.

Lemma lru_eviction_keeps_old_entry_witness :
  ∃ (idx : nat) (lru_page : Z) (st' : sim (gmap Z Z)),
    lru_body 1 lru_example_state (py_len [1], 2) = Ok st' ∧
    frames lru_example_state !! idx = Some lru_page ∧
    frames st' = <[idx:=2]> (frames lru_example_state) ∧
    (lru_page ∉ frames st') ∧
    aux st' = <[2:=py_len [1]]> (aux lru_example_state) ∧
    aux st' !! 2 = Some (py_len [1]) ∧
    aux st' !! lru_page = aux lru_example_state !! lru_page ∧
    is_Some (aux st' !! lru_page).
Proof.
  apply (lru_eviction_keeps_old_entry [1] 2 1 lru_example_state).
  - reflexivity.
  - vm_compute. reflexivity.
  - compute_done.
  - vm_compute. intros H. discriminate H.
Defined.

(** C6, as the specification words it, fails: after [1 2] with one
    frame, page 1 has been replaced by page 2 and is no longer resident,
    yet the recency map still holds its entry. *)
Lemma lru_evicted_entry_not_removed :
  (st <- lru_loop 1 [1; 2] ;; Ok (frames st, log st, aux st !! 1)) =
  Ok ([2],
      ["Step 1: Page 1 -> FAULT (loaded into empty frame)";
       "Step 2: Page 2 -> FAULT (replaced 1 using LRU)"],
      Some 0).
Proof. vm_compute. reflexivity. Qed.

(** C7, at the failing input.  On [1 2 3 4 5] with three frames all four
    simulators make 5 faults; [compare_all] names FIFO alone as the best
    algorithm, whereas [run_both] of the earlier program reports the tie
    of FIFO and LRU. *)
Theorem compare_all_names_single_winner :
  (o <- fifo_page_replacement [1; 2; 3; 4; 5] 3 ;; Ok (fault_count o)) = Ok 5 ∧
  (o <- lru_page_replacement [1; 2; 3; 4; 5] 3 ;; Ok (fault_count o)) = Ok 5 ∧
  (o <- optimal_page_replacement [1; 2; 3; 4; 5] 3 ;; Ok (fault_count o)) = Ok 5 ∧
  (o <- lfu_page_replacement [1; 2; 3; 4; 5] 3 ;; Ok (fault_count o)) = Ok 5 ∧
  compare_all [1; 2; 3; 4; 5] 3 = Ok "Best Algorithm (Minimum Faults): FIFO" ∧
  App.run_both [1; 2; 3; 4; 5] 3 = Ok "Both Equal".
Proof. vm_compute. repeat split. Qed.

(** C10. After any number of accesses of any run, every page in LRU's
    frames has an entry in [recent], so [recent.get(p, -1)] returns a
    stored index and never the default, and every page in LFU's frames
    has an entry in [freq] and in [time]; a loop that raises does so with
    the [ValueError] of [min] over no frames at all (a non-positive frame
    count), never with the [KeyError] of a lookup. *)
Theorem resident_pages_have_entries (pages : list Z) (frame_count : Z) (n : nat) :
  match for_each (lru_body frame_count) (take n (enumerate 0 pages)) (init ∅) with
  | Ok st =>
      Forall (λ p, aux st !! p = Some (dict_get (aux st) p (-1))) (frames st)
  | Raise e => e = ValueError ∧ frame_count ≤ 0
  end ∧
  match for_each (lfu_body frame_count) (take n (enumerate 0 pages)) (init (∅, ∅)) with
  | Ok st =>
      Forall (λ p, is_Some ((aux st).1 !! p) ∧ is_Some ((aux st).2 !! p)) (frames st)
  | Raise e => e = ValueError ∧ frame_count ≤ 0
  end.
Proof.
  destruct (decide (0 < frame_count)) as [Hpos|Hle].
  - destruct (lru_run frame_count Hpos (take n (enumerate 0 pages)))
      as (st1 & -> & _ & Hinv1).
    destruct (lfu_run frame_count Hpos (take n (enumerate 0 pages)))
      as (st2 & -> & _ & Hinv2).
    split; apply Forall_forall; intros p Hp; [|by apply Hinv2].
    destruct (Hinv1 p Hp) as [i Hi]. unfold dict_get. by rewrite Hi.
  - destruct (take n (enumerate 0 pages)) as [|it its]; [by split; constructor|].
    cbn [for_each].
    rewrite lru_body_no_frames, lfu_body_no_frames by lia. simpl.
    split; (split; [done|lia]).
Qed.

(** * Further properties *)

(** ** Each loop body, with everything it writes *)

Lemma py_getitem_Z (l : list Z) (i x : Z) :
  0 ≤ i → l !! Z.to_nat i = Some x → py_getitem l i = Ok x.
Proof. intros Hi Hx. rewrite <- (Z2Nat.id i) by done. by apply py_getitem_nat. Qed.

Lemma py_setitem_Z (l : list Z) (i v : Z) :
  0 ≤ i < py_len l → py_setitem l i v = Ok (<[Z.to_nat i:=v]> l).
Proof.
  intros Hi. rewrite <- (Z2Nat.id i) at 1 by lia. apply py_setitem_nat.
  unfold py_len in Hi. lia.
Qed.

Lemma fifo_body_access (frame_count : Z) (st : sim Z) (step page : Z) :
  0 < frame_count → frames_ok frame_count (frames st) → 0 ≤ aux st < frame_count →
  ∃ k a,
    fifo_body frame_count st (step, page) =
      Ok (apply_access "FIFO" "already in memory" st step page k a) ∧
    access_ok frame_count st page k ∧
    match k with
    | Replace idx _ => idx = Z.to_nat (aux st) ∧ a = (aux st + 1) `mod` frame_count
    | _ => a = aux st
    end.
Proof.
  intros Hpos Hok Hqi. unfold fifo_body.
  destruct (decide (page ∈ frames st)) as [Hin|Hnin].
  { by exists Hit, (aux st). }
  simpl. destruct (decide (py_len (frames st) < frame_count)) as [Hroom|Hfull].
  { by exists Load, (aux st). }
  destruct (full_frames _ _ Hpos Hok Hfull) as [Hlen _].
  destruct (lookup_lt_is_Some_2 (frames st) (Z.to_nat (aux st))) as [victim Hv].
  { unfold py_len in Hlen. lia. }
  exists (Replace (Z.to_nat (aux st)) victim), ((aux st + 1) `mod` frame_count).
  split; [|split; [split_and!; [done|lia|done]|done]].
  rewrite (py_getitem_Z _ _ victim) by (done || lia). simpl.
  rewrite py_setitem_Z by lia. simpl.
  unfold py_mod. rewrite decide_False by lia. done.
Qed.

Lemma lru_body_access (frame_count : Z) (st : sim (gmap Z Z)) (i page : Z) :
  0 < frame_count → frames_ok frame_count (frames st) →
  ∃ k,
    lru_body frame_count st (i, page) =
      Ok (apply_access "LRU" "already in memory" st (i + 1) page k
            (<[page:=i]> (aux st))) ∧
    access_ok frame_count st page k ∧
    match k with
    | Replace _ victim =>
        ∀ p, p ∈ frames st →
             dict_get (aux st) victim (-1) ≤ dict_get (aux st) p (-1)
    | _ => True
    end.
Proof.
  intros Hpos Hok.
  destruct (decide (page ∈ frames st)) as [Hin|Hnin].
  { exists Hit. unfold lru_body. by rewrite decide_True. }
  destruct (decide (py_len (frames st) < frame_count)) as [Hroom|Hfull].
  { exists Load. unfold lru_body. rewrite decide_False by done. simpl.
    by rewrite decide_True. }
  destruct (full_frames _ _ Hpos Hok Hfull) as [Hlen Hne].
  destruct (lru_body_evict frame_count st i page Hnin Hfull Hne)
    as (idx & v & Hidx & Hmin & ->).
  exists (Replace idx v). split; [done|]. split; [|done].
  split_and!; [done|lia|done].
Qed.

Lemma optimal_body_access (pages : list Z) (frame_count : Z) (st : sim ()) (i page : Z) :
  0 < frame_count → frames_ok frame_count (frames st) →
  ∃ k,
    optimal_body pages frame_count st (i, page) =
      Ok (apply_access "OPTIMAL" "already in memory" st (i + 1) page k (aux st)) ∧
    access_ok frame_count st page k.
Proof.
  intros Hpos Hok.
  destruct (decide (page ∈ frames st)) as [Hin|Hnin].
  { exists Hit. unfold optimal_body. by rewrite decide_True. }
  destruct (decide (py_len (frames st) < frame_count)) as [Hroom|Hfull].
  { exists Load. unfold optimal_body. rewrite decide_False by done. simpl.
    by rewrite decide_True. }
  destruct (full_frames _ _ Hpos Hok Hfull) as [Hlen Hne].
  destruct (optimal_body_evict pages frame_count st i page Hnin Hfull Hne)
    as (idx & v & Hidx & _ & ->).
  exists (Replace idx v). split; [done|]. split_and!; [done|lia|done].
Qed.

Lemma lfu_body_access (frame_count : Z) (st : sim (gmap Z Z * gmap Z Z)) (i page : Z) :
  0 < frame_count → frames_ok frame_count (frames st) → lfu_inv st →
  ∃ k a,
    lfu_body frame_count st (i, page) =
      Ok (apply_access "LFU" "frequency increased" st (i + 1) page k a) ∧
    access_ok frame_count st page k ∧
    match k with
    | Hit => ∃ f, (aux st).1 !! page = Some f ∧
                  a = (<[page:=f + 1]> (aux st).1, <[page:=i]> (aux st).2)
    | Load => a = (<[page:=1]> (aux st).1, <[page:=i]> (aux st).2)
    | Replace _ victim =>
        a = (<[page:=1]> (delete victim (aux st).1),
             <[page:=i]> (delete victim (aux st).2))
    end.
Proof.
  intros Hpos Hok Hinv.
  destruct (decide (page ∈ frames st)) as [Hin|Hnin].
  { destruct (Hinv page Hin) as [[f Hf] _].
    destruct st as [fr fa hi sts lg [freq time]]. simpl in *.
    exists Hit, (<[page:=f + 1]> freq, <[page:=i]> time).
    unfold lfu_body. simpl. rewrite decide_True by done.
    unfold dict_getitem. rewrite Hf. simpl. eauto. }
  destruct (decide (py_len (frames st) < frame_count)) as [Hroom|Hfull].
  { destruct st as [fr fa hi sts lg [freq time]]. simpl in *.
    exists Load, (<[page:=1]> freq, <[page:=i]> time).
    unfold lfu_body. simpl. rewrite decide_False by done. simpl.
    by rewrite decide_True. }
  destruct (full_frames _ _ Hpos Hok Hfull) as [Hlen Hne].
  destruct (lfu_body_evict frame_count st i page Hnin Hfull Hne Hinv)
    as (idx & v & fv & tv & Hidx & _ & _ & _ & ->).
  exists (Replace idx v), (<[page:=1]> (delete v (aux st).1),
                           <[page:=i]> (delete v (aux st).2)).
  split; [done|]. split; [|done]. split_and!; [done|lia|done].
Qed.

(** ** What a whole loop writes *)

Lemma apply_access_frames_ok {A : Type} (algo why : string) (frame_count : Z)
    (st : sim A) (step page : Z) (k : access_kind) (a : A) :
  frames_ok frame_count (frames st) → access_ok frame_count st page k →
  frames_ok frame_count (frames (apply_access algo why st step page k a)).
Proof.
  intros [Hnd Hlen] Hk. destruct k as [| |idx victim]; simpl in *.
  - done.
  - destruct Hk as [Hnin Hroom]. split; [|rewrite py_len_app; lia].
    apply NoDup_app. split_and!; [done|set_solver|apply NoDup_singleton].
  - destruct Hk as (Hnin & Hfull & Hv). split; [by eapply NoDup_replace|].
    unfold py_len in *. by rewrite length_insert.
Qed.

Lemma count_status_cons_eq (status : string) (r : step_record) (tr : list step_record) :
  r.2 = status → count_status status (r :: tr) = 1 + count_status status tr.
Proof.
  intros E. unfold count_status. rewrite filter_cons, decide_True by done.
  simpl length. lia.
Qed.

Lemma count_status_cons_ne (status : string) (r : step_record) (tr : list step_record) :
  r.2 ≠ status → count_status status (r :: tr) = count_status status tr.
Proof. intros E. unfold count_status. by rewrite filter_cons, decide_False. Qed.

Section access_loop.
Context {A : Type} (algo why : string) (off : Z) (frame_count : Z).
Context (body : sim A → Z * Z → result (sim A)) (inv : sim A → Prop).
Hypothesis body_access : ∀ st i page,
  frames_ok frame_count (frames st) → inv st →
  ∃ k a, body st (i, page) = Ok (apply_access algo why st (i + off) page k a) ∧
         access_ok frame_count st page k ∧
         inv (apply_access algo why st (i + off) page k a).

Lemma access_loop_trace (pages : list Z) (start : Z) (st : sim A) :
  frames_ok frame_count (frames st) → inv st →
  ∃ st' tr lg,
    for_each body (enumerate start pages) st = Ok st' ∧
    inv st' ∧ frames_ok frame_count (frames st') ∧
    steps st' = steps st ++ tr ∧ log st' = log st ++ lg ∧
    tr.*1.*1 = pages ∧
    trace_from frame_count (frames st) tr ∧
    log_agrees algo why (start + off) (frames st) tr lg ∧
    hits st' = hits st + count_status "HIT" tr ∧
    faults st' = faults st + count_status "FAULT" tr.
Proof.
  revert start st. induction pages as [|page pages IH]; intros start st Hok Hinv.
  { exists st, [], []. rewrite !app_nil_r. unfold count_status. simpl.
    split_and!; try done; lia. }
  destruct (body_access st start page Hok Hinv) as (k & a & E & Hk & Hinv1).
  pose proof (apply_access_frames_ok algo why _ _ (start + off) _ _ a Hok Hk) as Hok1.
  destruct (IH (start + 1) _ Hok1 Hinv1)
    as (st' & tr & lg & E' & Hinv' & Hok' & Hsteps & Hlog & Hpages & Htr & Hlg & Hh & Hf).
  replace (start + 1 + off) with (start + off + 1) in Hlg by lia.
  cbn [enumerate for_each]. rewrite E. cbn [bind]. rewrite E'.
  destruct k as [| |idx victim]; simpl in Hk.
  - exists st', ((page, frames st, "HIT") :: tr), (log_hit (start + off) page why :: lg).
    rewrite (count_status_cons_eq "HIT"), (count_status_cons_ne "FAULT") by done.
    rewrite Hsteps, Hlog. cbn [apply_access steps log frames hits faults] in *.
    rewrite <- !app_assoc.
    split_and!; try done; try lia;
      [by rewrite <- Hpages|simpl; (split; [naive_solver|done])..].
  - destruct Hk as [Hnin Hroom].
    exists st', ((page, frames st ++ [page], "FAULT") :: tr),
      (log_load (start + off) page :: lg).
    rewrite (count_status_cons_ne "HIT"), (count_status_cons_eq "FAULT") by done.
    rewrite Hsteps, Hlog. cbn [apply_access steps log frames hits faults] in *.
    rewrite <- !app_assoc.
    split_and!; try done; try lia;
      [by rewrite <- Hpages|simpl; (split; [naive_solver|done])..].
  - destruct Hk as (Hnin & Hfull & Hv).
    exists st', ((page, <[idx:=page]> (frames st), "FAULT") :: tr),
      (log_replace (start + off) page victim algo :: lg).
    rewrite (count_status_cons_ne "HIT"), (count_status_cons_eq "FAULT") by done.
    rewrite Hsteps, Hlog. cbn [apply_access steps log frames hits faults] in *.
    rewrite <- !app_assoc.
    split_and!; try done; try lia;
      [by rewrite <- Hpages|simpl; (split; [|done])..].
    + right. right. split_and!; eauto.
    + right. right. split; [done|]. exists victim. split_and!; [|  |done].
      * by eapply list_elem_of_lookup_2.
      * rewrite (elem_of_replace _ _ victim); [|apply Hok|done].
        intros [->|[_ ?]]; [|done]. apply Hnin. by eapply list_elem_of_lookup_2.
Qed.
End access_loop.

(** What each of the four simulators returns on a positive frame count,
    with the names its log uses. *)
Lemma named_simulators_trace (algo why : string)
    (simulate : list Z → Z → result outcome) (pages : list Z) (frame_count : Z) :
  (algo, why, simulate) ∈ named_simulators → 0 < frame_count →
  ∃ o, simulate pages frame_count = Ok o ∧
       (trace o).*1.*1 = pages ∧
       trace_from frame_count [] (trace o) ∧
       log_agrees algo why 1 [] (trace o) o.2 ∧
       hit_count o = count_status "HIT" (trace o) ∧
       fault_count o = count_status "FAULT" (trace o).
Proof.
  intros Hsim Hpos.
  unfold named_simulators in Hsim.
  repeat (apply elem_of_cons in Hsim as [Hsim|Hsim]);
    [injection Hsim as -> -> ->..|by apply elem_of_nil in Hsim].
  - destruct (access_loop_trace "FIFO" "already in memory" 0 frame_count
                (fifo_body frame_count) (λ st, 0 ≤ aux st < frame_count))
      with (pages := pages) (start := 1) (st := init 0)
      as (st & tr & lg & E & _ & _ & Hs & Hl & Hp & Htr & Hlg & Hh & Hf).
    + intros st i page Hok Hinv.
      destruct (fifo_body_access frame_count st i page Hpos Hok Hinv)
        as (k & a & E & Hk & Ha).
      exists k, a. rewrite Z.add_0_r. split; [done|]. split; [done|].
      destruct k; simpl; try (subst a; done).
      destruct Ha as [_ ->]. by apply Z.mod_pos_bound.
    + by apply frames_ok_init.
    + simpl. lia.
    + exists (returned st). unfold fifo_page_replacement, fifo_loop. rewrite E.
      unfold hit_count, fault_count, trace, returned. simpl in *.
      rewrite Hs, Hl. split_and!; try done; lia.
  - destruct (access_loop_trace "LRU" "already in memory" 1 frame_count
                (lru_body frame_count) (λ _, True))
      with (pages := pages) (start := 0) (st := init (∅ : gmap Z Z))
      as (st & tr & lg & E & _ & _ & Hs & Hl & Hp & Htr & Hlg & Hh & Hf).
    + intros st i page Hok _.
      destruct (lru_body_access frame_count st i page Hpos Hok) as (k & E & Hk & _).
      eauto.
    + by apply frames_ok_init.
    + done.
    + exists (returned st). unfold lru_page_replacement, lru_loop. rewrite E.
      unfold hit_count, fault_count, trace, returned. simpl in *.
      rewrite Hs, Hl. split_and!; try done; lia.
  - destruct (access_loop_trace "OPTIMAL" "already in memory" 1 frame_count
                (optimal_body pages frame_count) (λ _, True))
      with (pages := pages) (start := 0) (st := init ())
      as (st & tr & lg & E & _ & _ & Hs & Hl & Hp & Htr & Hlg & Hh & Hf).
    + intros st i page Hok _.
      destruct (optimal_body_access pages frame_count st i page Hpos Hok)
        as (k & E & Hk).
      eauto.
    + by apply frames_ok_init.
    + done.
    + exists (returned st). unfold optimal_page_replacement, optimal_loop. rewrite E.
      unfold hit_count, fault_count, trace, returned. simpl in *.
      rewrite Hs, Hl. split_and!; try done; lia.
  - destruct (access_loop_trace "LFU" "frequency increased" 1 frame_count
                (lfu_body frame_count) lfu_inv)
      with (pages := pages) (start := 0) (st := init ((∅, ∅) : gmap Z Z * gmap Z Z))
      as (st & tr & lg & E & _ & _ & Hs & Hl & Hp & Htr & Hlg & Hh & Hf).
    + intros st i page Hok Hinv.
      destruct (lfu_body_access frame_count st i page Hpos Hok Hinv)
        as (k & a & E & Hk & _).
      destruct (lfu_body_step frame_count st (i, page) Hpos Hok Hinv)
        as (st' & E' & _ & Hinv').
      rewrite E in E'. injection E' as <-. eauto.
    + by apply frames_ok_init.
    + intros p Hp. by apply elem_of_nil in Hp.
    + exists (returned st). unfold lfu_page_replacement, lfu_loop. rewrite E.
      unfold hit_count, fault_count, trace, returned. simpl in *.
      rewrite Hs, Hl. split_and!; try done; lia.
Qed.

Lemma simulators_named (simulate : list Z → Z → result outcome) :
  simulate ∈ simulators →
  ∃ algo why, (algo, why, simulate) ∈ named_simulators.
Proof.
  unfold simulators, named_simulators. intros Hsim.
  repeat (apply elem_of_cons in Hsim as [->|Hsim]); [..|by apply elem_of_nil in Hsim].
  - exists "FIFO", "already in memory". set_solver.
  - exists "LRU", "already in memory". set_solver.
  - exists "OPTIMAL", "already in memory". set_solver.
  - exists "LFU", "frequency increased". set_solver.
Qed.

Lemma trace_from_statuses (frame_count : Z) (prev : list Z) (tr : list step_record) :
  trace_from frame_count prev tr →
  Forall (λ r : step_record, r.2 = "HIT" ∨ r.2 = "FAULT") tr.
Proof.
  revert prev. induction tr as [|[[page fr] status] tr IH]; intros prev Htr.
  - constructor.
  - destruct Htr as [Hr Htr]. constructor; [simpl; naive_solver|by eapply IH].
Qed.

Lemma log_agrees_length (algo why : string) (step : Z) (prev : list Z)
    (tr : list step_record) (lg : list string) :
  log_agrees algo why step prev tr lg → length lg = length tr.
Proof.
  revert step prev lg. induction tr as [|[[page fr] status] tr IH];
    intros step prev [|line lg]; simpl; try done.
  intros [_ Hlg]. f_equal. by eapply IH.
Qed.

(** ** Properties of the traces and logs of all four simulators *)

(** X1. On every valid input each simulator's trace is a demand-paging
    trace from empty frames: a record is a HIT exactly when its page is
    in the snapshot of the record before it, and then the snapshot is
    unchanged; a FAULT appends the page while fewer than [frame_count]
    pages are resident and otherwise overwrites exactly one slot. *)
Theorem trace_is_demand_paging (pages : list Z) (frame_count : Z) :
  valid_input pages frame_count →
  Forall (λ simulate : list Z → Z → result outcome,
            ∃ o, simulate pages frame_count = Ok o ∧
                 trace_from frame_count [] (trace o))
         simulators.
Proof.
  intros [_ Hpos]. apply Forall_forall. intros simulate Hsim.
  destruct (simulators_named simulate Hsim) as (algo & why & Hnamed).
  destruct (named_simulators_trace algo why simulate pages frame_count Hnamed Hpos)
    as (o & E & _ & Htr & _).
  by exists o.
Qed.

Lemma trace_is_demand_paging_witness :
  valid_input [1; 2; 3; 4; 1; 2; 5; 1; 2; 3; 4; 5] 4 ∧
  Forall (λ simulate : list Z → Z → result outcome,
            ∃ o, simulate [1; 2; 3; 4; 1; 2; 5; 1; 2; 3; 4; 5] 4 = Ok o ∧
                 trace_from 4 [] (trace o))
         simulators.
Proof.
  assert (valid_input [1; 2; 3; 4; 1; 2; 5; 1; 2; 3; 4; 5] 4) as Hvalid.
  { split; [discriminate|reflexivity]. }
  split; [exact Hvalid|].
  exact (trace_is_demand_paging [1; 2; 3; 4; 1; 2; 5; 1; 2; 3; 4; 5] 4 Hvalid).
Defined.

(** X2. On every valid input the first access is a FAULT in each
    simulator, and its snapshot holds the first page alone. *)
Theorem first_access_is_a_fault (pages : list Z) (frame_count : Z) :
  valid_input pages frame_count →
  Forall (λ simulate : list Z → Z → result outcome,
            ∃ o page rest, simulate pages frame_count = Ok o ∧
                           head pages = Some page ∧
                           trace o = (page, [page], "FAULT") :: rest)
         simulators.
Proof.
  intros [Hne Hpos]. apply Forall_forall. intros simulate Hsim.
  destruct (simulators_named simulate Hsim) as (algo & why & Hnamed).
  destruct (named_simulators_trace algo why simulate pages frame_count Hnamed Hpos)
    as (o & E & Hp & Htr & _).
  destruct (trace o) as [|[[page fr] status] rest] eqn:Etr.
  - simpl in Hp. by subst pages.
  - exists o, page, rest. simpl in Hp. subst pages. split_and!; [done|done|].
    destruct Htr as [[(_ & Hin & _)|[(-> & _ & _ & ->)|(_ & _ & Hfull & _)]] _].
    + by apply elem_of_nil in Hin.
    + done.
    + unfold py_len in Hfull. simpl in Hfull. lia.
Qed.

Lemma first_access_is_a_fault_witness :
  valid_input [7; 0; 1; 2; 0; 3; 0; 4] 3 ∧
  Forall (λ simulate : list Z → Z → result outcome,
            ∃ o page rest, simulate [7; 0; 1; 2; 0; 3; 0; 4] 3 = Ok o ∧
                           head [7; 0; 1; 2; 0; 3; 0; 4] = Some page ∧
                           trace o = (page, [page], "FAULT") :: rest)
         simulators.
Proof.
  assert (valid_input [7; 0; 1; 2; 0; 3; 0; 4] 3) as Hvalid.
  { split; [discriminate|reflexivity]. }
  split; [exact Hvalid|].
  exact (first_access_is_a_fault [7; 0; 1; 2; 0; 3; 0; 4] 3 Hvalid).
Defined.

(** X3. On every valid input the two counters returned by each
    simulator are the tallies of its trace: the hit count is the number
    of HIT records, the fault count the number of FAULT records, and no
    record has another status. *)
Theorem counters_tally_the_trace (pages : list Z) (frame_count : Z) :
  valid_input pages frame_count →
  Forall (λ simulate : list Z → Z → result outcome,
            ∃ o, simulate pages frame_count = Ok o ∧
                 hit_count o = count_status "HIT" (trace o) ∧
                 fault_count o = count_status "FAULT" (trace o) ∧
                 Forall (λ r : step_record, r.2 = "HIT" ∨ r.2 = "FAULT") (trace o))
         simulators.
Proof.
  intros [_ Hpos]. apply Forall_forall. intros simulate Hsim.
  destruct (simulators_named simulate Hsim) as (algo & why & Hnamed).
  destruct (named_simulators_trace algo why simulate pages frame_count Hnamed Hpos)
    as (o & E & _ & Htr & _ & Hh & Hf).
  exists o. split_and!; [done|done|done|]. by eapply trace_from_statuses.
Qed.

Lemma counters_tally_the_trace_witness :
  valid_input [1; 2; 2; 3; 1; 4] 2 ∧
  Forall (λ simulate : list Z → Z → result outcome,
            ∃ o, simulate [1; 2; 2; 3; 1; 4] 2 = Ok o ∧
                 hit_count o = count_status "HIT" (trace o) ∧
                 fault_count o = count_status "FAULT" (trace o) ∧
                 Forall (λ r : step_record, r.2 = "HIT" ∨ r.2 = "FAULT") (trace o))
         simulators.
Proof.
  assert (valid_input [1; 2; 2; 3; 1; 4] 2) as Hvalid.
  { split; [discriminate|reflexivity]. }
  split; [exact Hvalid|].
  exact (counters_tally_the_trace [1; 2; 2; 3; 1; 4] 2 Hvalid).
Defined.

(** X4. On every valid input the execution log of each simulator has
    one line per access and tells what the trace did: line [n] carries
    the step number [n] and the page of record [n]; it is the HIT line
    exactly when the page was resident, the "loaded into empty frame"
    line exactly when the page was appended, and otherwise it names as
    replaced a page that was resident before the access and is not
    resident after it, together with the policy's own name. *)
Theorem log_tells_the_trace (pages : list Z) (frame_count : Z) :
  valid_input pages frame_count →
  Forall (λ s : string * string * (list Z → Z → result outcome),
            ∃ o, s.2 pages frame_count = Ok o ∧
                 length o.2 = length pages ∧
                 log_agrees s.1.1 s.1.2 1 [] (trace o) o.2)
         named_simulators.
Proof.
  intros [_ Hpos]. apply Forall_forall. intros [[algo why] simulate] Hnamed.
  destruct (named_simulators_trace algo why simulate pages frame_count Hnamed Hpos)
    as (o & E & Hp & _ & Hlg & _).
  exists o. split_and!; [done| |done].
  rewrite (log_agrees_length _ _ _ _ _ _ Hlg), <- Hp. by rewrite !length_fmap.
Qed.

Lemma log_tells_the_trace_witness :
  valid_input [7; 0; 1; 2; 0; 3; 0; 4] 3 ∧
  Forall (λ s : string * string * (list Z → Z → result outcome),
            ∃ o, s.2 [7; 0; 1; 2; 0; 3; 0; 4] 3 = Ok o ∧
                 length o.2 = length [7; 0; 1; 2; 0; 3; 0; 4] ∧
                 log_agrees s.1.1 s.1.2 1 [] (trace o) o.2)
         named_simulators.
Proof.
  assert (valid_input [7; 0; 1; 2; 0; 3; 0; 4] 3) as Hvalid.
  { split; [discriminate|reflexivity]. }
  split; [exact Hvalid|].
  exact (log_tells_the_trace [7; 0; 1; 2; 0; 3; 0; 4] 3 Hvalid).
Defined.

(** ** Distinct pages *)

Lemma last_snapshot_cons (prev : list Z) (r : step_record) (tr : list step_record) :
  default prev (last ((r :: tr).*1.*2)) = default r.1.2 (last (tr.*1.*2)).
Proof.
  destruct tr as [|s tr]; [done|]. rewrite !fmap_cons, last_cons_cons.
  destruct (last (s.1.2 :: tr.*1.*2)) eqn:E; [done|]. by apply last_None in E.
Qed.

(** Along a demand-paging trace the resident pages are pages seen so
    far, all of them while there is room; every new page costs a fault. *)
Lemma trace_from_pages (frame_count : Z) (tr : list step_record) :
  ∀ (prev : list Z) (seen : gset Z),
    NoDup prev → py_len prev ≤ frame_count →
    list_to_set prev ⊆ seen →
    (py_len prev < frame_count → list_to_set prev = seen) →
    trace_from frame_count prev tr →
    Z.of_nat (size (seen ∪ list_to_set (tr.*1.*1))) ≤
      Z.of_nat (size seen) + count_status "FAULT" tr ∧
    NoDup (default prev (last (tr.*1.*2))) ∧
    py_len (default prev (last (tr.*1.*2))) ≤ frame_count ∧
    list_to_set (default prev (last (tr.*1.*2))) ⊆ seen ∪ list_to_set (tr.*1.*1) ∧
    (py_len (default prev (last (tr.*1.*2))) < frame_count →
     list_to_set (default prev (last (tr.*1.*2))) =@{gset Z}
       seen ∪ list_to_set (tr.*1.*1)).
Proof.
  induction tr as [|[[page fr] status] tr IH]; intros prev seen Hnd Hlen Hsub Hall Htr.
  { simpl. unfold count_status. simpl.
    replace (seen ∪ ∅) with seen by set_solver.
    split_and!; [lia|done|done|done|done]. }
  destruct Htr as [Hr Htr]. rewrite last_snapshot_cons.
  rewrite !fmap_cons, list_to_set_cons. cbn [fst snd].
  replace (seen ∪ ({[page]} ∪ list_to_set (tr.*1.*1)))
    with (({[page]} ∪ seen) ∪ list_to_set (tr.*1.*1) : gset Z)
    by (clear; set_solver).
  assert (Z.of_nat (size ({[page]} ∪ seen : gset Z)) ≤ Z.of_nat (size seen) + 1) as Hone.
  { pose proof (size_union_alt {[page]} seen) as Hsz.
    pose proof (subseteq_size (seen ∖ {[page]}) seen) as Hsz'.
    rewrite size_singleton in Hsz.
    assert (seen ∖ {[page]} ⊆ seen) as Hd by set_solver. specialize (Hsz' Hd). lia. }
  destruct Hr as [(-> & Hin & ->)|[(-> & Hnin & Hroom & ->)|(-> & Hnin & Hfull & idx & v & Hv & ->)]].
  - rewrite (count_status_cons_ne "FAULT") by done.
    assert ({[page]} ∪ seen = seen) as Hsame.
    { rewrite <- (elem_of_list_to_set (C:=gset Z)) in Hin. clear -Hin Hsub. set_solver. }
    rewrite Hsame. by apply IH.
  - rewrite (count_status_cons_eq "FAULT") by done.
    destruct (IH (prev ++ [page]) ({[page]} ∪ seen)) as (Hc & Hrest); [| | | |done|].
    + apply NoDup_app. split_and!; [done|set_solver|apply NoDup_singleton].
    + rewrite py_len_app. lia.
    + rewrite list_to_set_app_L. simpl. set_solver.
    + intros _. rewrite list_to_set_app_L, (Hall Hroom). simpl. set_solver.
    + split; [lia|done].
  - rewrite (count_status_cons_eq "FAULT") by done.
    destruct (IH (<[idx:=page]> prev) ({[page]} ∪ seen)) as (Hc & Hrest); [| | | |done|].
    + by eapply NoDup_replace.
    + unfold py_len in *. by rewrite length_insert.
    + rewrite (list_to_set_replace _ _ v) by done. set_solver.
    + unfold py_len in *. rewrite length_insert. lia.
    + split; [lia|done].
Qed.

Lemma count_status_nonneg (status : string) (tr : list step_record) :
  0 ≤ count_status status tr.
Proof. unfold count_status. lia. Qed.

(** X5. On every valid input the fault count of each simulator lies
    between the number of distinct pages of the reference string and
    the number of accesses. *)
Theorem faults_between_distinct_and_length (pages : list Z) (frame_count : Z) :
  valid_input pages frame_count →
  Forall (λ simulate : list Z → Z → result outcome,
            ∃ o, simulate pages frame_count = Ok o ∧
                 distinct_pages pages ≤ fault_count o ≤ py_len pages)
         simulators.
Proof.
  intros [_ Hpos]. apply Forall_forall. intros simulate Hsim.
  destruct (simulators_named simulate Hsim) as (algo & why & Hnamed).
  destruct (named_simulators_trace algo why simulate pages frame_count Hnamed Hpos)
    as (o & E & Hp & Htr & _ & Hh & Hf).
  destruct (simulators_return simulate pages frame_count Hsim Hpos)
    as (o' & E' & Hsum & _).
  rewrite E in E'. injection E' as <-.
  exists o. split; [done|].
  destruct (trace_from_pages frame_count (trace o) [] ∅) as [Hlow _];
    [constructor|unfold py_len; simpl; lia|done|done|done|].
  rewrite Hp, size_empty in Hlow.
  replace (∅ ∪ list_to_set pages : gset Z) with (list_to_set pages : gset Z) in Hlow
    by set_solver.
  pose proof (count_status_nonneg "HIT" (trace o)).
  unfold distinct_pages. lia.
Qed.

Lemma faults_between_distinct_and_length_witness :
  valid_input [7; 0; 1; 2; 0; 3; 0; 4] 3 ∧
  Forall (λ simulate : list Z → Z → result outcome,
            ∃ o, simulate [7; 0; 1; 2; 0; 3; 0; 4] 3 = Ok o ∧
                 distinct_pages [7; 0; 1; 2; 0; 3; 0; 4] ≤ fault_count o
                   ≤ py_len [7; 0; 1; 2; 0; 3; 0; 4])
         simulators.
Proof.
  assert (valid_input [7; 0; 1; 2; 0; 3; 0; 4] 3) as Hvalid.
  { split; [discriminate|reflexivity]. }
  split; [exact Hvalid|].
  exact (faults_between_distinct_and_length [7; 0; 1; 2; 0; 3; 0; 4] 3 Hvalid).
Defined.

(** X6. On every valid input the last snapshot of each simulator's
    trace holds as many pages as there are distinct pages in the
    reference string, up to the frame count: frames are never left
    empty while a page is waiting, and never given up again. *)
Theorem last_snapshot_size (pages : list Z) (frame_count : Z) :
  valid_input pages frame_count →
  Forall (λ simulate : list Z → Z → result outcome,
            ∃ o r, simulate pages frame_count = Ok o ∧
                   last (trace o) = Some r ∧
                   py_len r.1.2 = Z.min frame_count (distinct_pages pages))
         simulators.
Proof.
  intros [Hne Hpos]. apply Forall_forall. intros simulate Hsim.
  destruct (simulators_named simulate Hsim) as (algo & why & Hnamed).
  destruct (named_simulators_trace algo why simulate pages frame_count Hnamed Hpos)
    as (o & E & Hp & Htr & _).
  destruct (last (trace o)) as [r|] eqn:Hlast.
  2:{ apply last_None in Hlast. rewrite Hlast in Hp. simpl in Hp. by subst pages. }
  exists o, r. split_and!; [done|done|].
  destruct (trace_from_pages frame_count (trace o) [] ∅)
    as (_ & Hnd & Hlen & Hsub & Hall);
    [constructor|unfold py_len; simpl; lia|done|done|done|].
  assert (last ((trace o).*1.*2) = Some r.1.2) as Hl.
  { rewrite !fmap_last. unfold trace, step_record in *. by rewrite Hlast. }
  rewrite Hl in Hnd, Hlen, Hsub, Hall. simpl in Hnd, Hlen, Hsub, Hall.
  rewrite Hp in Hsub, Hall.
  replace (∅ ∪ list_to_set pages : gset Z) with (list_to_set pages : gset Z)
    in Hsub, Hall by set_solver.
  pose proof (size_list_to_set (C:=gset Z) _ Hnd) as Hsz.
  unfold distinct_pages. destruct (decide (py_len r.1.2 < frame_count)) as [Hlt|Hge].
  - rewrite <- (Hall Hlt), Hsz. unfold py_len in *. lia.
  - apply subseteq_size in Hsub. rewrite Hsz in Hsub. unfold py_len in *. lia.
Qed.

Lemma last_snapshot_size_witness :
  valid_input [1; 2; 2; 3; 1; 4] 2 ∧
  Forall (λ simulate : list Z → Z → result outcome,
            ∃ o r, simulate [1; 2; 2; 3; 1; 4] 2 = Ok o ∧
                   last (trace o) = Some r ∧
                   py_len r.1.2 = Z.min 2 (distinct_pages [1; 2; 2; 3; 1; 4]))
         simulators.
Proof.
  assert (valid_input [1; 2; 2; 3; 1; 4] 2) as Hvalid.
  { split; [discriminate|reflexivity]. }
  split; [exact Hvalid|].
  exact (last_snapshot_size [1; 2; 2; 3; 1; 4] 2 Hvalid).
Defined.

(** A demand-paging trace whose pages all fit into the frames replaces
    nothing, so it is the one trace there is. *)
Lemma trace_from_fill (frame_count : Z) (tr : list step_record) :
  ∀ prev : list Z,
    NoDup prev →
    Z.of_nat (size (list_to_set prev ∪ list_to_set (tr.*1.*1) : gset Z)) ≤ frame_count →
    trace_from frame_count prev tr →
    tr = fill_trace prev (tr.*1.*1) ∧
    Z.of_nat (size (list_to_set prev ∪ list_to_set (tr.*1.*1) : gset Z)) =
      py_len prev + count_status "FAULT" tr.
Proof.
  induction tr as [|[[page fr] status] tr IH]; intros prev Hnd Hfit Htr.
  { simpl. unfold count_status, py_len. simpl.
    replace (list_to_set prev ∪ ∅ : gset Z) with (list_to_set prev : gset Z)
      by set_solver.
    rewrite size_list_to_set by done. split; [done|lia]. }
  destruct Htr as [Hr Htr].
  rewrite !fmap_cons, list_to_set_cons in Hfit. rewrite !fmap_cons, list_to_set_cons.
  cbn [fst snd fill_trace] in *.
  destruct Hr as [(-> & Hin & ->)|[(-> & Hnin & Hroom & ->)|(-> & Hnin & Hfull & idx & v & Hv & ->)]].
  - rewrite decide_True by done.
    assert (list_to_set prev ∪ ({[page]} ∪ list_to_set tr.*1.*1)
            =@{gset Z} list_to_set prev ∪ list_to_set tr.*1.*1) as Hsame.
    { rewrite <- (elem_of_list_to_set (C:=gset Z)) in Hin. clear -Hin. set_solver. }
    rewrite Hsame in *. destruct (IH prev Hnd Hfit Htr) as [Hfill Hcount].
    rewrite (count_status_cons_ne "FAULT") by done. split; [by f_equal|done].
  - rewrite decide_False by done.
    assert (list_to_set prev ∪ ({[page]} ∪ list_to_set tr.*1.*1)
            =@{gset Z} list_to_set (prev ++ [page]) ∪ list_to_set tr.*1.*1) as Hsame.
    { rewrite list_to_set_app_L. simpl. set_solver. }
    rewrite Hsame in *.
    destruct (IH (prev ++ [page])) as [Hfill Hcount]; [|done|done|].
    { apply NoDup_app. split_and!; [done|set_solver|apply NoDup_singleton]. }
    rewrite (count_status_cons_eq "FAULT") by done. rewrite py_len_app in Hcount.
    split; [by f_equal|lia].
  - exfalso.
    assert (list_to_set prev ∪ {[page]} ⊆
            list_to_set prev ∪ ({[page]} ∪ list_to_set tr.*1.*1 : gset Z)) as Hsub
      by set_solver.
    apply subseteq_size in Hsub.
    rewrite <- (elem_of_list_to_set (C:=gset Z)) in Hnin.
    rewrite size_union, size_singleton, size_list_to_set in Hsub;
      [|done|clear -Hnin; set_solver].
    unfold py_len in Hfull. lia.
Qed.

(** X7. When the distinct pages of a valid reference string all fit
    into the frames, the four simulators return one and the same trace,
    in which nothing is ever replaced; the fault count of each is the
    number of distinct pages and the hit count is the rest. *)
Theorem enough_frames_same_trace (pages : list Z) (frame_count : Z) :
  valid_input pages frame_count →
  distinct_pages pages ≤ frame_count →
  Forall (λ simulate : list Z → Z → result outcome,
            ∃ o, simulate pages frame_count = Ok o ∧
                 trace o = fill_trace [] pages ∧
                 fault_count o = distinct_pages pages ∧
                 hit_count o = py_len pages - distinct_pages pages)
         simulators.
Proof.
  intros [_ Hpos] Hfit. apply Forall_forall. intros simulate Hsim.
  destruct (simulators_named simulate Hsim) as (algo & why & Hnamed).
  destruct (named_simulators_trace algo why simulate pages frame_count Hnamed Hpos)
    as (o & E & Hp & Htr & _ & Hh & Hf).
  destruct (simulators_return simulate pages frame_count Hsim Hpos)
    as (o' & E' & Hsum & _).
  rewrite E in E'. injection E' as <-.
  destruct (trace_from_fill frame_count (trace o) []) as [Hfill Hcount];
    [constructor| |done|].
  { rewrite Hp. unfold distinct_pages in Hfit.
    replace (list_to_set [] ∪ list_to_set pages : gset Z)
      with (list_to_set pages : gset Z) by set_solver.
    done. }
  rewrite Hp in Hfill, Hcount.
  replace (list_to_set [] ∪ list_to_set pages : gset Z)
    with (list_to_set pages : gset Z) in Hcount by set_solver.
  unfold py_len in Hcount. simpl in Hcount.
  exists o. unfold distinct_pages. split_and!; [done|done|lia|lia].
Qed.

Lemma enough_frames_same_trace_witness :
  (valid_input [1; 2; 1; 3; 2] 3 ∧ distinct_pages [1; 2; 1; 3; 2] ≤ 3) ∧
  Forall (λ simulate : list Z → Z → result outcome,
            ∃ o, simulate [1; 2; 1; 3; 2] 3 = Ok o ∧
                 trace o = fill_trace [] [1; 2; 1; 3; 2] ∧
                 fault_count o = distinct_pages [1; 2; 1; 3; 2] ∧
                 hit_count o = py_len [1; 2; 1; 3; 2] - distinct_pages [1; 2; 1; 3; 2])
         simulators.
Proof.
  assert (valid_input [1; 2; 1; 3; 2] 3) as Hvalid.
  { split; [discriminate|reflexivity]. }
  assert (distinct_pages [1; 2; 1; 3; 2] ≤ 3) as Hfit.
  { vm_compute. intros H. discriminate H. }
  split; [exact (conj Hvalid Hfit)|].
  exact (enough_frames_same_trace [1; 2; 1; 3; 2] 3 Hvalid Hfit).
Defined.

(** ** FIFO replaces in the order of loading *)

Lemma last_n_short {X : Type} (n : nat) (l : list X) :
  (length l ≤ n)%nat → last_n n l = l.
Proof. intros Hl. unfold last_n. by replace (length l - n)%nat with 0%nat by lia. Qed.

Lemma last_n_length {X : Type} (n : nat) (l : list X) :
  length (last_n n l) = Nat.min n (length l).
Proof. unfold last_n. rewrite length_drop. lia. Qed.

Lemma last_n_snoc_full {X : Type} (n : nat) (l : list X) (x : X) :
  (0 < n)%nat → (n ≤ length l)%nat →
  last_n n (l ++ [x]) = drop 1 (last_n n l) ++ [x].
Proof.
  intros Hn Hl. unfold last_n. rewrite length_app. simpl.
  rewrite drop_drop.
  replace (length l + 1 - n)%nat with (length l - n + 1)%nat by lia.
  rewrite drop_app_le by lia. done.
Qed.

Lemma fault_pages_snoc (tr : list step_record) (page : Z) (fr : list Z) (status : string) :
  fault_pages (tr ++ [(page, fr, status)]) =
  fault_pages tr ++ (if decide (status = "FAULT") then [page] else []).
Proof.
  unfold fault_pages. rewrite filter_app, fmap_app. f_equal.
  rewrite filter_cons, filter_nil. simpl. by destruct (decide (status = "FAULT")).
Qed.

Lemma fifo_queue_start (st : sim Z) : aux st = 0 → fifo_queue st = frames st.
Proof. intros E. unfold fifo_queue. rewrite E. simpl. by rewrite app_nil_r. Qed.

(** One access of FIFO, seen on the queue. *)
Lemma fifo_body_queue (frame_count : Z) (st : sim Z) (step page : Z) :
  0 < frame_count → fifo_inv frame_count st →
  ∃ st', fifo_body frame_count st (step, page) = Ok st' ∧
         fifo_inv frame_count st' ∧
         ((page ∈ frames st ∧ fifo_queue st' = fifo_queue st) ∨
          ((page ∉ frames st) ∧ py_len (frames st) < frame_count ∧
           fifo_queue st' = fifo_queue st ++ [page]) ∨
          ((page ∉ frames st) ∧ frame_count ≤ py_len (frames st) ∧
           ∃ victim q, fifo_queue st = victim :: q ∧
                       fifo_queue st' = q ++ [page] ∧
                       last (log st') = Some (log_replace step page victim "FIFO"))).
Proof.
  intros Hpos (Hok & Hqi & Hfill & Hq).
  destruct (fifo_body_access frame_count st step page Hpos Hok Hqi)
    as (k & a & E & Hk & Ha).
  pose proof (apply_access_frames_ok "FIFO" "already in memory" _ _ step _ _ a Hok Hk)
    as Hok'.
  exists (apply_access "FIFO" "already in memory" st step page k a).
  split; [done|]. unfold fifo_inv.
  destruct k as [| |idx victim]; simpl in Hk, Ha; subst.
  - assert (fifo_queue (apply_access "FIFO" "already in memory" st step page Hit (aux st))
            = fifo_queue st) as Hsame by done.
    split; [|left; by split]. do 3 (split; [done|]).
    rewrite Hsame, Hq. simpl. by rewrite fault_pages_snoc, app_nil_r.
  - destruct Hk as [Hnin Hroom]. specialize (Hfill Hroom).
    assert (fifo_queue (apply_access "FIFO" "already in memory" st step page Load (aux st))
            = fifo_queue st ++ [page]) as Hsnoc.
    { by rewrite !fifo_queue_start. }
    split; [|right; left; by split_and!]. do 3 (split; [done|]).
    rewrite Hsnoc. simpl. rewrite fault_pages_snoc. simpl.
    assert (length (fault_pages (steps st)) = length (frames st)) as Hlen.
    { pose proof (last_n_length (Z.to_nat frame_count) (fault_pages (steps st))) as Hl.
      rewrite <- Hq, fifo_queue_start in Hl by done. unfold py_len in Hroom. lia. }
    rewrite Hq, !last_n_short; [done| |]; rewrite ?length_app; simpl;
      unfold py_len in Hroom; lia.
  - destruct Hk as (Hnin & Hfull & Hv). destruct Ha as [-> ->].
    destruct Hok as [Hnd Hle].
    assert (length (frames st) = Z.to_nat frame_count) as Hlen
      by (unfold py_len in *; lia).
    destruct (insert_split (frames st) (Z.to_nat (aux st)) victim page Hv)
      as (l1 & l2 & Efr & Eins & Hl1).
    assert (fifo_queue st = victim :: l2 ++ l1) as Hqueue.
    { unfold fifo_queue. rewrite Efr, Hl1.
      rewrite drop_app_length, take_app_length. done. }
    assert (fifo_queue (apply_access "FIFO" "already in memory" st step page
                          (Replace (Z.to_nat (aux st)) victim)
                          ((aux st + 1) `mod` frame_count))
            = (l2 ++ l1) ++ [page]) as Hnew.
    { unfold fifo_queue. simpl. rewrite Eins.
      rewrite Efr, length_app in Hlen. simpl in Hlen.
      destruct (decide (aux st + 1 = frame_count)) as [Elast|Hmore].
      - rewrite Elast, Z.mod_same by lia. simpl.
        assert (l2 = []) as -> by (apply nil_length_inv; lia).
        by rewrite app_nil_r.
      - rewrite Z.mod_small by lia.
        replace (Z.to_nat (aux st + 1)) with (length (l1 ++ [page])) 
          by (rewrite length_app; simpl; lia).
        replace (l1 ++ page :: l2) with ((l1 ++ [page]) ++ l2)
          by by rewrite <- app_assoc.
        rewrite drop_app_length, take_app_length. by rewrite app_assoc. }
    split.
    + split; [done|]. split; [by apply Z.mod_pos_bound|]. split.
      { simpl. unfold py_len in *. rewrite length_insert. lia. }
      rewrite Hnew. simpl. rewrite fault_pages_snoc. simpl.
      pose proof (last_n_length (Z.to_nat frame_count) (fault_pages (steps st))) as Hl.
      rewrite <- Hq, Hqueue in Hl. simpl in Hl.
      rewrite Efr, length_app in Hlen. simpl in Hlen. rewrite length_app in Hl.
      rewrite last_n_snoc_full by lia. by rewrite <- Hq, Hqueue.
    + right. right. split_and!; [done|done|].
      exists victim, (l2 ++ l1). split_and!; [done|done|].
      simpl. by rewrite last_snoc.
Qed.

Lemma fifo_queue_loop (frame_count : Z) (its : list (Z * Z)) :
  0 < frame_count →
  ∀ st, fifo_inv frame_count st →
        ∃ st', for_each (fifo_body frame_count) its st = Ok st' ∧
               fifo_inv frame_count st'.
Proof.
  intros Hpos. induction its as [|[step page] its IH]; intros st Hinv.
  - by exists st.
  - destruct (fifo_body_queue frame_count st step page Hpos Hinv)
      as (st1 & E & Hinv1 & _).
    destruct (IH st1 Hinv1) as (st' & E' & Hinv').
    exists st'. cbn [for_each]. rewrite E. done.
Qed.

Lemma fifo_inv_init (frame_count : Z) : 0 < frame_count → fifo_inv frame_count (init 0).
Proof.
  intros Hpos. split_and!; [by apply frames_ok_init|simpl; lia|simpl; lia|done|done].
Qed.

(** X8. After any number of accesses of a FIFO run with a positive
    frame count, the frames read cyclically from the cursor are the most
    recent [frame_count] faulting pages in the order of their faults
    (all faulting pages while there are fewer); so the frames hold
    exactly these pages. *)
Theorem fifo_frames_are_latest_faults (pages : list Z) (frame_count : Z) (n : nat) :
  0 < frame_count →
  ∃ st, for_each (fifo_body frame_count) (take n (enumerate 1 pages)) (init 0) = Ok st ∧
        fifo_queue st = last_n (Z.to_nat frame_count) (fault_pages (steps st)) ∧
        frames st ≡ₚ last_n (Z.to_nat frame_count) (fault_pages (steps st)).
Proof.
  intros Hpos.
  destruct (fifo_queue_loop frame_count (take n (enumerate 1 pages)) Hpos (init 0))
    as (st & E & _ & _ & _ & Hq); [by apply fifo_inv_init|].
  exists st. split_and!; [done|done|].
  rewrite <- Hq. unfold fifo_queue.
  rewrite <- (take_drop (Z.to_nat (aux st)) (frames st)) at 1.
  apply Permutation_app_comm.
Qed.

Lemma fifo_frames_are_latest_faults_witness :
  0 < 3 ∧
  ∃ st, for_each (fifo_body 3) (take 7 (enumerate 1 [7; 0; 1; 2; 0; 3; 0; 4])) (init 0)
          = Ok st ∧
        fifo_queue st = last_n (Z.to_nat 3) (fault_pages (steps st)) ∧
        frames st ≡ₚ last_n (Z.to_nat 3) (fault_pages (steps st)).
Proof.
  assert (0 < 3) as Hpos by reflexivity.
  split; [exact Hpos|].
  exact (fifo_frames_are_latest_faults [7; 0; 1; 2; 0; 3; 0; 4] 3 7 Hpos).
Defined.

(** X9. In a run of FIFO, when the access after the prefix [done] faults
    with all frames taken, the page that is replaced, and that the log
    names, is the oldest of the last [frame_count] faulting pages: the
    resident page that was loaded first.  The new page becomes the
    youngest. *)
Theorem fifo_replaces_oldest
    (done : list Z) (page frame_count : Z) (st : sim Z) :
  0 < frame_count →
  for_each (fifo_body frame_count) (enumerate 1 done) (init 0) = Ok st →
  page ∉ frames st →
  ¬ py_len (frames st) < frame_count →
  ∃ victim q st',
    fifo_body frame_count st (py_len done + 1, page) = Ok st' ∧
    last_n (Z.to_nat frame_count) (fault_pages (steps st)) = victim :: q ∧
    last_n (Z.to_nat frame_count) (fault_pages (steps st')) = q ++ [page] ∧
    victim ∈ frames st ∧ (victim ∉ frames st') ∧
    last (log st') = Some (log_replace (py_len done + 1) page victim "FIFO").
Proof.
  intros Hpos Hst Hnin Hfull.
  destruct (fifo_queue_loop frame_count (enumerate 1 done) Hpos (init 0))
    as (st0 & E & Hinv); [by apply fifo_inv_init|].
  rewrite Hst in E. injection E as <-.
  destruct (fifo_body_queue frame_count st (py_len done + 1) page Hpos Hinv)
    as (st' & E & Hinv' & Hcase).
  destruct Hcase as [[Hin _]|[(_ & Hroom & _)|(_ & _ & victim & q & Hq & Hq' & Hlog)]];
    [done|done|].
  destruct Hinv as (Hok & _ & _ & Hqueue). destruct Hinv' as (Hok' & _ & _ & Hqueue').
  exists victim, q, st'. rewrite <- Hqueue, <- Hqueue'.
  assert (∀ s : sim Z, ∀ x, x ∈ fifo_queue s ↔ x ∈ frames s) as Hmem.
  { intros s x. unfold fifo_queue. rewrite elem_of_app.
    rewrite <- (take_drop (Z.to_nat (aux s)) (frames s)) at 3.
    rewrite elem_of_app. tauto. }
  split_and!; [done|done|done| | |done].
  - apply Hmem. rewrite Hq. by left.
  - rewrite <- Hmem, Hq'. rewrite elem_of_app, list_elem_of_singleton.
    intros [Hvq| ->].
    + destruct Hok as [Hnd _].
      assert (NoDup (fifo_queue st)) as Hndq.
      { unfold fifo_queue. apply NoDup_app.
        rewrite <- (take_drop (Z.to_nat (aux st)) (frames st)) in Hnd.
        apply NoDup_app in Hnd as (? & Hdis & ?). split_and!; [done| |done].
        intros x Hx Hx'. by apply (Hdis x). }
      rewrite Hq in Hndq. by apply NoDup_cons in Hndq as [? _].
    + apply Hnin, Hmem. rewrite Hq. by left.
Qed.

Lemma fifo_replaces_oldest_witness :
  ∃ victim q st',
    fifo_body 3 fifo_example_state (py_len [7; 0; 1] + 1, 2) = Ok st' ∧
    last_n (Z.to_nat 3) (fault_pages (steps fifo_example_state)) = victim :: q ∧
    last_n (Z.to_nat 3) (fault_pages (steps st')) = q ++ [2] ∧
    victim ∈ frames fifo_example_state ∧ (victim ∉ frames st') ∧
    last (log st') = Some (log_replace (py_len [7; 0; 1] + 1) 2 victim "FIFO").
Proof.
  apply (fifo_replaces_oldest [7; 0; 1] 2 3 fifo_example_state).
  - reflexivity.
  - vm_compute. reflexivity.
  - compute_done.
  - vm_compute. intros H. discriminate H.
Defined.

(** ** What LRU's recency map holds *)

Lemma last_access_snoc (start : Z) (done : list Z) (q p : Z) :
  last_access start (done ++ [q]) p =
  if decide (q = p) then Some (start + py_len done) else last_access start done p.
Proof.
  revert start. induction done as [|x done IH]; intros start; simpl.
  - unfold py_len. simpl. rewrite Z.add_0_r. by destruct (decide (q = p)).
  - rewrite IH. destruct (decide (q = p)); [|done].
    f_equal. unfold py_len. simpl length. lia.
Qed.

Lemma last_access_lookup (start : Z) (done : list Z) (p i : Z) :
  last_access start done p = Some i →
  start ≤ i ∧ done !! Z.to_nat (i - start) = Some p.
Proof.
  revert start. induction done as [|x done IH]; intros start; simpl; [done|].
  destruct (last_access (start + 1) done p) as [j|] eqn:E.
  - intros [= ->]. destruct (IH _ E) as [Hle Hat]. split; [lia|].
    replace (Z.to_nat (i - start)) with (S (Z.to_nat (i - (start + 1)))) by lia. done.
  - destruct (decide (x = p)) as [->|]; [|done]. intros [= ->].
    split; [lia|]. by rewrite Z.sub_diag.
Qed.

Lemma lru_sem_step (frame_count : Z) (done : list Z) (st : sim (gmap Z Z)) (page : Z) :
  0 < frame_count → lru_sem frame_count done st →
  ∃ st', lru_body frame_count st (py_len done, page) = Ok st' ∧
         lru_sem frame_count (done ++ [page]) st'.
Proof.
  intros Hpos [Hok Hrec].
  destruct (lru_body_access frame_count st (py_len done) page Hpos Hok)
    as (k & E & Hk & _).
  eexists. split; [exact E|]. split.
  - by eapply apply_access_frames_ok.
  - intros p. rewrite last_access_snoc, Z.add_0_l.
    assert (aux (apply_access "LRU" "already in memory" st (py_len done + 1) page k
                   (<[page:=py_len done]> (aux st)))
            = <[page:=py_len done]> (aux st)) as -> by by destruct k.
    destruct (decide (page = p)) as [->|Hne].
    + by rewrite lookup_insert_eq.
    + by rewrite lookup_insert_ne.
Qed.

Lemma lru_sem_loop (frame_count : Z) (rest : list Z) :
  0 < frame_count →
  ∀ done st, lru_sem frame_count done st →
             ∃ st', for_each (lru_body frame_count) (enumerate (py_len done) rest) st
                      = Ok st' ∧
                    lru_sem frame_count (done ++ rest) st'.
Proof.
  intros Hpos. induction rest as [|page rest IH]; intros done st Hsem.
  - exists st. by rewrite app_nil_r.
  - destruct (lru_sem_step frame_count done st page Hpos Hsem) as (st1 & E & Hsem1).
    destruct (IH (done ++ [page]) st1 Hsem1) as (st' & E' & Hsem').
    exists st'. cbn [enumerate for_each]. rewrite E. cbn [bind].
    rewrite py_len_app in E'. rewrite <- app_assoc in Hsem'. done.
Qed.

Lemma lru_sem_init (frame_count : Z) : 0 < frame_count → lru_sem frame_count [] (init ∅).
Proof. intros Hpos. split; [by apply frames_ok_init|done]. Qed.

Lemma lru_sem_run (frame_count : Z) (done : list Z) :
  0 < frame_count →
  ∃ st, for_each (lru_body frame_count) (enumerate 0 done) (init ∅) = Ok st ∧
        lru_sem frame_count done st.
Proof.
  intros Hpos.
  exact (lru_sem_loop frame_count done Hpos [] (init ∅) (lru_sem_init _ Hpos)).
Qed.

(** X10. After the accesses [done] of an LRU run with a positive frame
    count, [recent] maps every page to the index of its last access in
    [done], and has no entry for a page that was never accessed:
    entries of replaced pages stay, with their last access. *)
Theorem lru_recent_is_last_access (done : list Z) (frame_count : Z) :
  0 < frame_count →
  ∃ st, for_each (lru_body frame_count) (enumerate 0 done) (init ∅) = Ok st ∧
        ∀ p, aux st !! p = last_access 0 done p.
Proof.
  intros Hpos.
  destruct (lru_sem_run frame_count done Hpos) as (st & E & _ & Hrec).
  by exists st.
Qed.

Lemma lru_recent_is_last_access_witness :
  0 < 1 ∧
  ∃ st, for_each (lru_body 1) (enumerate 0 [1; 2; 1]) (init ∅) = Ok st ∧
        ∀ p, aux st !! p = last_access 0 [1; 2; 1] p.
Proof.
  assert (0 < 1) as Hpos by reflexivity.
  split; [exact Hpos|].
  exact (lru_recent_is_last_access [1; 2; 1] 1 Hpos).
Defined.

(** X11. In a run of LRU, when the access after the prefix [done] faults
    with all frames taken, the page that is replaced is the least
    recently used one: every other resident page has been accessed
    later in [done] than the victim. *)
Theorem lru_replaces_least_recently_used
    (done : list Z) (page frame_count : Z) (st : sim (gmap Z Z)) :
  0 < frame_count →
  for_each (lru_body frame_count) (enumerate 0 done) (init ∅) = Ok st →
  page ∉ frames st →
  ¬ py_len (frames st) < frame_count →
  ∃ (idx : nat) (victim iv : Z) (st' : sim (gmap Z Z)),
    lru_body frame_count st (py_len done, page) = Ok st' ∧
    frames st !! idx = Some victim ∧
    frames st' = <[idx:=page]> (frames st) ∧
    last (log st') = Some (log_replace (py_len done + 1) page victim "LRU") ∧
    last_access 0 done victim = Some iv ∧
    Forall (λ p, p = victim ∨ ∃ ip, last_access 0 done p = Some ip ∧ iv < ip)
           (frames st).
Proof.
  intros Hpos Hst Hnin Hfull.
  destruct (lru_sem_run frame_count done Hpos) as (st0 & E & Hok & Hrec).
  rewrite Hst in E. injection E as <-.
  destruct (lru_run frame_count Hpos (enumerate 0 done)) as (st0 & E & _ & Hinv).
  rewrite Hst in E. injection E as <-.
  destruct (full_frames _ _ Hpos Hok Hfull) as [_ Hne].
  destruct (lru_body_evict frame_count st (py_len done) page Hnin Hfull Hne)
    as (idx & v & Hidx & Hmin & E).
  assert (v ∈ frames st) as Hv by by eapply list_elem_of_lookup_2.
  destruct (Hinv v Hv) as [iv Hiv].
  eexists idx, v, iv, _. split; [exact E|]. simpl.
  split_and!; [done|done|by rewrite last_snoc|by rewrite <- Hrec|].
  apply Forall_forall. intros p Hp.
  destruct (decide (p = v)) as [->|Hpv]; [by left|right].
  destruct (Hinv p Hp) as [ip Hip]. exists ip. split; [by rewrite <- Hrec|].
  specialize (Hmin p Hp). unfold dict_get in Hmin. rewrite Hiv, Hip in Hmin.
  simpl in Hmin. assert (iv ≠ ip); [|lia]. intros <-.
  rewrite Hrec in Hiv, Hip.
  apply last_access_lookup in Hiv as [_ Hiv]. apply last_access_lookup in Hip as [_ Hip].
  congruence.
Qed.

Lemma lru_replaces_least_recently_used_witness :
  ∃ (idx : nat) (victim iv : Z) (st' : sim (gmap Z Z)),
    lru_body 2 lru_two_frames_state (py_len [1; 2; 1], 3) = Ok st' ∧
    frames lru_two_frames_state !! idx = Some victim ∧
    frames st' = <[idx:=3]> (frames lru_two_frames_state) ∧
    last (log st') = Some (log_replace (py_len [1; 2; 1] + 1) 3 victim "LRU") ∧
    last_access 0 [1; 2; 1] victim = Some iv ∧
    Forall (λ p, p = victim ∨ ∃ ip, last_access 0 [1; 2; 1] p = Some ip ∧ iv < ip)
           (frames lru_two_frames_state).
Proof.
  apply (lru_replaces_least_recently_used [1; 2; 1] 3 2 lru_two_frames_state).
  - reflexivity.
  - vm_compute. reflexivity.
  - compute_done.
  - vm_compute. intros H. discriminate H.
Defined.

(** ** What LFU's dictionaries hold *)

Lemma since_load_from_snoc (acc : Z) (tr : list step_record) (q : Z) (fr : list Z)
    (status : string) (p : Z) :
  since_load_from acc (tr ++ [(q, fr, status)]) p =
  if decide (q = p)
  then (if decide (status = "FAULT") then 1 else since_load_from acc tr p + 1)
  else since_load_from acc tr p.
Proof.
  revert acc. induction tr as [|[[q' fr'] status'] tr IH]; intros acc; simpl; [done|].
  by rewrite IH.
Qed.

Lemma lfu_sem_inv (frame_count : Z) (done : list Z) (st : sim (gmap Z Z * gmap Z Z)) :
  lfu_sem frame_count done st → lfu_inv st.
Proof.
  intros (_ & Hf & Ht & _) p Hp.
  rewrite <- !elem_of_dom, Hf, Ht, elem_of_list_to_set. done.
Qed.

Lemma lfu_sem_step (frame_count : Z) (done : list Z)
    (st : sim (gmap Z Z * gmap Z Z)) (page : Z) :
  0 < frame_count → lfu_sem frame_count done st →
  ∃ st', lfu_body frame_count st (py_len done, page) = Ok st' ∧
         lfu_sem frame_count (done ++ [page]) st'.
Proof.
  intros Hpos Hsem. pose proof (lfu_sem_inv _ _ _ Hsem) as Hinv.
  destruct Hsem as (Hok & Hdf & Hdt & Hval).
  destruct (lfu_body_access frame_count st (py_len done) page Hpos Hok Hinv)
    as (k & a & E & Hk & Ha).
  eexists. split; [exact E|].
  split; [by eapply apply_access_frames_ok|].
  destruct st as [fr fa hi sts lg [freq time]]. simpl in *.
  destruct k as [| |idx victim]; simpl in *.
  - destruct Ha as (f & Hf & ->). simpl.
    rewrite !dom_insert_L, Hdf, Hdt.
    assert (page ∈ (list_to_set fr : gset Z)) as Hpage by by apply elem_of_list_to_set.
    split_and!; [clear -Hpage; set_solver|clear -Hpage; set_solver|].
    intros p Hp. destruct (Hval p Hp) as [Hfp Htp].
    unfold since_load. rewrite since_load_from_snoc, last_access_snoc, Z.add_0_l.
    destruct (decide (page = p)) as [->|Hne].
    + rewrite !lookup_insert_eq. rewrite decide_False by done.
      rewrite Hfp in Hf. injection Hf as <-. done.
    + by rewrite !lookup_insert_ne.
  - subst a. simpl. destruct Hk as [Hnin Hroom].
    rewrite !dom_insert_L, Hdf, Hdt, list_to_set_app_L. simpl.
    split_and!; [set_solver|set_solver|].
    intros p Hp. unfold since_load.
    rewrite since_load_from_snoc, last_access_snoc, Z.add_0_l.
    destruct (decide (page = p)) as [->|Hne].
    + by rewrite !lookup_insert_eq, decide_True.
    + rewrite !lookup_insert_ne by done. apply Hval.
      apply elem_of_app in Hp as [Hp|Hp%list_elem_of_singleton]; [done|by subst].
  - subst a. simpl. destruct Hk as (Hnin & Hfull & Hv).
    rewrite !dom_insert_L, !dom_delete_L, Hdf, Hdt.
    rewrite (list_to_set_replace _ _ victim) by (apply Hok || done).
    split_and!; [done|done|].
    intros p Hp. unfold since_load.
    rewrite since_load_from_snoc, last_access_snoc, Z.add_0_l.
    apply (elem_of_replace _ _ victim) in Hp; [|apply Hok|done].
    destruct (decide (page = p)) as [->|Hne].
    + by rewrite !lookup_insert_eq, decide_True.
    + destruct Hp as [->|[Hp Hpv]]; [done|].
      rewrite !lookup_insert_ne, !lookup_delete_ne by done. by apply Hval.
Qed.

Lemma lfu_sem_loop (frame_count : Z) (rest : list Z) :
  0 < frame_count →
  ∀ done st, lfu_sem frame_count done st →
             ∃ st', for_each (lfu_body frame_count) (enumerate (py_len done) rest) st
                      = Ok st' ∧
                    lfu_sem frame_count (done ++ rest) st'.
Proof.
  intros Hpos. induction rest as [|page rest IH]; intros done st Hsem.
  - exists st. by rewrite app_nil_r.
  - destruct (lfu_sem_step frame_count done st page Hpos Hsem) as (st1 & E & Hsem1).
    destruct (IH (done ++ [page]) st1 Hsem1) as (st' & E' & Hsem').
    exists st'. cbn [enumerate for_each]. rewrite E. cbn [bind].
    rewrite py_len_app in E'. rewrite <- app_assoc in Hsem'. done.
Qed.

Lemma lfu_sem_run (frame_count : Z) (done : list Z) :
  0 < frame_count →
  ∃ st, for_each (lfu_body frame_count) (enumerate 0 done) (init (∅, ∅)) = Ok st ∧
        lfu_sem frame_count done st.
Proof.
  intros Hpos.
  apply (lfu_sem_loop frame_count done Hpos [] (init (∅, ∅))).
  split_and!; [by apply frames_ok_init|done|done|].
  intros p Hp. by apply elem_of_nil in Hp.
Qed.

(** X12. After the accesses [done] of an LFU run with a positive frame
    count, [freq] and [time] have entries for the resident pages and
    for no other page; for a resident page [freq] is the number of
    accesses to it since it was last loaded and [time] is the index of
    its last access. *)
Theorem lfu_dictionaries_meaning (done : list Z) (frame_count : Z) :
  0 < frame_count →
  ∃ st, for_each (lfu_body frame_count) (enumerate 0 done) (init (∅, ∅)) = Ok st ∧
        dom (aux st).1 = list_to_set (frames st) ∧
        dom (aux st).2 = list_to_set (frames st) ∧
        Forall (λ p, (aux st).1 !! p = Some (since_load (steps st) p) ∧
                     (aux st).2 !! p = last_access 0 done p)
               (frames st).
Proof.
  intros Hpos.
  destruct (lfu_sem_run frame_count done Hpos) as (st & E & _ & Hdf & Hdt & Hval).
  exists st. split_and!; [done|done|done|]. by apply Forall_forall.
Qed.

Lemma lfu_dictionaries_meaning_witness :
  0 < 2 ∧
  ∃ st, for_each (lfu_body 2) (enumerate 0 [1; 2; 2; 3; 1; 4]) (init (∅, ∅)) = Ok st ∧
        dom (aux st).1 = list_to_set (frames st) ∧
        dom (aux st).2 = list_to_set (frames st) ∧
        Forall (λ p, (aux st).1 !! p = Some (since_load (steps st) p) ∧
                     (aux st).2 !! p = last_access 0 [1; 2; 2; 3; 1; 4] p)
               (frames st).
Proof.
  assert (0 < 2) as Hpos by reflexivity.
  split; [exact Hpos|].
  exact (lfu_dictionaries_meaning [1; 2; 2; 3; 1; 4] 2 Hpos).
Defined.

(** X13. In a run of LFU, when the access after the prefix [done] faults
    with all frames taken, the page that is replaced has the fewest
    accesses since it was loaded; among the resident pages with as few,
    it is the one whose last access is oldest. *)
Theorem lfu_replaces_least_frequently_used
    (done : list Z) (page frame_count : Z) (st : sim (gmap Z Z * gmap Z Z)) :
  0 < frame_count →
  for_each (lfu_body frame_count) (enumerate 0 done) (init (∅, ∅)) = Ok st →
  page ∉ frames st →
  ¬ py_len (frames st) < frame_count →
  ∃ (idx : nat) (victim tv : Z) (st' : sim (gmap Z Z * gmap Z Z)),
    lfu_body frame_count st (py_len done, page) = Ok st' ∧
    frames st !! idx = Some victim ∧
    frames st' = <[idx:=page]> (frames st) ∧
    last (log st') = Some (log_replace (py_len done + 1) page victim "LFU") ∧
    last_access 0 done victim = Some tv ∧
    Forall (λ p, p = victim ∨
                 since_load (steps st) victim < since_load (steps st) p ∨
                 (since_load (steps st) victim = since_load (steps st) p ∧
                  ∃ tp, last_access 0 done p = Some tp ∧ tv < tp))
           (frames st).
Proof.
  intros Hpos Hst Hnin Hfull.
  destruct (lfu_sem_run frame_count done Hpos) as (st0 & E & Hsem).
  rewrite Hst in E. injection E as <-.
  pose proof (lfu_sem_inv _ _ _ Hsem) as Hinv.
  destruct Hsem as (Hok & _ & _ & Hval).
  destruct (full_frames _ _ Hpos Hok Hfull) as [_ Hne].
  destruct (lfu_body_evict frame_count st (py_len done) page Hnin Hfull Hne Hinv)
    as (idx & v & fv & tv & Hidx & Hfv & Htv & Hmin & E).
  assert (v ∈ frames st) as Hv by by eapply list_elem_of_lookup_2.
  destruct (Hval v Hv) as [Hfv' Htv']. rewrite Hfv in Hfv'. injection Hfv' as ->.
  rewrite Htv in Htv'.
  eexists idx, v, tv, _. split; [exact E|]. simpl.
  split_and!; [done|done|by rewrite last_snoc|done|].
  apply Forall_forall. intros p Hp.
  destruct (decide (p = v)) as [->|Hpv]; [by left|right].
  destruct (Hval p Hp) as [Hfp Htp]. destruct (Hinv p Hp) as [_ [tp Htp']].
  specialize (Hmin p _ tp Hp Hfp Htp'). unfold key_le in Hmin. simpl in Hmin.
  destruct Hmin as [Hlt|[Heq Hle]]; [by left|right].
  split; [done|]. exists tp. split; [by rewrite <- Htp|].
  assert (tv ≠ tp); [|lia]. intros <-.
  rewrite Htp in Htp'. symmetry in Htv'.
  apply last_access_lookup in Htv' as [_ Hat]. apply last_access_lookup in Htp' as [_ Hat'].
  congruence.
Qed.

Lemma lfu_replaces_least_frequently_used_witness :
  ∃ (idx : nat) (victim tv : Z) (st' : sim (gmap Z Z * gmap Z Z)),
    lfu_body 2 lfu_example_state (py_len [1; 2; 2], 3) = Ok st' ∧
    frames lfu_example_state !! idx = Some victim ∧
    frames st' = <[idx:=3]> (frames lfu_example_state) ∧
    last (log st') = Some (log_replace (py_len [1; 2; 2] + 1) 3 victim "LFU") ∧
    last_access 0 [1; 2; 2] victim = Some tv ∧
    Forall (λ p, p = victim ∨
                 since_load (steps lfu_example_state) victim
                   < since_load (steps lfu_example_state) p ∨
                 (since_load (steps lfu_example_state) victim
                    = since_load (steps lfu_example_state) p ∧
                  ∃ tp, last_access 0 [1; 2; 2] p = Some tp ∧ tv < tp))
           (frames lfu_example_state).
Proof.
  apply (lfu_replaces_least_frequently_used [1; 2; 2] 3 2 lfu_example_state).
  - reflexivity.
  - vm_compute. reflexivity.
  - compute_done.
  - vm_compute. intros H. discriminate H.
Defined.

(** ** OPTIMAL among all demand-paging schedules, and the comparison *)

(** X14. On every valid input the fault count of OPTIMAL is the least
    number of faults of any demand-paging schedule with [frame_count]
    frames that starts with empty frames: OPTIMAL's own run is such a
    schedule, and no schedule, whatever pages it chooses to replace, has
    fewer faults. *)
Theorem optimal_is_least_schedule (pages : list Z) (frame_count : Z) :
  valid_input pages frame_count →
  ∃ opt, optimal_page_replacement pages frame_count = Ok opt ∧
         0 ≤ fault_count opt ∧
         schedule (Z.to_nat frame_count) ∅ pages (Z.to_nat (fault_count opt)) ∧
         ∀ n, schedule (Z.to_nat frame_count) ∅ pages n → fault_count opt ≤ Z.of_nat n.
Proof.
  intros [_ Hpos].
  destruct (optimal_run frame_count Hpos pages (enumerate 0 pages)) as (sto & Eo & Hrun).
  rewrite enumerate_pages in Hrun.
  exists (returned sto). unfold optimal_page_replacement, optimal_loop at 1.
  rewrite Eo. split; [done|].
  pose proof (demand_run_schedule _ _ _ _ Hrun (frames_ok_init _ Hpos)) as Hs.
  pose proof (demand_run_faults_mono _ _ _ _ Hrun) as Hmono.
  simpl in Hs, Hmono. rewrite Z.sub_0_r in Hs.
  split_and!; [done|done|].
  intros n Hn.
  destruct (optimal_le_schedule frame_count pages Hpos [] (init ()) n
              (frames_ok_init _ Hpos) Hn) as (st' & E & Hle).
  change (for_each (optimal_body pages frame_count) (enumerate 0 pages) (init ()) = Ok st')
    in E.
  rewrite Eo in E. injection E as <-. simpl in Hle.
  unfold fault_count, returned. simpl. lia.
Qed.

Lemma optimal_is_least_schedule_witness :
  valid_input [7; 0; 1; 2; 0; 3; 0; 4] 3 ∧
  ∃ opt, optimal_page_replacement [7; 0; 1; 2; 0; 3; 0; 4] 3 = Ok opt ∧
         0 ≤ fault_count opt ∧
         schedule (Z.to_nat 3) ∅ [7; 0; 1; 2; 0; 3; 0; 4] (Z.to_nat (fault_count opt)) ∧
         ∀ n, schedule (Z.to_nat 3) ∅ [7; 0; 1; 2; 0; 3; 0; 4] n →
              fault_count opt ≤ Z.of_nat n.
Proof.
  assert (valid_input [7; 0; 1; 2; 0; 3; 0; 4] 3) as Hvalid.
  { split; [discriminate|reflexivity]. }
  split; [exact Hvalid|].
  exact (optimal_is_least_schedule [7; 0; 1; 2; 0; 3; 0; 4] 3 Hvalid).
Defined.

(** The four outcomes on a positive frame count, OPTIMAL's fault count
    below the other three. *)
Lemma four_outcomes (pages : list Z) (frame_count : Z) :
  0 < frame_count →
  ∃ fifo lru opt lfu,
    fifo_page_replacement pages frame_count = Ok fifo ∧
    lru_page_replacement pages frame_count = Ok lru ∧
    optimal_page_replacement pages frame_count = Ok opt ∧
    lfu_page_replacement pages frame_count = Ok lfu ∧
    fault_count opt ≤ fault_count fifo ∧
    fault_count opt ≤ fault_count lru ∧
    fault_count opt ≤ fault_count lfu.
Proof.
  intros Hpos.
  destruct (optimal_run frame_count Hpos pages (enumerate 0 pages)) as (sto & Eo & _).
  assert (∀ A (a : A) (st : sim A),
            demand_run frame_count (init a) pages st →
            fault_count (returned sto) ≤ fault_count (returned st)) as Hle.
  { intros A a st Hrun.
    destruct (optimal_le_demand_run frame_count pages a st Hpos Hrun) as (st' & E & Hle).
    unfold optimal_loop in E. rewrite Eo in E. by injection E as <-. }
  destruct (fifo_run frame_count Hpos (enumerate 1 pages)) as (s1 & E1 & Hrun1).
  destruct (lru_run frame_count Hpos (enumerate 0 pages)) as (s2 & E2 & Hrun2 & _).
  destruct (lfu_run frame_count Hpos (enumerate 0 pages)) as (s3 & E3 & Hrun3 & _).
  rewrite enumerate_pages in Hrun1, Hrun2, Hrun3.
  exists (returned s1), (returned s2), (returned sto), (returned s3).
  unfold fifo_page_replacement, fifo_loop, lru_page_replacement, lru_loop,
    optimal_page_replacement, optimal_loop, lfu_page_replacement, lfu_loop.
  rewrite E1, E2, Eo, E3. split_and!; try done; by eapply Hle.
Qed.

(** X15. On every valid input [compare_all] names an algorithm whose
    fault count is the least of the four, and the first such in the
    order FIFO, LRU, OPTIMAL, LFU.  As OPTIMAL is never beaten, the
    name is FIFO or LRU only when that algorithm ties with OPTIMAL, and
    it is never LFU. *)
Theorem compare_all_names_first_minimum (pages : list Z) (frame_count : Z) :
  valid_input pages frame_count →
  ∃ fifo lru opt lfu name,
    fifo_page_replacement pages frame_count = Ok fifo ∧
    lru_page_replacement pages frame_count = Ok lru ∧
    optimal_page_replacement pages frame_count = Ok opt ∧
    lfu_page_replacement pages frame_count = Ok lfu ∧
    compare_all pages frame_count = Ok ("Best Algorithm (Minimum Faults): " +:+ name) ∧
    fault_count opt ≤ fault_count lfu ∧
    ((name = "FIFO" ∧ fault_count fifo = fault_count opt) ∨
     (name = "LRU" ∧ fault_count opt < fault_count fifo ∧
      fault_count lru = fault_count opt) ∨
     (name = "OPTIMAL" ∧ fault_count opt < fault_count fifo ∧
      fault_count opt < fault_count lru)).
Proof.
  intros [_ Hpos].
  destruct (four_outcomes pages frame_count Hpos)
    as (fifo & lru & opt & lfu & E1 & E2 & E3 & E4 & H1 & H2 & H3).
  unfold compare_all. rewrite E1, E2, E3, E4.
  destruct fifo as [[[s1 f1] h1] l1], lru as [[[s2 f2] h2] l2],
    opt as [[[s3 f3] h3] l3], lfu as [[[s4 f4] h4] l4].
  unfold fault_count in *. cbn [bind fst snd py_min py_min_from] in *.
  assert (∀ name : string,
            (name = "FIFO" ∧ f1 = f3) ∨
            (name = "LRU" ∧ f3 < f1 ∧ f2 = f3) ∨
            (name = "OPTIMAL" ∧ f3 < f1 ∧ f3 < f2) →
            ∃ fifo lru opt lfu : outcome, ∃ name' : string,
              Ok (s1, f1, h1, l1) = Ok fifo ∧ Ok (s2, f2, h2, l2) = Ok lru ∧
              Ok (s3, f3, h3, l3) = Ok opt ∧ Ok (s4, f4, h4, l4) = Ok lfu ∧
              Ok ("Best Algorithm (Minimum Faults): " +:+ name)
                = Ok ("Best Algorithm (Minimum Faults): " +:+ name') ∧
              opt.1.1.2 ≤ lfu.1.1.2 ∧
              ((name' = "FIFO" ∧ fifo.1.1.2 = opt.1.1.2) ∨
               (name' = "LRU" ∧ opt.1.1.2 < fifo.1.1.2 ∧ lru.1.1.2 = opt.1.1.2) ∨
               (name' = "OPTIMAL" ∧ opt.1.1.2 < fifo.1.1.2 ∧
                opt.1.1.2 < lru.1.1.2))) as Hname.
  { intros name Hcase.
    exists (s1, f1, h1, l1), (s2, f2, h2, l2), (s3, f3, h3, l3), (s4, f4, h4, l4), name.
    by split_and!. }
  destruct (f2 <? f1) eqn:C21.
  - destruct (f3 <? f2) eqn:C32.
    + destruct (f4 <? f3) eqn:C43; [lia|].
      apply (Hname "OPTIMAL"). right. right. split_and!; [done|lia|lia].
    + destruct (f4 <? f2) eqn:C42; [lia|].
      apply (Hname "LRU"). right. left. split_and!; [done|lia|lia].
  - destruct (f3 <? f1) eqn:C31.
    + destruct (f4 <? f3) eqn:C43; [lia|].
      apply (Hname "OPTIMAL"). right. right. split_and!; [done|lia|lia].
    + destruct (f4 <? f1) eqn:C41; [lia|].
      apply (Hname "FIFO"). left. split_and!; [done|lia].
Qed.

Lemma compare_all_names_first_minimum_witness :
  valid_input [1; 2; 3; 4; 1; 2; 5; 1; 2; 3; 4; 5] 4 ∧
  ∃ fifo lru opt lfu name,
    fifo_page_replacement [1; 2; 3; 4; 1; 2; 5; 1; 2; 3; 4; 5] 4 = Ok fifo ∧
    lru_page_replacement [1; 2; 3; 4; 1; 2; 5; 1; 2; 3; 4; 5] 4 = Ok lru ∧
    optimal_page_replacement [1; 2; 3; 4; 1; 2; 5; 1; 2; 3; 4; 5] 4 = Ok opt ∧
    lfu_page_replacement [1; 2; 3; 4; 1; 2; 5; 1; 2; 3; 4; 5] 4 = Ok lfu ∧
    compare_all [1; 2; 3; 4; 1; 2; 5; 1; 2; 3; 4; 5] 4
      = Ok ("Best Algorithm (Minimum Faults): " +:+ name) ∧
    fault_count opt ≤ fault_count lfu ∧
    ((name = "FIFO" ∧ fault_count fifo = fault_count opt) ∨
     (name = "LRU" ∧ fault_count opt < fault_count fifo ∧
      fault_count lru = fault_count opt) ∨
     (name = "OPTIMAL" ∧ fault_count opt < fault_count fifo ∧
      fault_count opt < fault_count lru)).
Proof.
  assert (valid_input [1; 2; 3; 4; 1; 2; 5; 1; 2; 3; 4; 5] 4) as Hvalid.
  { split; [discriminate|reflexivity]. }
  split; [exact Hvalid|].
  exact (compare_all_names_first_minimum [1; 2; 3; 4; 1; 2; 5; 1; 2; 3; 4; 5] 4 Hvalid).
Defined.

(** ** The earlier program computes the same traces *)

Lemma py_norm_index_lt (l : list Z) (i : Z) (n : nat) :
  py_norm_index l i = Ok n → (n < length l)%nat.
Proof.
  unfold py_norm_index, py_len. repeat case_decide; intros [= <-]; lia.
Qed.

Lemma fifo_bodies_agree (frame_count : Z) (st1 st2 : sim Z) (step page : Z) :
  same_but_log st1 st2 →
  agree (fifo_body frame_count st1 (step, page)) (App.fifo_body frame_count st2 page).
Proof.
  destruct st1 as [fr fa hi sts lg1 q], st2 as [fr2 fa2 hi2 sts2 lg2 q2].
  intros (E1 & E2 & E3 & E4 & E5). simpl in *. subst.
  unfold fifo_body, App.fifo_body. cbn [frames aux count_hit count_fault].
  destruct (decide (page ∈ fr2)); [by split_and!|].
  destruct (decide (py_len fr2 < frame_count)); [by split_and!|].
  unfold py_getitem, py_setitem.
  destruct (py_norm_index fr2 q2) as [m|e] eqn:En; [|done]. cbn [bind].
  destruct (fr2 !! m) as [x|] eqn:Ex.
  - cbn [bind]. unfold py_mod. destruct (decide (frame_count = 0)); [done|].
    by split_and!.
  - apply py_norm_index_lt in En. apply lookup_ge_None in Ex. lia.
Qed.

Lemma lru_bodies_agree (frame_count : Z) (st1 st2 : sim (gmap Z Z)) (it : Z * Z) :
  same_but_log st1 st2 →
  agree (lru_body frame_count st1 it) (App.lru_body frame_count st2 it).
Proof.
  destruct st1 as [fr fa hi sts lg1 q], st2 as [fr2 fa2 hi2 sts2 lg2 q2].
  intros (E1 & E2 & E3 & E4 & E5). simpl in *. subst. destruct it as [i page].
  unfold lru_body, App.lru_body. cbn [frames aux count_hit count_fault].
  destruct (decide (page ∈ fr2)); [by split_and!|].
  destruct (decide (py_len fr2 < frame_count)); [by split_and!|].
  destruct (py_min Z.ltb (λ p : Z, Ok (dict_get q2 p (-1))) fr2) as [v|e]; [|done].
  cbn [bind]. destruct (py_index fr2 v) as [idx|e]; [|done].
  cbn [bind]. destruct (py_setitem fr2 idx page) as [fr'|e]; [|done].
  by split_and!.
Qed.

Section loops_agree.
Context {A X Y : Type} (body1 : sim A → X → result (sim A))
  (body2 : sim A → Y → result (sim A)) (R : X → Y → Prop).
Hypothesis bodies_agree : ∀ st1 st2 x y,
  R x y → same_but_log st1 st2 → agree (body1 st1 x) (body2 st2 y).

Lemma for_each_agree (xs : list X) (ys : list Y) (st1 st2 : sim A) :
  Forall2 R xs ys → same_but_log st1 st2 →
  agree (for_each body1 xs st1) (for_each body2 ys st2).
Proof.
  intros Hxy. revert st1 st2. induction Hxy as [|x y xs ys Hr _ IH]; intros st1 st2 Hs.
  - done.
  - cbn [for_each]. pose proof (bodies_agree st1 st2 x y Hr Hs) as Hb.
    destruct (body1 st1 x), (body2 st2 y); try done. cbn [bind]. by apply IH.
Qed.
End loops_agree.

Lemma enumerate_Forall2 (R : Z * Z → Z → Prop) (start : Z) (pages : list Z) :
  (∀ i page, R (i, page) page) → Forall2 R (enumerate start pages) pages.
Proof.
  intros HR. revert start. induction pages; intros start; simpl; constructor; auto.
Qed.

(** The simulators of [app.py] against those of [secondapp.py]. *)
Lemma app_simulators_agree (pages : list Z) (frame_count : Z) :
  App.fifo_page_replacement pages frame_count =
    (o <- fifo_page_replacement pages frame_count ;;
     Ok (trace o, fault_count o, hit_count o)) ∧
  App.lru_page_replacement pages frame_count =
    (o <- lru_page_replacement pages frame_count ;;
     Ok (trace o, fault_count o, hit_count o)).
Proof.
  split.
  - unfold App.fifo_page_replacement, fifo_page_replacement, fifo_loop.
    assert (agree (for_each (fifo_body frame_count) (enumerate 1 pages) (init 0))
                  (for_each (App.fifo_body frame_count) pages (init 0))) as Hag.
    { apply (for_each_agree _ _ (λ x y, x.2 = y)).
      - intros st1 st2 [step page] y <-. apply fifo_bodies_agree.
      - by apply enumerate_Forall2.
      - done. }
    destruct (for_each (fifo_body frame_count) (enumerate 1 pages) (init 0)) as [s1|e1],
      (for_each (App.fifo_body frame_count) pages (init 0)) as [s2|e2];
      cbn [bind]; unfold agree in Hag; try done.
    + destruct Hag as (_ & Hf & Hh & Hs & _).
      unfold trace, fault_count, hit_count, returned. simpl. by rewrite Hf, Hh, Hs.
    + by rewrite Hag.
  - unfold App.lru_page_replacement, lru_page_replacement, lru_loop.
    assert (agree (for_each (lru_body frame_count) (enumerate 0 pages) (init ∅))
                  (for_each (App.lru_body frame_count) (enumerate 0 pages) (init ∅)))
      as Hag.
    { apply (for_each_agree _ _ eq).
      - intros st1 st2 x y <-. apply lru_bodies_agree.
      - by apply Forall_Forall2_diag, Forall_true.
      - done. }
    destruct (for_each (lru_body frame_count) (enumerate 0 pages) (init ∅)) as [s1|e1],
      (for_each (App.lru_body frame_count) (enumerate 0 pages) (init ∅)) as [s2|e2];
      cbn [bind]; unfold agree in Hag; try done.
    + destruct Hag as (_ & Hf & Hh & Hs & _).
      unfold trace, fault_count, hit_count, returned. simpl. by rewrite Hf, Hh, Hs.
    + by rewrite Hag.
Qed.

(** X16. For every input, valid or not, [fifo_page_replacement] and
    [lru_page_replacement] of the earlier program [app.py] return the
    trace, the fault count and the hit count that their successors in
    [secondapp.py] return, and raise the same exception when those
    raise: the later program only adds the log.  So [run_both] names
    FIFO or LRU when that one has strictly fewer faults, and reports
    "Both Equal" exactly when the two fault counts are equal. *)
Theorem earlier_program_agrees (pages : list Z) (frame_count : Z) :
  App.fifo_page_replacement pages frame_count =
    (o <- fifo_page_replacement pages frame_count ;;
     Ok (trace o, fault_count o, hit_count o)) ∧
  App.lru_page_replacement pages frame_count =
    (o <- lru_page_replacement pages frame_count ;;
     Ok (trace o, fault_count o, hit_count o)) ∧
  App.run_both pages frame_count =
    (fifo <- fifo_page_replacement pages frame_count ;;
     lru <- lru_page_replacement pages frame_count ;;
     Ok (if decide (fault_count fifo < fault_count lru) then "FIFO"
         else if decide (fault_count lru < fault_count fifo) then "LRU"
         else "Both Equal")).
Proof.
  destruct (app_simulators_agree pages frame_count) as [Hfifo Hlru].
  split; [done|]. split; [done|].
  unfold App.run_both. rewrite Hfifo, Hlru.
  destruct (fifo_page_replacement pages frame_count) as [fifo|e]; [|done].
  cbn [bind].
  destruct (lru_page_replacement pages frame_count) as [lru|e]; [|done].
  done.
Qed.

(** ** The gate in front of the simulators, and the table behind them *)

(** X17. Whatever [parse_input] lets through is the converted content of
    the two fields, has at least one page, so that the hit ratio
    [hits / total] is defined, and makes none of the four simulators and
    not [compare_all] raise. *)
Theorem accepted_input_runs
    (frame_int : option Z) (page_ints : option (list Z)) (pages : list Z)
    (frame_count : Z) :
  parse_input frame_int page_ints = Some (pages, frame_count) →
  frame_int = Some frame_count ∧ page_ints = Some pages ∧
  py_len pages ≠ 0 ∧
  Forall (λ simulate : list Z → Z → result outcome,
            ∃ o, simulate pages frame_count = Ok o)
         simulators ∧
  ∃ text, compare_all pages frame_count = Ok text.
Proof.
  intros (-> & -> & Hne & Hpos)%parse_input_valid.
  split_and!; [done|done| | |].
  - destruct pages; [done|]. unfold py_len. simpl. lia.
  - apply Forall_forall. intros simulate Hsim.
    destruct (simulators_return simulate pages frame_count Hsim Hpos) as (o & E & _).
    by exists o.
  - destruct (four_outcomes pages frame_count Hpos)
      as (fifo & lru & opt & lfu & E1 & E2 & E3 & E4 & _).
    unfold compare_all. rewrite E1, E2, E3, E4.
    destruct fifo as [[[s1 f1] h1] l1], lru as [[[s2 f2] h2] l2],
      opt as [[[s3 f3] h3] l3], lfu as [[[s4 f4] h4] l4].
    cbn [bind fst snd py_min py_min_from].
    repeat match goal with |- context [if ?c then _ else _] => destruct c end;
      cbn [bind]; eauto.
Qed.

Lemma accepted_input_runs_witness :
  parse_input (Some 3) (Some [7; 0; 1; 2; 0; 3; 0; 4])
    = Some ([7; 0; 1; 2; 0; 3; 0; 4], 3) ∧
  (Some 3 = Some 3 ∧ Some [7; 0; 1; 2; 0; 3; 0; 4] = Some [7; 0; 1; 2; 0; 3; 0; 4] ∧
   py_len [7; 0; 1; 2; 0; 3; 0; 4] ≠ 0 ∧
   Forall (λ simulate : list Z → Z → result outcome,
             ∃ o, simulate [7; 0; 1; 2; 0; 3; 0; 4] 3 = Ok o)
          simulators ∧
   ∃ text, compare_all [7; 0; 1; 2; 0; 3; 0; 4] 3 = Ok text).
Proof.
  assert (parse_input (Some 3) (Some [7; 0; 1; 2; 0; 3; 0; 4])
            = Some ([7; 0; 1; 2; 0; 3; 0; 4], 3)) as Hparse by reflexivity.
  split; [exact Hparse|].
  exact (accepted_input_runs (Some 3) (Some [7; 0; 1; 2; 0; 3; 0; 4])
           [7; 0; 1; 2; 0; 3; 0; 4] 3 Hparse).
Defined.

Lemma display_rows_shape (steps : list step_record) (frame_count i : Z) :
  Forall (λ r : step_record, py_len r.1.2 ≤ frame_count) steps →
  length (display_rows i steps frame_count) = length steps ∧
  Forall (λ row, length row = (Z.to_nat frame_count + 3)%nat)
         (display_rows i steps frame_count).
Proof.
  revert i. induction steps as [|[[page fr] status] steps IH]; intros i Hall.
  - split; [done|constructor].
  - apply Forall_cons in Hall as [Hr Hall]. destruct (IH (i + 1) Hall) as [Hlen Hrows].
    simpl in Hr. cbn [display_rows]. split; [simpl; by f_equal|].
    constructor; [|done].
    rewrite !length_app, length_fmap. unfold py_repeat. rewrite length_replicate.
    unfold py_len in *. simpl. lia.
Qed.

Lemma display_rows_lookup (steps : list step_record) (frame_count i : Z) (n : nat)
    (row : list cell) :
  display_rows i steps frame_count !! n = Some row →
  ∃ page snapshot status,
    steps !! n = Some (page, snapshot, status) ∧
    row = CInt (i + Z.of_nat n) :: CInt page :: (CInt <$> snapshot)
            ++ replicate (Z.to_nat frame_count - length snapshot)%nat (CStr "-")
            ++ [CStr status].
Proof.
  revert i n row.
  induction steps as [|[[page fr] status] steps IH]; intros i n row; [done|].
  destruct n as [|n]; cbn [display_rows]; simpl lookup.
  - intros [= <-]. exists page, fr, status. split; [done|].
    rewrite Z.add_0_r. unfold py_repeat, py_len.
    replace (Z.to_nat (frame_count - Z.of_nat (length fr)))
      with (Z.to_nat frame_count - length fr)%nat by lia.
    simpl. by rewrite <- app_assoc.
  - intros Hrow. destruct (IH _ _ _ Hrow) as (p & fr' & s & Hr & ->).
    exists p, fr', s. split; [done|].
    by replace (i + Z.of_nat (S n)) with (i + 1 + Z.of_nat n) by lia.
Qed.

(** X18. For the trace of each simulator on a valid input,
    [display_steps] makes the columns Step, Page, one per frame, and
    Status, and one row per access.  Every row has as many cells as
    there are columns, [frame_count + 3].  Row [n] is made of record [n]
    of the trace and of nothing else: the step number [n], counted from
    1, the page of the record, which is access [n] of the input, the
    pages of the record's snapshot in their order, then "-" once for
    every frame the snapshot leaves empty, and last the status of the
    record. *)
Theorem table_rows_fit_the_columns (pages : list Z) (frame_count : Z) :
  valid_input pages frame_count →
  Forall (λ simulate : list Z → Z → result outcome,
            ∃ o, simulate pages frame_count = Ok o ∧
                 (∃ names,
                    (display_steps (trace o) frame_count).1
                      = "Step" :: "Page" :: names ++ ["Status"] ∧
                    length names = Z.to_nat frame_count) ∧
                 length (display_steps (trace o) frame_count).1
                   = (Z.to_nat frame_count + 3)%nat ∧
                 length (display_steps (trace o) frame_count).2 = length pages ∧
                 Forall (λ row, length row
                                = length (display_steps (trace o) frame_count).1)
                        (display_steps (trace o) frame_count).2 ∧
                 ∀ (n : nat) row,
                   (display_steps (trace o) frame_count).2 !! n = Some row →
                   ∃ page snapshot status,
                     trace o !! n = Some (page, snapshot, status) ∧
                     pages !! n = Some page ∧
                     row = CInt (1 + Z.of_nat n) :: CInt page :: (CInt <$> snapshot)
                             ++ replicate (Z.to_nat frame_count - length snapshot)%nat
                                  (CStr "-")
                             ++ [CStr status])
         simulators.
Proof.
  intros [_ Hpos]. apply Forall_forall. intros simulate Hsim.
  destruct (simulators_return simulate pages frame_count Hsim Hpos)
    as (o & E & _ & Hp & Hall).
  exists o. split; [done|].
  assert (length (display_steps (trace o) frame_count).1
          = (Z.to_nat frame_count + 3)%nat) as Hcols.
  { unfold display_steps, py_range. simpl.
    rewrite length_app, !length_fmap, length_seq. simpl. lia. }
  destruct (display_rows_shape (trace o) frame_count 1) as [Hlen Hrows].
  { eapply Forall_impl; [exact Hall|]. by intros r [_ ?]. }
  split_and!; [|done| | |].
  - eexists. split; [reflexivity|].
    unfold py_range. by rewrite !length_fmap, length_seq.
  - unfold display_steps. simpl. rewrite Hlen, <- Hp. by rewrite !length_fmap.
  - rewrite Hcols. done.
  - intros n row Hrow. unfold display_steps in Hrow. simpl in Hrow.
    destruct (display_rows_lookup _ _ _ _ _ Hrow) as (page & fr & status & Hr & ->).
    exists page, fr, status. split_and!; [done| |done].
    rewrite <- Hp, !list_lookup_fmap. unfold trace, step_record in *.
    by rewrite Hr.
Qed.

Lemma table_rows_fit_the_columns_witness :
  valid_input [1; 2; 2; 3; 1; 4] 2 ∧
  Forall (λ simulate : list Z → Z → result outcome,
            ∃ o, simulate [1; 2; 2; 3; 1; 4] 2 = Ok o ∧
                 (∃ names,
                    (display_steps (trace o) 2).1
                      = "Step" :: "Page" :: names ++ ["Status"] ∧
                    length names = Z.to_nat 2) ∧
                 length (display_steps (trace o) 2).1 = (Z.to_nat 2 + 3)%nat ∧
                 length (display_steps (trace o) 2).2 = length [1; 2; 2; 3; 1; 4] ∧
                 Forall (λ row, length row = length (display_steps (trace o) 2).1)
                        (display_steps (trace o) 2).2 ∧
                 ∀ (n : nat) row,
                   (display_steps (trace o) 2).2 !! n = Some row →
                   ∃ page snapshot status,
                     trace o !! n = Some (page, snapshot, status) ∧
                     [1; 2; 2; 3; 1; 4] !! n = Some page ∧
                     row = CInt (1 + Z.of_nat n) :: CInt page :: (CInt <$> snapshot)
                             ++ replicate (Z.to_nat 2 - length snapshot)%nat (CStr "-")
                             ++ [CStr status])
         simulators.
Proof.
  assert (valid_input [1; 2; 2; 3; 1; 4] 2) as Hvalid.
  { split; [discriminate|reflexivity]. }
  split; [exact Hvalid|].
  exact (table_rows_fit_the_columns [1; 2; 2; 3; 1; 4] 2 Hvalid).
Defined.
